(** * gitdav: the loose-object reader of [internal/git/git.go]

    A shallow embedding of the package [git] (repository handle, commit,
    tree and blob readers) together with the parts of the Go standard
    library it calls: [unicode/utf8], [fmt]'s scanning of the two formats
    the package uses, [bufio.Scanner], [strings], [compress/zlib]'s header
    check and the file-handle discipline of [os].

    Conventions.  A Go [string] and a Go [[]byte] are both [list byte].
    A Go [int] is a [Z]; a rune is a [Z] with [eof = -1].  A function
    returning [(v, err)] returns a pair of options; a run-time panic is the
    [Panics] outcome. *)

From Stdlib Require Import String Ascii.
From Stdlib Require Import Strings.Byte.
From Stdlib Require Import List ZArith Lia Bool.
Import ListNotations.
Open Scope Z_scope.

(** ** Bytes and Go strings *)

Definition bytes := list byte.

(** A string literal of the source, as the bytes it denotes. *)
Definition lit (s : string) : bytes := list_byte_of_string s.

Definition byte_val (b : byte) : Z := Z.of_N (Byte.to_N b).

Definition byte_of_Z (z : Z) : byte :=
  match Byte.of_N (Z.to_N (z mod 256)) with
  | Some b => b
  | None => x00
  end.

Fixpoint bytes_eqb (a b : bytes) : bool :=
  match a, b with
  | [], [] => true
  | x :: a', y :: b' => Byte.eqb x y && bytes_eqb a' b'
  | _, _ => false
  end.

Definition len (s : bytes) : Z := Z.of_nat (length s).

(** ** Errors, panics and outcomes *)

(** The error a [*os.PathError] wraps: an errno of the system call, or the
    package-level [os.ErrNotExist]. *)
Inductive Errno : Type := ENOENT | EACCES | ErrNotExist.

Inductive error : Type :=
| io_EOF
| io_ErrUnexpectedEOF
| io_ErrNoProgress
| bufio_ErrTooLong
| bufio_ErrNegativeAdvance
| bufio_ErrAdvanceTooFar
| bufio_ErrFinalToken
| zlib_ErrHeader
| zlib_ErrDictionary
| zlib_ErrChecksum
| flate_CorruptInputError
| os_PathError (op : string) (path : list bytes) (errno : Errno)
| fmt_errorString (msg : string)
| strconv_ErrSyntax (tok : bytes)
| strconv_ErrRange (tok : bytes)
| errors_Errorf (format : string) (arg : bytes)
| errors_Wrap (cause : error) (msg : string)
| errors_WithStack (cause : error).

Inductive panic : Type :=
| slice_bounds_out_of_range (lo hi : Z) (length : Z)
| too_many_empty_tokens.

(** What a call does: it returns, it panics, or (for the loops that are
    run on a step budget) the budget was too small. *)
Inductive Outcome (A : Type) : Type :=
| Returns (a : A)
| Panics (p : panic)
| OutOfFuel.
Arguments Returns {A} a.
Arguments Panics {A} p.
Arguments OutOfFuel {A}.

Definition bindO {A B} (m : Outcome A) (k : A -> Outcome B) : Outcome B :=
  match m with
  | Returns a => k a
  | Panics p => Panics p
  | OutOfFuel => OutOfFuel
  end.

(** [s[lo:hi]] with Go's bounds check. *)
Definition slice (s : bytes) (lo hi : Z) : Outcome bytes :=
  if (0 <=? lo) && (lo <=? hi) && (hi <=? len s)
  then Returns (firstn (Z.to_nat (hi - lo)) (skipn (Z.to_nat lo) s))
  else Panics (slice_bounds_out_of_range lo hi (len s)).

(** ** unicode/utf8 *)

Module utf8.

Definition RuneError : Z := 65533.
Definition RuneSelf : Z := 128.

(** The entries of the table [first]: ASCII, invalid, or a lead byte with
    the sequence's size and the range accepted for its second byte. *)
Inductive first_info : Type :=
| as_ascii
| xx
| lead (size : nat) (lo hi : Z).

Definition first (p0 : Z) : first_info :=
  if p0 <? 128 then as_ascii
  else if p0 <? 194 then xx
  else if p0 <? 224 then lead 2 128 191
  else if p0 =? 224 then lead 3 160 191
  else if p0 <? 237 then lead 3 128 191
  else if p0 =? 237 then lead 3 128 159
  else if p0 <? 240 then lead 3 128 191
  else if p0 =? 240 then lead 4 144 191
  else if p0 <? 244 then lead 4 128 191
  else if p0 =? 244 then lead 4 128 143
  else xx.

Definition locb : Z := 128.
Definition hicb : Z := 191.

Definition cont (b : Z) : Z := Z.land b 63.

(** [DecodeRune p]: the first rune of [p] and its width in bytes. *)
Definition DecodeRune (p : bytes) : Z * nat :=
  match p with
  | [] => (RuneError, 0%nat)
  | b0 :: t =>
    let p0 := byte_val b0 in
    match first p0 with
    | as_ascii => (p0, 1%nat)
    | xx => (RuneError, 1%nat)
    | lead sz lo hi =>
      if (length p <? sz)%nat then (RuneError, 1%nat) else
      match t with
      | [] => (RuneError, 1%nat)
      | c1 :: t1 =>
        let b1 := byte_val c1 in
        if (b1 <? lo) || (hi <? b1) then (RuneError, 1%nat) else
        if (sz <=? 2)%nat then
          (Z.lor (Z.shiftl (Z.land p0 31) 6) (cont b1), 2%nat)
        else
        match t1 with
        | [] => (RuneError, 1%nat)
        | c2 :: t2 =>
          let b2 := byte_val c2 in
          if (b2 <? locb) || (hicb <? b2) then (RuneError, 1%nat) else
          if (sz <=? 3)%nat then
            (Z.lor (Z.lor (Z.shiftl (Z.land p0 15) 12) (Z.shiftl (cont b1) 6))
                   (cont b2), 3%nat)
          else
          match t2 with
          | [] => (RuneError, 1%nat)
          | c3 :: _ =>
            let b3 := byte_val c3 in
            if (b3 <? locb) || (hicb <? b3) then (RuneError, 1%nat) else
            (Z.lor (Z.lor (Z.lor (Z.shiftl (Z.land p0 7) 18)
                                 (Z.shiftl (cont b1) 12))
                          (Z.shiftl (cont b2) 6))
                   (cont b3), 4%nat)
          end
        end
      end
    end
  end.

Definition tx (r : Z) : byte := byte_of_Z (Z.lor 128 (Z.land r 63)).

(** [AppendRune p r]: [p] followed by the UTF-8 encoding of [r]. *)
Definition AppendRune (p : bytes) (r : Z) : bytes :=
  if (0 <=? r) && (r <=? 127) then p ++ [byte_of_Z r]
  else if (0 <=? r) && (r <=? 2047) then
    p ++ [byte_of_Z (Z.lor 192 (Z.shiftr r 6)); tx r]
  else
    let r := if (r <? 0) || (1114111 <? r) || ((55296 <=? r) && (r <=? 57343))
             then RuneError else r in
    if r <=? 65535 then
      p ++ [byte_of_Z (Z.lor 224 (Z.shiftr r 12)); tx (Z.shiftr r 6); tx r]
    else
      p ++ [byte_of_Z (Z.lor 240 (Z.shiftr r 18)); tx (Z.shiftr r 12);
            tx (Z.shiftr r 6); tx r].

(** [RuneStart b]: [b] is not a continuation byte. *)
Definition RuneStart (b : Z) : bool := negb (Z.land b 192 =? 128).

Definition UTFMax : nat := 4.

(** The loop of [DecodeLastRune] that walks back from [start] to the
    nearest rune start, no further than [lim]. *)
Fixpoint back_to_start (p : bytes) (steps : nat) (start lim : Z) : Z :=
  match steps with
  | O => start
  | S k =>
    if start <? lim then start
    else if RuneStart (byte_val (nth (Z.to_nat start) p x00)) then start
    else back_to_start p k (start - 1) lim
  end.

(** [DecodeLastRune p]: the last rune of [p] and its width. *)
Definition DecodeLastRune (p : bytes) : Z * nat :=
  let e := len p in
  if e =? 0 then (RuneError, 0%nat) else
  let r := byte_val (nth (Z.to_nat (e - 1)) p x00) in
  if r <? RuneSelf then (r, 1%nat) else
  let lim := Z.max 0 (e - Z.of_nat UTFMax) in
  let start := Z.max 0 (back_to_start p UTFMax (e - 2) lim) in
  let '(r, size) := DecodeRune (skipn (Z.to_nat start) p) in
  if start + Z.of_nat size =? e then (r, size) else (RuneError, 1%nat).

End utf8.

(** ** Fallible library calls *)

Definition result (A : Type) : Type := (error + A)%type.
Definition Ok {A} (a : A) : result A := inr a.
Definition Err {A} (e : error) : result A := inl e.

Definition bindR {A B} (m : result A) (k : A -> result B) : result B :=
  match m with
  | inl e => inl e
  | inr a => k a
  end.

Declare Scope result_scope.
Delimit Scope result_scope with result.
Notation "x <- m ;; k" := (bindR m (fun x => k))
  (at level 61, m at next level, right associativity) : result_scope.
Notation "' p <- m ;; k" := (bindR m (fun x => match x with p => k end))
  (at level 61, p pattern, m at next level, right associativity) : result_scope.

(** ** strconv *)

Module strconv.

Definition digit_val (b : byte) : option Z :=
  let v := byte_val b in
  if (48 <=? v) && (v <=? 57) then Some (v - 48) else None.

(** The digit loop of [ParseUint] in base 10: [None] on a byte that is no
    decimal digit. *)
Fixpoint digits_value (acc : Z) (s : bytes) : option Z :=
  match s with
  | [] => Some acc
  | b :: s' =>
    match digit_val b with
    | Some d => digits_value (acc * 10 + d) s'
    | None => None
    end
  end.

(** [ParseUint s 10 bitSize]. *)
Definition ParseUint (s : bytes) (bitSize : Z) : result Z :=
  match s with
  | [] => Err (strconv_ErrSyntax s)
  | _ =>
    match digits_value 0 s with
    | None => Err (strconv_ErrSyntax s)
    | Some un => if un <? 2 ^ bitSize then Ok un else Err (strconv_ErrRange s)
    end
  end.

(** [ParseInt s 10 bitSize]. *)
Definition ParseInt (s : bytes) (bitSize : Z) : result Z :=
  match s with
  | [] => Err (strconv_ErrSyntax s)
  | b0 :: s1 =>
    let neg := Byte.eqb b0 "-"%byte in
    let digits := if Byte.eqb b0 "+"%byte || neg then s1 else s in
    match digits with
    | [] => Err (strconv_ErrSyntax s)
    | _ =>
      match digits_value 0 digits with
      | None => Err (strconv_ErrSyntax s)
      | Some un =>
        let cutoff := 2 ^ (bitSize - 1) in
        if negb neg && (cutoff <=? un) then Err (strconv_ErrRange s)
        else if neg && (cutoff <? un) then Err (strconv_ErrRange s)
        else Ok (if neg then - un else un)
      end
    end
  end.

(** [Itoa]: the decimal text of a non-negative integer, most significant
    digit first.  The budget bounds the number of digits. *)
Fixpoint Itoa_digits (fuel : nat) (n : Z) (acc : bytes) : bytes :=
  match fuel with
  | O => acc
  | S k =>
    let acc' := byte_of_Z (48 + n mod 10) :: acc in
    if n <? 10 then acc' else Itoa_digits k (n / 10) acc'
  end.

Definition Itoa (n : Z) : bytes := Itoa_digits (S (Z.to_nat n)) n [].

End strconv.

(** ** fmt: scanning

    The scanner state [ss] is represented by the input not yet read; a
    call of [UnreadRune] is a return to the input as it was before the last
    [getRune].  [fin] is what the underlying reader reports once its bytes
    are exhausted ([io_EOF] for a [bytes.Reader]). *)

Module fmt.

Definition eof : Z := -1.

(** The table [space] and its lookup. *)
Definition isSpace (r : Z) : bool :=
  if 65536 <=? r then false else
  let rx := r mod 65536 in
  ((9 <=? rx) && (rx <=? 13)) || (rx =? 32) || (rx =? 133) || (rx =? 160)
  || (rx =? 5760) || ((8192 <=? rx) && (rx <=? 8202))
  || ((8232 <=? rx) && (rx <=? 8233)) || (rx =? 8239) || (rx =? 8287)
  || (rx =? 12288).

Definition notSpace (r : Z) : bool := negb (isSpace r).

Definition decimalDigits (r : Z) : bool := (48 <=? r) && (r <=? 57).
Definition sign (r : Z) : bool := (r =? 43) || (r =? 45).

Section Scan.
Variable fin : error.
Local Open Scope result_scope.

Definition getRune (inp : bytes) : result (Z * bytes) :=
  match inp with
  | [] => match fin with io_EOF => Ok (eof, []) | _ => Err fin end
  | _ => let '(r, size) := utf8.DecodeRune inp in Ok (r, skipn size inp)
  end.

Definition mustReadRune (inp : bytes) : result (Z * bytes) :=
  '(r, rest) <- getRune inp ;;
  if r =? eof then Err io_ErrUnexpectedEOF else Ok (r, rest).

Definition notEOF (inp : bytes) : result unit :=
  '(r, _) <- getRune inp ;;
  if r =? eof then Err io_EOF else Ok tt.

Definition peek (ok : Z -> bool) (inp : bytes) : result bool :=
  '(r, _) <- getRune inp ;; Ok (ok r).

(** [SkipSpace], for a scan in which a newline is not a space
    ([nlIsSpace = false], as [Fscanf] sets it). *)
Fixpoint SkipSpace_loop (fuel : nat) (inp : bytes) : result bytes :=
  match fuel with
  | O => Ok inp
  | S k =>
    '(r, rest) <- getRune inp ;;
    if r =? eof then Ok rest else
    cr_nl <- (if r =? 13 then peek (Z.eqb 10) rest else Ok false) ;;
    if cr_nl : bool then SkipSpace_loop k rest
    else if r =? 10 then Err (fmt_errorString "unexpected newline")
    else if negb (isSpace r) then Ok inp
    else SkipSpace_loop k rest
  end.

Definition SkipSpace (inp : bytes) : result bytes :=
  SkipSpace_loop (S (length inp)) inp.

(** The loop of [token]: runes are appended to [buf] while [f] holds. *)
Fixpoint token_loop (f : Z -> bool) (fuel : nat) (buf inp : bytes)
  : result (bytes * bytes) :=
  match fuel with
  | O => Ok (buf, inp)
  | S k =>
    '(r, rest) <- getRune inp ;;
    if r =? eof then Ok (buf, rest)
    else if negb (f r) then Ok (buf, inp)
    else token_loop f k (utf8.AppendRune buf r) rest
  end.

Definition token (skipSpace : bool) (f : Z -> bool) (buf inp : bytes)
  : result (bytes * bytes) :=
  inp <- (if skipSpace then SkipSpace inp else Ok inp) ;;
  token_loop f (S (length inp)) buf inp.

(** [consume ok accept]: whether the next rune is one of [ok]; the buffer
    and the input afterwards. *)
Definition consume (ok : Z -> bool) (accept : bool) (buf inp : bytes)
  : result (bool * bytes * bytes) :=
  '(r, rest) <- getRune inp ;;
  if r =? eof then Ok (false, buf, rest)
  else if ok r then Ok (true, if accept then utf8.AppendRune buf r else buf, rest)
  else Ok (false, buf, if accept then inp else rest).

Definition accept (ok : Z -> bool) := consume ok true.

(** [for s.accept(digits) {}] *)
Fixpoint accept_loop (ok : Z -> bool) (fuel : nat) (buf inp : bytes)
  : result (bytes * bytes) :=
  match fuel with
  | O => Ok (buf, inp)
  | S k =>
    '(b, buf', inp') <- accept ok buf inp ;;
    if b : bool then accept_loop ok k buf' inp' else Ok (buf', inp')
  end.

(** [scanNumber digits false] *)
Definition scanNumber (digits : Z -> bool) (buf inp : bytes)
  : result (bytes * bytes) :=
  _ <- notEOF inp ;;
  '(b, buf, inp) <- accept digits buf inp ;;
  if b : bool then accept_loop digits (S (length inp)) buf inp
  else Err (fmt_errorString "expected integer").

(** [scanUint 'd' bitSize] *)
Definition scanUint (bitSize : Z) (inp : bytes) : result (Z * bytes) :=
  inp <- SkipSpace inp ;;
  _ <- notEOF inp ;;
  '(tok, inp) <- scanNumber decimalDigits [] inp ;;
  i <- strconv.ParseUint tok 64 ;;
  if i <? 2 ^ bitSize then Ok (i, inp)
  else Err (fmt_errorString "unsigned integer overflow on token").

(** [scanInt 'd' bitSize] *)
Definition scanInt (bitSize : Z) (inp : bytes) : result (Z * bytes) :=
  inp <- SkipSpace inp ;;
  _ <- notEOF inp ;;
  '(_, buf, inp) <- accept sign [] inp ;;
  '(tok, inp) <- scanNumber decimalDigits buf inp ;;
  i <- strconv.ParseInt tok 64 ;;
  if (- 2 ^ (bitSize - 1) <=? i) && (i <? 2 ^ (bitSize - 1)) then Ok (i, inp)
  else Err (fmt_errorString "integer overflow on token").

(** [convertString 's'] *)
Definition convertString (inp : bytes) : result (bytes * bytes) :=
  inp <- SkipSpace inp ;;
  _ <- notEOF inp ;;
  token true notSpace [] inp.

(** [advance] over one space of the format that follows no newline: the
    input must be at a space or at its end, and its spaces up to a
    newline are skipped. *)
Fixpoint advance_space_loop (fuel : nat) (inputc : Z) (before rest : bytes)
  : result bytes :=
  match fuel with
  | O => Ok rest
  | S k =>
    if isSpace inputc && negb (inputc =? 10) then
      '(r, rest') <- getRune rest ;;
      advance_space_loop k r rest rest'
    else if inputc =? eof then Ok rest else Ok before
  end.

Definition advance_space (inp : bytes) : result bytes :=
  '(inputc, rest) <- getRune inp ;;
  if negb (isSpace inputc) && negb (inputc =? eof)
  then Err (fmt_errorString "expected space in input to match format")
  else if inputc =? 10
  then Err (fmt_errorString "newline in input does not match format")
  else advance_space_loop (S (S (length inp))) inputc inp rest.

(** [advance] over a literal rune of the format. *)
Definition advance_literal (fmtc : Z) (inp : bytes) : result bytes :=
  '(inputc, rest) <- mustReadRune inp ;;
  if fmtc =? inputc then Ok rest
  else Err (fmt_errorString "input does not match format").

(** [Fscanf r "%d %s" &mode &name] with [mode] an [os.FileMode]
    ([uint32]) and [name] a [string]. *)
Definition Fscanf_d_s (inp : bytes) : result (Z * bytes) :=
  inp <- SkipSpace inp ;;
  '(mode, inp) <- scanUint 32 inp ;;
  inp <- advance_space inp ;;
  inp <- SkipSpace inp ;;
  '(name, _) <- convertString inp ;;
  Ok (mode, name).

(** [Fscanf r "%s %d\u0000" &kind &length] with [kind] a [string] and
    [length] an [int64]; also the input left unread. *)
Definition Fscanf_s_d_nul (inp : bytes) : result (bytes * Z * bytes) :=
  inp <- SkipSpace inp ;;
  '(kind, inp) <- convertString inp ;;
  inp <- advance_space inp ;;
  inp <- SkipSpace inp ;;
  '(length, inp) <- scanInt 64 inp ;;
  inp <- advance_literal 0 inp ;;
  Ok (kind, length, inp).

End Scan.

(** [Sprintf "%x" s]: the bytes of [s] in lowercase hexadecimal. *)
Definition ldigits : bytes := lit "0123456789abcdef".

Definition hex_digit (v : Z) : byte := nth (Z.to_nat v) ldigits x00.

Fixpoint Sprintf_x (s : bytes) : bytes :=
  match s with
  | [] => []
  | b :: s' =>
    hex_digit (Z.shiftr (byte_val b) 4) :: hex_digit (Z.land (byte_val b) 15)
    :: Sprintf_x s'
  end.

End fmt.

(** ** bytes and strings *)

Module strings.

(** [bytes.IndexByte b c] and, for a one-byte separator,
    [strings.Index s sep]: the index of the first [c] in [b], or [-1]. *)
Fixpoint IndexByte (b : bytes) (c : byte) : Z :=
  match b with
  | [] => -1
  | x :: b' =>
    if Byte.eqb x c then 0
    else let i := IndexByte b' c in if i <? 0 then -1 else i + 1
  end.

(** [unicode.IsSpace] *)
Definition IsSpace (r : Z) : bool :=
  if (0 <=? r) && (r <=? 255) then
    ((9 <=? r) && (r <=? 13)) || (r =? 32) || (r =? 133) || (r =? 160)
  else
    (r =? 5760) || ((8192 <=? r) && (r <=? 8202))
    || ((8232 <=? r) && (r <=? 8233)) || (r =? 8239) || (r =? 8287)
    || (r =? 12288).

Definition asciiSpace (c : byte) : bool :=
  let v := byte_val c in ((9 <=? v) && (v <=? 13)) || (v =? 32).

(** [TrimLeftFunc s f] *)
Fixpoint TrimLeftFunc_loop (f : Z -> bool) (fuel : nat) (s : bytes) : bytes :=
  match fuel with
  | O => []
  | S k =>
    match s with
    | [] => []
    | _ =>
      let '(r, size) := utf8.DecodeRune s in
      if f r then TrimLeftFunc_loop f k (skipn size s) else s
    end
  end.

Definition TrimLeftFunc (s : bytes) (f : Z -> bool) : bytes :=
  TrimLeftFunc_loop f (length s) s.

(** [lastIndexFunc s f false]: the index at which the last rune not
    satisfying [f] starts, or [-1]. *)
Fixpoint lastIndexFunc_loop (f : Z -> bool) (fuel : nat) (s : bytes) : Z :=
  match fuel with
  | O => -1
  | S k =>
    match s with
    | [] => -1
    | _ =>
      let '(r, size) := utf8.DecodeLastRune s in
      let i := len s - Z.of_nat size in
      if f r then lastIndexFunc_loop f k (firstn (Z.to_nat i) s) else i
    end
  end.

(** [TrimRightFunc s f] *)
Definition TrimRightFunc (s : bytes) (f : Z -> bool) : bytes :=
  let i := lastIndexFunc_loop f (length s) s in
  let i :=
    if (0 <=? i) && (utf8.RuneSelf <=? byte_val (nth (Z.to_nat i) s x00))
    then i + Z.of_nat (snd (utf8.DecodeRune (skipn (Z.to_nat i) s)))
    else i + 1 in
  firstn (Z.to_nat i) s.

Definition TrimFunc (s : bytes) (f : Z -> bool) : bytes :=
  TrimRightFunc (TrimLeftFunc s f) f.

(** The two loops of [TrimSpace]: the ASCII fast path from the start and
    from the end ([inl] is the fallback on a non-ASCII byte). *)
Fixpoint TrimSpace_start (s : bytes) : bytes + bytes :=
  match s with
  | [] => inr []
  | c :: s' =>
    if utf8.RuneSelf <=? byte_val c then inl s
    else if asciiSpace c then TrimSpace_start s' else inr s
  end.

Fixpoint TrimSpace_stop (rev_s : bytes) : bytes + bytes :=
  match rev_s with
  | [] => inr []
  | c :: r' =>
    if utf8.RuneSelf <=? byte_val c then inl (rev rev_s)
    else if asciiSpace c then TrimSpace_stop r' else inr (rev rev_s)
  end.

Definition TrimSpace (s : bytes) : bytes :=
  match TrimSpace_start s with
  | inl rest => TrimFunc rest IsSpace
  | inr rest =>
    match TrimSpace_stop (rev rest) with
    | inl kept => TrimRightFunc kept IsSpace
    | inr kept => kept
    end
  end.

End strings.

(** ** io.Reader

    A reader is the sequence of chunks its successive [Read] calls can
    deliver, and the error it reports once they are exhausted ([io_EOF]
    at the end of a sound stream).  [Read room] delivers at most [room]
    bytes of the chunk at hand. *)

Module io.

Record Reader : Type := mkReader { chunks : list bytes; final : error }.

Definition Read (room : nat) (r : Reader) : bytes * option error * Reader :=
  match chunks r with
  | [] => ([], Some (final r), r)
  | c :: cs =>
    if (length c <=? room)%nat then (c, None, mkReader cs (final r))
    else (firstn room c, None, mkReader (skipn room c :: cs) (final r))
  end.

(** All the bytes the reader still holds. *)
Definition contents (r : Reader) : bytes := concat (chunks r).

(** The reader after [n] of its bytes were read one at a time. *)
Fixpoint skip_chunks (n : nat) (cs : list bytes) : list bytes :=
  match cs with
  | [] => []
  | c :: cs' =>
    if (n =? 0)%nat then cs
    else if (length c <=? n)%nat then skip_chunks (n - length c) cs'
    else skipn n c :: cs'
  end.

Definition skip (n : nat) (r : Reader) : Reader :=
  mkReader (skip_chunks n (chunks r)) (final r).

End io.

(** ** bufio.Scanner *)

Module bufio.

Definition MaxScanTokenSize : Z := 64 * 1024.
Definition startBufSize : Z := 4096.
Definition maxConsecutiveEmptyReads : nat := 100.

(** [SplitFunc]: [(advance, token, err)] for the data at hand and whether
    the input has ended. *)
Definition SplitFunc : Type := bytes -> bool -> Z * option bytes * option error.

Definition dropCR (data : bytes) : bytes :=
  match rev data with
  | c :: r => if Byte.eqb c x0d then rev r else data
  | [] => data
  end.

Definition ScanLines : SplitFunc := fun data atEOF =>
  if atEOF && (len data =? 0) then (0, None, None)
  else
    let i := strings.IndexByte data x0a in
    if 0 <=? i then (i + 1, Some (dropCR (firstn (Z.to_nat i) data)), None)
    else if atEOF then (len data, Some (dropCR data), None)
    else (0, None, None).

(** The scanner: [pending] is [buf[start:end]], so [end = start + len
    pending]; [buf_len] is [len(buf)]. *)
Record Scanner : Type := mkScanner {
  r : io.Reader;
  split : SplitFunc;
  maxTokenSize : Z;
  token : option bytes;
  buf_len : Z;
  start : Z;
  pending : bytes;
  err : option error;
  empties : nat;
  done : bool
}.

Definition NewScanner (rd : io.Reader) : Scanner :=
  mkScanner rd ScanLines MaxScanTokenSize None 0 0 [] None 0 false.

Definition Split (s : Scanner) (f : SplitFunc) : Scanner :=
  mkScanner (r s) f (maxTokenSize s) (token s) (buf_len s) (start s)
            (pending s) (err s) (empties s) (done s).

Definition s_end (s : Scanner) : Z := start s + len (pending s).

Definition is_EOF (e : error) : bool :=
  match e with io_EOF => true | _ => false end.

Definition is_FinalToken (e : error) : bool :=
  match e with bufio_ErrFinalToken => true | _ => false end.

Definition isSome {A} (o : option A) : bool :=
  match o with Some _ => true | None => false end.

Definition with_err (s : Scanner) (e : option error) : Scanner :=
  mkScanner (r s) (split s) (maxTokenSize s) (token s) (buf_len s) (start s)
            (pending s) e (empties s) (done s).

Definition with_token (s : Scanner) (t : option bytes) : Scanner :=
  mkScanner (r s) (split s) (maxTokenSize s) t (buf_len s) (start s)
            (pending s) (err s) (empties s) (done s).

Definition with_empties (s : Scanner) (n : nat) : Scanner :=
  mkScanner (r s) (split s) (maxTokenSize s) (token s) (buf_len s) (start s)
            (pending s) (err s) n (done s).

Definition with_buf (s : Scanner) (n st : Z) (p : bytes) : Scanner :=
  mkScanner (r s) (split s) (maxTokenSize s) (token s) n st p (err s)
            (empties s) (done s).

Definition setErr (s : Scanner) (e : error) : Scanner :=
  match err s with
  | None => with_err s (Some e)
  | Some e0 => if is_EOF e0 then with_err s (Some e) else s
  end.

(** [Err]: the first error that was not [io.EOF]. *)
Definition Err (s : Scanner) : option error :=
  match err s with
  | Some e => if is_EOF e then None else Some e
  | None => None
  end.

(** [Bytes] (and [Text]): the most recent token. *)
Definition Bytes (s : Scanner) : bytes :=
  match token s with Some t => t | None => [] end.

Definition advance (s : Scanner) (n : Z) : bool * Scanner :=
  if n <? 0 then (false, setErr s bufio_ErrNegativeAdvance)
  else if s_end s - start s <? n then (false, setErr s bufio_ErrAdvanceTooFar)
  else (true, with_buf s (buf_len s) (start s + n) (skipn (Z.to_nat n) (pending s))).

(** The read loop at the end of [Scan]'s body: [tries] empty reads are
    still tolerated. *)
Fixpoint read_loop (tries : nat) (room : nat) (rd : io.Reader)
  : bytes * option error * io.Reader :=
  let '(data, e, rd') := io.Read room rd in
  match e with
  | Some e => (data, Some e, rd')
  | None =>
    match data with
    | _ :: _ => (data, None, rd')
    | [] =>
      match tries with
      | O => ([], Some io_ErrNoProgress, rd')
      | S t => read_loop t room rd'
      end
    end
  end.

(** One pass through the body of [Scan]'s loop. *)
Inductive pass : Type :=
| Yield (more : bool) (s : Scanner)
| Crash (p : panic)
| Again (s : Scanner).

(** The second half of the loop body: nothing could be split off, so
    stop at an error, or make room and read. *)
Definition read_more (s : Scanner) : pass :=
  if isSome (err s) then Yield false (with_buf s (buf_len s) 0 [])
  else
    let s :=
      if (0 <? start s)
         && ((s_end s =? buf_len s) || (buf_len s / 2 <? start s))
      then with_buf s (buf_len s) 0 (pending s) else s in
    if (s_end s =? buf_len s) && (maxTokenSize s <=? buf_len s)
    then Yield false (setErr s bufio_ErrTooLong)
    else
      let s :=
        if s_end s =? buf_len s then
          let newSize := buf_len s * 2 in
          let newSize := if newSize =? 0 then startBufSize else newSize in
          with_buf s (Z.min newSize (maxTokenSize s)) 0 (pending s)
        else s in
      let '(data, e, rd) :=
        read_loop maxConsecutiveEmptyReads (Z.to_nat (buf_len s - s_end s)) (r s) in
      let s :=
        mkScanner rd (split s) (maxTokenSize s) (token s) (buf_len s) (start s)
                  (pending s ++ data) (err s)
                  (match data with [] => empties s | _ => O end) (done s) in
      Again (match e with Some e => setErr s e | None => s end).

Definition Scan_pass (s : Scanner) : pass :=
  if (start s <? s_end s) || isSome (err s) then
    let '(adv, tok, e) := split s (pending s) (isSome (err s)) in
    match e with
    | Some e =>
      if is_FinalToken e then
        Yield (isSome tok)
              (mkScanner (r s) (split s) (maxTokenSize s) tok (buf_len s)
                         (start s) (pending s) (err s) (empties s) true)
      else Yield false (setErr s e)
    | None =>
      let '(ok, s) := advance s adv in
      if negb ok then Yield false s
      else
        let s := with_token s tok in
        match tok with
        | Some _ =>
          if negb (isSome (err s)) || (0 <? adv) then Yield true (with_empties s 0)
          else
            let s := with_empties s (S (empties s)) in
            if (maxConsecutiveEmptyReads <? empties s)%nat
            then Crash too_many_empty_tokens
            else Yield true s
        | None => read_more s
        end
    end
  else read_more s.

Fixpoint Scan_loop (fuel : nat) (s : Scanner) : Outcome (bool * Scanner) :=
  match fuel with
  | O => OutOfFuel
  | S k =>
    match Scan_pass s with
    | Yield more s' => Returns (more, s')
    | Crash p => Panics p
    | Again s' => Scan_loop k s'
    end
  end.

(** [Scan]: advance to the next token; [false] when there is none. *)
Definition Scan (fuel : nat) (s : Scanner) : Outcome (bool * Scanner) :=
  if done s then Returns (false, s) else Scan_loop fuel s.

(** A step budget that covers a whole scan of [rd]: each pass of [Scan]
    reads a byte or ends the input, each token uses up a byte. *)
Definition budget (rd : io.Reader) : nat :=
  (2 * length (io.contents rd) + length (io.chunks rd) + 4)%nat.

End bufio.

(** ** path/filepath and os

    A path is kept as the list of its elements: [filepath.Join] is their
    concatenation under the separator, and the file system answers for a
    list of elements.  A path built from a single string is the
    one-element list. *)

Module filepath.

Definition Join (elem : list bytes) : list bytes := elem.

End filepath.

Module os.

Inductive node : Type :=
| NoEntry
| Denied
| Regular (content : bytes).

Definition FS : Type := list bytes -> node.

(** An open file: its descriptor and its content. *)
Record File : Type := mkFile { fd : nat; data : bytes }.

(** The process's descriptor table: the descriptors that are open, and
    the next one to hand out. *)
Record State : Type := mkState { next_fd : nat; open_fds : list nat }.

Definition initial : State := mkState 3 [].

Definition Open (fs : FS) (path : list bytes) (st : State)
  : result File * State :=
  match fs path with
  | NoEntry => (Err (os_PathError "open" path ENOENT), st)
  | Denied => (Err (os_PathError "open" path EACCES), st)
  | Regular content =>
    (Ok (mkFile (next_fd st) content),
     mkState (S (next_fd st)) (next_fd st :: open_fds st))
  end.

Definition Close (f : File) (st : State) : State :=
  mkState (next_fd st) (filter (fun d => negb (Nat.eqb d (fd f))) (open_fds st)).

(** [Stat]: only the error is of interest to the package. *)
Definition Stat (fs : FS) (path : list bytes) : option error :=
  match fs path with
  | NoEntry => Some (os_PathError "stat" path ENOENT)
  | Denied => Some (os_PathError "stat" path EACCES)
  | Regular _ => None
  end.

Definition IsNotExist (e : option error) : bool :=
  match e with
  | Some (os_PathError _ _ ENOENT) => true
  | Some (os_PathError _ _ ErrNotExist) => true
  | _ => false
  end.

End os.

(** ** compress/zlib

    [NewReader] checks the two-byte zlib header (and the dictionary id
    that may follow it) at once; the DEFLATE decoding of the rest, with
    its checksum, is the parameter [inflate], which yields the reader of
    the decompressed bytes: its [final] is [io_EOF] for a sound stream
    and the decoding error otherwise. *)

Module zlib.

Definition zlibDeflate : Z := 8.
Definition zlibMaxWindow : Z := 7.

Definition NewReader (inflate : bytes -> io.Reader) (raw : bytes)
  : result io.Reader :=
  match raw with
  | cmf :: flg :: rest =>
    let c := byte_val cmf in
    let f := byte_val flg in
    if negb (Z.land c 15 =? zlibDeflate) || (zlibMaxWindow <? Z.shiftr c 4)
       || negb ((c * 256 + f) mod 31 =? 0)
    then Err zlib_ErrHeader
    else if negb (Z.land f 32 =? 0) then
      match rest with
      | d0 :: d1 :: d2 :: d3 :: rest' =>
        if ((byte_val d0 * 256 + byte_val d1) * 256 + byte_val d2) * 256
           + byte_val d3 =? 1
        then Ok (inflate rest') else Err zlib_ErrDictionary
      | _ => Err io_ErrUnexpectedEOF
      end
    else Ok (inflate rest)
  | _ => Err io_ErrUnexpectedEOF
  end.

End zlib.

(** ** The package [git] *)

Module git.

(** A call that works on the descriptor table. *)
Definition M (A : Type) : Type := os.State -> Outcome A * os.State.

Definition ret {A} (a : A) : M A := fun st => (Returns a, st).

(** [defer f.Close()]: the file is closed when the body is left, by a
    return or by a panic. *)
Definition defer_Close {A} (f : os.File) (body : M A) : M A :=
  fun st => let '(o, st') := body st in (o, os.Close f st').

Record Repository : Type := mkRepository { Root : bytes }.

Record Commit : Type := mkCommit {
  Commit_Repository : Repository;
  tree : bytes;
  Commit_id : bytes
}.

(** An entry also points back to the tree it belongs to, the very tree
    that holds it in [Entries]; the pointer is not represented. *)
Record Entry : Type := mkEntry {
  Name : bytes;
  Mode : Z;
  Entry_id : bytes
}.

Record Tree : Type := mkTree {
  Tree_Commit : Commit;
  Tree_id : bytes;
  Entries : list Entry
}.

Record header : Type := mkHeader { kind : bytes; length_ : Z }.

(** The [struct { io.Reader; io.Closer }] that [readObject] returns. *)
Record ReadCloser : Type := mkReadCloser {
  Reader : io.Reader;
  Closer : os.File
}.

Record Blob : Type := mkBlob { Size : Z; Blob_ReadCloser : ReadCloser }.

Definition Tree_Root (t : Tree) : bytes := Root (Commit_Repository (Tree_Commit t)).

Definition scanTreeEntry : bufio.SplitFunc := fun data atEOF =>
  if atEOF && (len data =? 0) then (0, None, None)
  else
    let recordLength := strings.IndexByte data x00 + 21 in
    if recordLength <=? len data
    then (recordLength, Some (firstn (Z.to_nat recordLength) data), None)
    else if atEOF
    then (0, None, Some (errors_Errorf "malformed record %q" data))
    else (0, None, None).

(** What one turn of [parseTree]'s loop does with the token at hand: the
    tree with one more entry, or the error the function returns. *)
Definition parseTree_body (fs : os.FS) (t : Tree) (buf : bytes)
  : Outcome (Tree + error) :=
  bindO (slice buf 0 (len buf - 21)) (fun buf' =>
  bindO (slice buf (len buf - 20) (len buf)) (fun sha =>
  match fmt.Fscanf_d_s io_EOF buf' with
  | inl e => Returns (inr (errors_Wrap e "could not read tree entry"))
  | inr (mode, name) =>
    bindO (slice sha 0 2) (fun sha_head =>
    bindO (slice sha 2 (len sha)) (fun sha_tail =>
    let path :=
      filepath.Join [Tree_Root t; lit ".git"; lit "objects"; sha_head; sha_tail] in
    (* the body of this [if] is a comment: [// continue] *)
    let skip := if os.IsNotExist (os.Stat fs path) then false else false in
    if skip : bool then Returns (inl t)
    else
      Returns (inl (mkTree (Tree_Commit t) (Tree_id t)
                           (Entries t ++ [mkEntry name mode (fmt.Sprintf_x sha)])))))
  end)).

Fixpoint parseTree_loop (fuel : nat) (fs : os.FS) (sc : bufio.Scanner) (t : Tree)
  : Outcome (option Tree * option error) :=
  match fuel with
  | O => OutOfFuel
  | S k =>
    match bufio.Scan fuel sc with
    | Returns (true, sc') =>
      match parseTree_body fs t (bufio.Bytes sc') with
      | Returns (inl t') => parseTree_loop k fs sc' t'
      | Returns (inr e) => Returns (None, Some e)
      | Panics p => Panics p
      | OutOfFuel => OutOfFuel
      end
    | Returns (false, sc') => Returns (Some t, bufio.Err sc')
    | Panics p => Panics p
    | OutOfFuel => OutOfFuel
    end
  end.

(** [parseTree] parses a tree object from the supplied reader. *)
Definition parseTree (fs : os.FS) (t : Tree) (r : io.Reader)
  : Outcome (option Tree * option error) :=
  let sc := bufio.Split (bufio.NewScanner r) scanTreeEntry in
  parseTree_loop (bufio.budget r) fs sc t.

(** One turn of [parseCommit]'s loop on the line [s]. *)
Definition parseCommit_body (c : Commit) (s : bytes) : Outcome Commit :=
  let i := strings.IndexByte s " "%byte in
  if i <? 0 then Returns c
  else
    bindO (slice s 0 i) (fun field =>
    if bytes_eqb field (lit "tree") then
      bindO (slice s (len (lit "tree ")) (len s)) (fun value =>
      Returns (mkCommit (Commit_Repository c) (strings.TrimSpace value) (Commit_id c)))
    else Returns c).

Fixpoint parseCommit_loop (fuel : nat) (sc : bufio.Scanner) (c : Commit)
  : Outcome (option Commit * option error) :=
  match fuel with
  | O => OutOfFuel
  | S k =>
    match bufio.Scan fuel sc with
    | Returns (true, sc') =>
      match parseCommit_body c (bufio.Bytes sc') with
      | Returns c' => parseCommit_loop k sc' c'
      | Panics p => Panics p
      | OutOfFuel => OutOfFuel
      end
    | Returns (false, sc') => Returns (Some c, bufio.Err sc')
    | Panics p => Panics p
    | OutOfFuel => OutOfFuel
    end
  end.

(** [parseCommit] parses a commit object from the supplied reader. *)
Definition parseCommit (c : Commit) (r : io.Reader)
  : Outcome (option Commit * option error) :=
  parseCommit_loop (bufio.budget r) (bufio.NewScanner r) c.

Section Package.

(** The DEFLATE decoder behind [zlib.NewReader], and the file system. *)
Variable inflate : bytes -> io.Reader.
Variable fs : os.FS.

Definition no_header : header := mkHeader [] 0.

(** [readObject] returns a header and an [io.ReadCloser] for a git
    object. *)
Definition readObject (r : Repository) (sha : bytes)
  : M (header * option ReadCloser * option error) := fun st =>
  match slice sha 0 2 with
  | Panics p => (Panics p, st)
  | OutOfFuel => (OutOfFuel, st)
  | Returns sha_head =>
  match slice sha 2 (len sha) with
  | Panics p => (Panics p, st)
  | OutOfFuel => (OutOfFuel, st)
  | Returns sha_tail =>
    let path :=
      filepath.Join [Root r; lit ".git"; lit "objects"; sha_head; sha_tail] in
    match os.Open fs path st with
    | (inl e, st) => (Returns (no_header, None, Some (errors_WithStack e)), st)
    | (inr f, st) =>
      match zlib.NewReader inflate (os.data f) with
      | inl e => (Returns (no_header, None, Some (errors_WithStack e)), st)
      | inr fr =>
        match fmt.Fscanf_s_d_nul (io.final fr) (io.contents fr) with
        | inl e =>
          (Returns (no_header, None, Some (errors_Wrap e "cannot parse header")), st)
        | inr (kind, length, rest) =>
          let read := (List.length (io.contents fr) - List.length rest)%nat in
          (Returns (mkHeader kind length,
                    Some (mkReadCloser (io.skip read fr) f), None), st)
        end
      end
    end
  end end.

(** [readBlob] returns a git blob object. *)
Definition readBlob (t : Tree) (sha : bytes) : M (option Blob * option error) :=
  fun st =>
  match readObject (Commit_Repository (Tree_Commit t)) sha st with
  | (Returns (h, Some rc, None), st) =>
    if negb (bytes_eqb (kind h) (lit "blob"))
    then (Returns (None, Some (errors_Errorf "expected blob, got %q" (kind h))), st)
    else (Returns (Some (mkBlob (length_ h) rc), None), st)
  | (Returns (_, _, e), st) => (Returns (None, e), st)
  | (Panics p, st) => (Panics p, st)
  | (OutOfFuel, st) => (OutOfFuel, st)
  end.

(** [readTree] reads a tree object. *)
Definition readTree (c : Commit) (sha : bytes) : M (option Tree * option error) :=
  fun st =>
  match readObject (Commit_Repository c) sha st with
  | (Returns (h, Some rc, None), st) =>
    defer_Close (Closer rc) (fun st =>
      if negb (bytes_eqb (kind h) (lit "tree"))
      then (Returns (None, Some (errors_Errorf "expected tree, got %q" (kind h))), st)
      else (parseTree fs (mkTree c sha []) (Reader rc), st)) st
  | (Returns (_, _, e), st) => (Returns (None, e), st)
  | (Panics p, st) => (Panics p, st)
  | (OutOfFuel, st) => (OutOfFuel, st)
  end.

(** [readCommit] reads a commit object. *)
Definition readCommit (r : Repository) (sha : bytes)
  : M (option Commit * option error) := fun st =>
  match readObject r sha st with
  | (Returns (h, Some rc, None), st) =>
    defer_Close (Closer rc) (fun st =>
      if negb (bytes_eqb (kind h) (lit "commit"))
      then (Returns (None, Some (errors_Errorf "expected commit, got %q" (kind h))), st)
      else (parseCommit (mkCommit r [] sha) (Reader rc), st)) st
  | (Returns (_, _, e), st) => (Returns (None, e), st)
  | (Panics p, st) => (Panics p, st)
  | (OutOfFuel, st) => (OutOfFuel, st)
  end.

(** The loop of [Tree.Blob] over the entries not yet visited. *)
Fixpoint Blob_range (t : Tree) (name : bytes) (es : list Entry)
  : M (option Blob * option error) :=
  match es with
  | [] => ret (None, Some (os_PathError "open" [name] ErrNotExist))
  | e :: es' =>
    if bytes_eqb name (Name e) then readBlob t (Entry_id e)
    else Blob_range t name es'
  end.

(** [Tree.Blob] returns a git blob object that is a child of the tree. *)
Definition Tree_Blob (t : Tree) (name : bytes) : M (option Blob * option error) :=
  Blob_range t name (Entries t).

(** The loop of [Tree.Tree]. *)
Fixpoint Tree_range (t : Tree) (name : bytes) (es : list Entry)
  : M (option Tree * option error) :=
  match es with
  | [] => ret (None, Some (os_PathError "open" [name] ErrNotExist))
  | e :: es' =>
    if bytes_eqb name (Name e) then readTree (Tree_Commit t) (Entry_id e)
    else Tree_range t name es'
  end.

(** [Tree.Tree] returns a git tree object that is a child of the tree. *)
Definition Tree_Tree (t : Tree) (name : bytes) : M (option Tree * option error) :=
  Tree_range t name (Entries t).

(** [Commit.Tree] returns the Tree object for this commit. *)
Definition Commit_Tree (c : Commit) : M (option Tree * option error) :=
  readTree c (tree c).

(** [Repository.Commit] returns a Commit matching the supplied id. *)
Definition Repository_Commit (r : Repository) (sha : bytes)
  : M (option Commit * option error) :=
  readCommit r sha.

End Package.

End git.

(** ** path *)

Module path.

(** [strings.LastIndex s sep] for a separator of one byte: the index of
    the last [c] in [s], or [-1]. *)
Fixpoint LastIndexByte (s : bytes) (c : byte) : Z :=
  match s with
  | [] => -1
  | x :: s' =>
    let i := LastIndexByte s' c in
    if 0 <=? i then i + 1 else if Byte.eqb x c then 0 else -1
  end.

(** [Split] splits a path right after its last slash. *)
Definition Split (p : bytes) : bytes * bytes :=
  let i := LastIndexByte p "/"%byte in
  (firstn (Z.to_nat (i + 1)) p, skipn (Z.to_nat (i + 1)) p).

End path.

(** * The package [main]: the tree as a WebDAV file system

    The last of the versions of [main.go]: [dir] serves the tree of one
    commit.  A [webdav.File] is a [*tree] or a [*blob]; the arguments
    that the methods ignore ([flag], [perm], the count of [Readdir]) are
    kept as arguments. *)

Module main.

Import git.

Definition ModeDir : Z := 2 ^ 31.

Record fileinfo : Type := mkFileinfo { name : bytes; size : Z; mode : Z }.

(** [fileinfo.IsDir]: [fi.Mode().IsDir()], that is [m&ModeDir != 0]. *)
Definition IsDir (fi : fileinfo) : bool := negb (Z.land (mode fi) ModeDir =? 0).

(** [dir.root] is the tree [main] got from [commit.Tree()]; it is not
    nil. *)
Record dir : Type := mkDir { root : Tree }.

(** The pointers of [tree] and [blob] are what the package [git]
    returned beside a nil error. *)
Record tree : Type := mk_tree { tree_name : bytes; tree_tree : option Tree }.

Record blob : Type := mk_blob { blob_name : bytes; blob_Blob : option Blob }.

Inductive File : Type :=
| File_tree (t : tree)
| File_blob (b : blob).

Section Serve.

Variable inflate : bytes -> io.Reader.
Variable fs : os.FS.

(** The end of [OpenFile]: [if err != nil { return nil, err }] and then
    the tree under the name [f]. *)
Definition open_tree (f : bytes)
    (res : Outcome (option Tree * option error) * os.State)
  : Outcome (option File * option error) * os.State :=
  match res with
  | (Returns (_, Some err), st) => (Returns (None, Some err), st)
  | (Returns (t, None), st) => (Returns (Some (File_tree (mk_tree f t)), None), st)
  | (Panics p, st) => (Panics p, st)
  | (OutOfFuel, st) => (OutOfFuel, st)
  end.

Definition OpenFile (d : dir) (name : bytes) (flag perm : Z)
  : M (option File * option error) := fun st =>
  let '(dir_, f) := path.Split name in
  if bytes_eqb dir_ (lit "/") && bytes_eqb f [] then
    (Returns (Some (File_tree (mk_tree dir_ (Some (root d)))), None), st)
  else if bytes_eqb dir_ (lit "/") then
    (* local file *)
    match Tree_Blob inflate fs (root d) f st with
    | (Returns (b, None), st) =>
      (Returns (Some (File_blob (mk_blob f b)), None), st)
    | (Returns (_, Some _), st) => open_tree f (Tree_Tree inflate fs (root d) f st)
    | (Panics p, st) => (Panics p, st)
    | (OutOfFuel, st) => (OutOfFuel, st)
    end
  else open_tree f (Tree_Tree inflate fs (root d) dir_ st).

(** [dir.Stat] *)
Definition dir_Stat (d : dir) (name_ : bytes) : fileinfo :=
  mkFileinfo name_ 0 (Z.lor ModeDir 420).

(** [b.Size] where [b] came with a nil error: [Tree.Blob] returns a blob
    or an error, never neither, so the pointer is not nil there. *)
Definition Size_of (b : option Blob) : Z :=
  match b with Some b => Size b | None => 0 end.

(** The loop of [tree.Readdir] over the entries not yet visited, for a
    receiver whose tree is [t]. *)
Fixpoint Readdir_range (t : Tree) (es : list Entry) (entries : list fileinfo)
  : M (list fileinfo * option error) :=
  match es with
  | [] => ret (entries, None)
  | e :: es' => fun st =>
    match Tree_Blob inflate fs t (Name e) st with
    | (Returns (b, err), st) =>
      let fi :=
        match err with
        | Some _ => mkFileinfo (Name e) 0 (Mode e)
        | None => mkFileinfo (Name e) (Size_of b) (Mode e)
        end in
      Readdir_range t es' (entries ++ [fi]) st
    | (Panics p, st) => (Panics p, st)
    | (OutOfFuel, st) => (OutOfFuel, st)
    end
  end.

(** [tree.Readdir] *)
Definition Readdir (t : Tree) (n : Z) : M (list fileinfo * option error) :=
  Readdir_range t (Entries t) [].

(** [blob.Stat] *)
Definition blob_Stat (name_ : bytes) (b : Blob) : fileinfo :=
  mkFileinfo name_ (Size b) 420.

End Serve.

End main.

(** ** path/filepath on Unix, on path names as strings

    [Clean] writes into a buffer [out] while it reads the path; the
    buffer is the list of the bytes written ([out.w] is its length), and
    [rest] is the part of the path not yet read ([path[r:]]). *)

Module filepath_unix.

Definition Separator : byte := "/"%byte.

Definition IsPathSeparator (c : byte) : bool := Byte.eqb c Separator.

(** [r == n || os.IsPathSeparator(path[r])] *)
Definition at_end_or_separator (rest : bytes) : bool :=
  match rest with
  | [] => true
  | c :: _ => IsPathSeparator c
  end.

(** [for out.w > dotdot && !os.IsPathSeparator(out.index(out.w)) { out.w-- }] *)
Fixpoint back_loop (fuel : nat) (out : bytes) (dotdot w : nat) : nat :=
  match fuel with
  | O => w
  | S k =>
    if (dotdot <? w)%nat && negb (IsPathSeparator (nth w out x00))
    then back_loop k out dotdot (w - 1)
    else w
  end.

(** The [..] element when it can backtrack: [out.w--] and the loop. *)
Definition backtrack (out : bytes) (dotdot : nat) : bytes :=
  firstn (back_loop (length out) out dotdot (length out - 1)) out.

(** [for ; r < n && !os.IsPathSeparator(path[r]); r++ { out.append(path[r]) }]:
    the bytes appended and the path left. *)
Fixpoint element (rest : bytes) : bytes * bytes :=
  match rest with
  | [] => ([], [])
  | c :: rest' =>
    if IsPathSeparator c then ([], rest)
    else let '(el, more) := element rest' in (c :: el, more)
  end.

Definition is_dot (c : byte) : bool := Byte.eqb c "."%byte.

(** The loop [for r < n] of [Clean]. *)
Fixpoint Clean_loop (fuel : nat) (rooted : bool) (out : bytes) (dotdot : nat)
    (rest : bytes) : bytes :=
  match fuel with
  | O => out
  | S k =>
    match rest with
    | [] => out
    | c :: rest1 =>
      if IsPathSeparator c then
        (* empty path element *)
        Clean_loop k rooted out dotdot rest1
      else if is_dot c && at_end_or_separator rest1 then
        (* . element *)
        Clean_loop k rooted out dotdot rest1
      else if is_dot c
              && match rest1 with
                 | d :: rest2 => is_dot d && at_end_or_separator rest2
                 | [] => false
                 end
      then
        (* .. element: remove to last separator *)
        let rest2 := tl rest1 in
        if (dotdot <? length out)%nat then
          Clean_loop k rooted (backtrack out dotdot) dotdot rest2
        else if negb rooted then
          let out := if (0 <? length out)%nat then out ++ [Separator] else out in
          let out := out ++ ["."%byte; "."%byte] in
          Clean_loop k rooted out (length out) rest2
        else Clean_loop k rooted out dotdot rest2
      else
        (* real path element: add slash if needed, copy element *)
        let out :=
          if (rooted && negb (length out =? 1)%nat)
             || (negb rooted && negb (length out =? 0)%nat)
          then out ++ [Separator] else out in
        let '(el, more) := element rest in
        Clean_loop k rooted (out ++ el) dotdot more
    end
  end.

(** [Clean] returns the shortest path name equivalent to [path] by purely
    lexical processing. *)
Definition Clean (path : bytes) : bytes :=
  match path with
  | [] => lit "."
  | c :: path1 =>
    let rooted := IsPathSeparator c in
    let out :=
      if rooted then Clean_loop (S (length path)) true [Separator] 1 path1
      else Clean_loop (S (length path)) false [] 0 path in
    match out with
    | [] => lit "."
    | _ => out
    end
  end.

(** [Dir] returns all but the last element of [path]: the path up to its
    last separator, cleaned. *)
Definition Dir (path : bytes) : bytes :=
  let i := path.LastIndexByte path Separator in
  Clean (firstn (Z.to_nat (i + 1)) path).

Definition IsAbs (path : bytes) : bool :=
  match path with
  | c :: _ => Byte.eqb c "/"%byte
  | [] => false
  end.

(** [strings.Join elem "/"] *)
Fixpoint strings_Join (elem : list bytes) : bytes :=
  match elem with
  | [] => []
  | [e] => e
  | e :: rest => e ++ Separator :: strings_Join rest
  end.

(** [Join] joins the elements from the first that is not empty on, and
    cleans the result. *)
Fixpoint Join (elem : list bytes) : bytes :=
  match elem with
  | [] => []
  | e :: rest =>
    match e with
    | [] => Join rest
    | _ => Clean (strings_Join elem)
    end
  end.

(** [Abs]; [Getwd] is what [os.Getwd] returns. *)
Definition Abs (Getwd : result bytes) (path : bytes) : result bytes :=
  if IsAbs path then Ok (Clean path)
  else bindR Getwd (fun wd => Ok (Join [wd; path])).

End filepath_unix.

(** ** os.Stat, with what it tells about the file *)

Module os_stat.

Record FileInfo : Type := mkFileInfo { IsDir : bool }.

(** What a path name leads to: an error, or a file of some kind. *)
Definition FS : Type := bytes -> Errno + FileInfo.

Definition Stat (fs : FS) (name : bytes) : result FileInfo :=
  match fs name with
  | inl errno => Err (os_PathError "stat" [name] errno)
  | inr fi => Ok fi
  end.

End os_stat.

(** * The package [git]: [Open] *)

Module git_Open.

Import git.

(** The errors of [Open]: those of the package so far, and the one made
    by [errors.Wrapf]. *)
Inductive failure : Type :=
| errors_Wrapf (cause : error) (format : string) (arg : bytes)
| failed (e : error).

Section Open.

(** What [os.Getwd] returns, and the file system as [os.Stat] sees it;
    neither changes while [Open] runs. *)
Variable Getwd : result bytes.
Variable fs : os_stat.FS.

(** The loop [for path != string(filepath.Separator)]: [Some] is what a
    [return] in its body returns, [None] is the loop left at its
    condition. *)
Fixpoint Open_loop (fuel : nat) (path : bytes)
  : Outcome (option (Repository + error)) :=
  match fuel with
  | O => OutOfFuel
  | S k =>
    if bytes_eqb path [filepath_unix.Separator] then Returns None
    else
      let gitdir := filepath_unix.Join [path; lit ".git"] in
      match os_stat.Stat fs gitdir with
      | inl err =>
        if negb (os.IsNotExist (Some err))
        then Returns (Some (inr (errors_WithStack err)))
        else Open_loop k (filepath_unix.Dir path)
      | inr fi =>
        if os_stat.IsDir fi then Returns (Some (inl (mkRepository path)))
        else Open_loop k (filepath_unix.Dir path)
      end
  end.

(** [Open] returns a Repository representing the git repository that
    contains [p].  The budget of the loop is the length of the absolute
    path: every turn shortens it. *)
Definition Open (p : bytes) : Outcome (option Repository * option failure) :=
  match filepath_unix.Abs Getwd p with
  | inl err =>
    Returns (None,
             Some (errors_Wrapf err "could not convert path %q to an absolute path" p))
  | inr path =>
    match Open_loop (S (length path)) path with
    | Returns (Some (inl r)) => Returns (Some r, None)
    | Returns (Some (inr e)) => Returns (None, Some (failed e))
    | Returns None =>
      (* path, _ = filepath.Abs(p) *)
      let path :=
        match filepath_unix.Abs Getwd p with inr q => q | inl _ => [] end in
      Returns (None,
               Some (failed (errors_Errorf
                               "could not locate git repository for path %q" path)))
    | Panics pn => Panics pn
    | OutOfFuel => OutOfFuel
    end
  end.

End Open.

End git_Open.

(** * Vocabulary of the properties *)

Import git.

(** ** The scanner's buffer and its measures *)

(** The bytes a reader has still to deliver. *)
Definition Rbytes (rd : io.Reader) : nat := length (io.contents rd).

(** The buffer discipline of [bufio.Scanner]: [0 <= start] and
    [end <= len(buf)]. *)
Definition Inv (s : bufio.Scanner) : Prop :=
  0 <= bufio.start s /\ bufio.s_end s <= bufio.buf_len s.

(** The bytes not yet turned into tokens. *)
Definition total (s : bufio.Scanner) : nat :=
  (length (bufio.pending s) + Rbytes (bufio.r s))%nat.

(** A split function that yields no token without advancing and never
    asks for the scan to stop with a final token. *)
Definition well_behaved (f : bufio.SplitFunc) : Prop :=
  forall data atEOF adv tok e, f data atEOF = (adv, tok, e) ->
    match e with
    | Some e => bufio.is_FinalToken e = false
    | None => tok <> None -> 0 < adv
    end.

(** The passes one call of [Scan] can still take. *)
Definition need (s : bufio.Scanner) : nat :=
  match bufio.err s with
  | Some _ => 1%nat
  | None => (Rbytes (bufio.r s) + 2)%nat
  end.

(** Every read of the reader delivers at least one byte. *)
Definition nonempty_chunks (rd : io.Reader) : Prop :=
  Forall (fun c : bytes => c <> []) (io.chunks rd).

(** The bytes still to be cut into tokens. *)
Definition rem (s : bufio.Scanner) : bytes :=
  bufio.pending s ++ io.contents (bufio.r s).

(** ** Lines and commits *)

(** The effect of one line on the commit being built, in the words of
    the specification: a line [tree <value>] sets the tree id, any other
    line is read and dropped. *)
Definition commit_line (c : Commit) (s : bytes) : Commit :=
  match s with
  | "t"%byte :: "r"%byte :: "e"%byte :: "e"%byte :: " "%byte :: value =>
    mkCommit (Commit_Repository c) (strings.TrimSpace value) (Commit_id c)
  | _ => c
  end.

(** The lines of a text as [bufio.ScanLines] cuts them: each ends at a
    newline, a carriage return before it is dropped, and a last line
    without a newline counts when it is not empty. *)
Fixpoint split_lines (cur data : bytes) : list bytes :=
  match data with
  | [] => match cur with [] => [] | _ => [bufio.dropCR cur] end
  | b :: data' =>
    if Byte.eqb b x0a then bufio.dropCR cur :: split_lines [] data'
    else split_lines (cur ++ [b]) data'
  end.

(** The lines of a whole text. *)
Definition lines (data : bytes) : list bytes := split_lines [] data.

(** No stretch of [data] without a newline is [limit] bytes long. *)
Definition short_lines (limit : Z) (data : bytes) : Prop :=
  forall pre mid post, data = pre ++ mid ++ post -> ~ In x0a mid -> len mid < limit.

(** The scanner over a sound stream cut into lines: the reader ends in
    [io_EOF] and every read delivers something. *)
Definition lines_state (s : bufio.Scanner) : Prop :=
  Inv s /\ bufio.split s = bufio.ScanLines /\ bufio.done s = false /\
  bufio.maxTokenSize s = bufio.MaxScanTokenSize /\
  io.final (bufio.r s) = io_EOF /\ nonempty_chunks (bufio.r s) /\
  (bufio.err s = None \/ (bufio.err s = Some io_EOF /\ io.chunks (bufio.r s) = [])).

(** A line that sets the tree id. *)
Definition is_tree_line (l : bytes) : Prop := exists v, l = lit "tree " ++ v.

(** ** Printable text *)

(** A printable ASCII byte other than the space. *)
Definition graphic (b : byte) : Prop := 33 <= byte_val b <= 126.

(** A decimal digit. *)
Definition is_digit (b : byte) : Prop := 48 <= byte_val b <= 57.

(** ** Loose objects *)

(** The path of the loose object [sha] under the repository root. *)
Definition object_path (root sha : bytes) : list bytes :=
  filepath.Join [root; lit ".git"; lit "objects"; firstn 2 sha; skipn 2 sha].


(** The three kinds of object the package reads. *)
Definition known_kind (k : bytes) : Prop :=
  k = lit "blob" \/ k = lit "tree" \/ k = lit "commit".

(** ** Tree records *)

(** A record of the tree format: decimal mode, space, name, null byte and
    the 20 raw bytes of the id. *)
Definition record (mode name id : bytes) : bytes :=
  mode ++ " "%byte :: name ++ x00 :: id.

(** The number a run of decimal digits stands for. *)
Definition mode_value (mode : bytes) : Z :=
  match strconv.digits_value 0 mode with Some v => v | None => 0 end.

(** A record as the code can read it back: the mode is a decimal number
    that fits 32 bits, the name is printable and without a space. *)
Definition plain_record (mode name id : bytes) : Prop :=
  mode <> [] /\ Forall is_digit mode /\ mode_value mode < 2 ^ 32 /\
  name <> [] /\ Forall graphic name /\ length id = 20%nat.

(** The text of an entry: mode, name and the 20 raw bytes of the id. *)
Definition RawEntry : Type := (bytes * bytes * bytes)%type.

(** The record of an entry. *)
Definition encode (e : RawEntry) : bytes :=
  let '(mode, name, id) := e in record mode name id.

(** The entry [parseTree] is to make of a record. *)
Definition entry_of (e : RawEntry) : Entry :=
  let '(mode, name, id) := e in mkEntry name (mode_value mode) (fmt.Sprintf_x id).

(** A plain record whose text before the null byte is shorter than the
    20 bytes of an id. *)
Definition short_plain (e : RawEntry) : Prop :=
  let '(mode, name, id) := e in
  plain_record mode name id /\ len (mode ++ " "%byte :: name) < 20.

(** The body of a tree object: its records one after the other. *)
Definition body (es : list RawEntry) : bytes := concat (map encode es).

(** The tree with entries appended, as [parseTree]'s loop builds it. *)
Definition add_entries (t : Tree) (es : list Entry) : Tree :=
  mkTree (Tree_Commit t) (Tree_id t) (Entries t ++ es).

(** The scanner of [parseTree] over a sound stream: the reader ends in
    [io_EOF] and every read delivers something. *)
Definition tree_state (s : bufio.Scanner) : Prop :=
  Inv s /\ bufio.split s = scanTreeEntry /\ bufio.done s = false /\
  bufio.maxTokenSize s = bufio.MaxScanTokenSize /\
  io.final (bufio.r s) = io_EOF /\ nonempty_chunks (bufio.r s) /\
  (bufio.err s = None \/ (bufio.err s = Some io_EOF /\ io.chunks (bufio.r s) = [])).

(** ** Entries, descriptors and objects *)

(** A lowercase hexadecimal digit. *)
Definition lower_hex (b : byte) : Prop := In b fmt.ldigits.

(** An entry as [parseTree] can produce it: a mode of 32 bits, an id of
    40 hexadecimal digits, a name that is one word. *)
Definition parsed_entry (e : Entry) : Prop :=
  0 <= Mode e < 2 ^ 32
  /\ length (Entry_id e) = 40%nat /\ Forall lower_hex (Entry_id e)
  /\ Name e <> [] /\ Forall (fun b => strings.asciiSpace b = false) (Name e).

(** The input starts with a rune that is no space. *)
Definition at_word (fin : error) (inp : bytes) : Prop :=
  exists r rest, fmt.getRune fin inp = Ok (r, rest) /\ r <> fmt.eof
    /\ fmt.isSpace r = false.

(** Every open descriptor was handed out before. *)
Definition fresh (st : os.State) : Prop :=
  Forall (fun d => (d < os.next_fd st)%nat) (os.open_fds st).

(** The repository holds the loose object [sha]: its file opens, its
    zlib header is sound, and the decoder delivers, in reads that are not
    empty and up to [io_EOF], the header [<kind> <n>\0] and then [text]. *)
Definition loose_object (inflate : bytes -> io.Reader) (fs : os.FS)
    (root sha kind : bytes) (n : Z) (text : bytes) : Prop :=
  exists raw fr,
    fs (object_path root sha) = os.Regular raw
    /\ zlib.NewReader inflate raw = Ok fr
    /\ io.final fr = io_EOF /\ nonempty_chunks fr
    /\ io.contents fr = kind ++ " "%byte :: strconv.Itoa n ++ x00 :: text.

(** The object file of [sha] is there to be opened. *)
Definition opens (fs : os.FS) (root sha : bytes) : bool :=
  match fs (object_path root sha) with os.Regular _ => true | _ => false end.

(** The descriptor table after a file was opened and not closed. *)
Definition opened (st : os.State) : os.State :=
  os.mkState (S (os.next_fd st)) (os.next_fd st :: os.open_fds st).

(** The entry that a lookup of [name] in [t] finds holds an object file
    that is there. *)
Definition held (fs : os.FS) (t : Tree) (name : bytes) : bool :=
  match find (fun e => bytes_eqb name (Name e)) (Entries t) with
  | Some e => opens fs (Tree_Root t) (Entry_id e)
  | None => false
  end.

(** A path element that [Clean] keeps. *)
Definition plain (c : bytes) : Prop :=
  c <> [] /\ ~ In "/"%byte c /\ c <> lit "." /\ c <> lit "..".

(** The elements, each after a slash. *)
Definition segs (cs : list bytes) : bytes :=
  concat (map (fun c => "/"%byte :: c) cs).

(** The rooted path name of the elements [cs]: [/] when there is none. *)
Definition render (cs : list bytes) : bytes :=
  match cs with
  | [] => lit "/"
  | _ => segs cs
  end.

(** The stat of [.git] under [path] fails with a not-exist error, or
    finds something that is no directory: [Open] goes on to the parent. *)
Definition passed_by (fs : os_stat.FS) (path : bytes) : Prop :=
  match os_stat.Stat fs (filepath_unix.Join [path; lit ".git"]) with
  | inl err => os.IsNotExist (Some err) = true
  | inr fi => os_stat.IsDir fi = false
  end.

(** ** A body in the buffer *)



(** ** A small repository for the examples *)

(** A stand-in for the DEFLATE decoder in the examples: the payload is
    the plain text, delivered in one read. *)
Definition stored (payload : bytes) : io.Reader := io.mkReader [payload] io_EOF.

(** The two header bytes of a zlib stream at the default level. *)
Definition zlib_header : bytes := [x78; x9c].

(** Equality of paths, element by element. *)
Fixpoint path_eqb (p q : list bytes) : bool :=
  match p, q with
  | [], [] => true
  | a :: p', b :: q' => bytes_eqb a b && path_eqb p' q'
  | _, _ => false
  end.

(** A file system that holds the listed files and nothing else. *)
Fixpoint files (l : list (list bytes * bytes)) : os.FS :=
  fun p =>
    match l with
    | [] => os.NoEntry
    | (q, content) :: l' => if path_eqb p q then os.Regular content else files l' p
    end.

(** The repository at [/r], two ids, a commit and its empty tree. *)
Definition repo : Repository := mkRepository (lit "/r").

(** The file of the loose object [sha] with plain text [text]. *)
Definition loose (sha : bytes) (text : bytes) : list bytes * bytes :=
  (object_path (Root repo) sha, zlib_header ++ text).

Definition id1 : bytes := repeat x01 20.
Definition id2 : bytes := repeat xab 20.

Definition c0 : Commit := mkCommit repo (lit "aa01") (lit "cc01").
Definition t0 : Tree := mkTree c0 (lit "aa01") [].

(** A file system without any file. *)
Definition no_files : os.FS := files [].

(** The tree of the specification's example. *)
Definition two_entries : bytes :=
  lit "100644 a.txt" ++ [x00] ++ id1 ++ lit "40000 sub" ++ [x00] ++ id2.


(** The example tree, parsed where neither child exists on disk. *)
Definition two_entry_tree : Tree :=
  mkTree c0 (lit "aa01")
    [mkEntry (lit "a.txt") 100644 (fmt.Sprintf_x id1);
     mkEntry (lit "sub") 40000 (fmt.Sprintf_x id2)].

(** The blob of the specification's scenario: five bytes, [world]. *)
Definition hello_blob : bytes := lit "blob 5" ++ [x00] ++ lit "world".

(** A tag object, a kind of git object the package does not know. *)
Definition tag_object : bytes := lit "tag 0" ++ [x00].

(** A tree with the name [f] twice: first a blob, then a tag object. *)
Definition twice_f : Tree :=
  mkTree c0 (lit "aa01")
    [mkEntry (lit "e") 100644 (lit "ee01");
     mkEntry (lit "f") 100644 (lit "bb01");
     mkEntry (lit "f") 100644 (lit "dd01")].

(** The object files of the blob and of the tag. *)
Definition some_files : os.FS :=
  files [loose (lit "bb01") hello_blob; loose (lit "dd01") tag_object].

(** A commit body: header lines, the blank separator, a message. *)
Definition commit_text : bytes :=
  lit "tree aa01" ++ [x0a] ++ lit "parent cc00" ++ [x0a]
  ++ lit "author A U Thor <a@example.org> 1 +0000" ++ [x0a]
  ++ [x0a] ++ lit "Subject" ++ [x0a] ++ [x0a] ++ lit "word" ++ [x0a].

(** A tree object whose only record has no null byte: the parse panics. *)
Definition broken_tree_object : bytes := lit "tree 20" ++ [x00] ++ repeat x61 20.

(** A commit object and the tree object it names. *)
Definition commit_object : bytes := lit "commit 96" ++ [x00] ++ commit_text.
Definition tree_object : bytes := lit "tree 66" ++ [x00] ++ two_entries.
Definition a_repository : os.FS :=
  files [loose (lit "cc01") commit_object; loose (lit "aa01") tree_object].

(** A commit object whose header lines were lost. *)
Definition treeless_commit : bytes :=
  lit "commit 20" ++ [x00] ++ lit "parent cc00" ++ [x0a; x0a] ++ lit "Subject" ++ [x0a].

(** The tree of the example where only the object of [sub] is on disk. *)
Definition sub_on_disk : os.FS := files [loose (fmt.Sprintf_x id2) tree_object].

(** The objects of both entries of the example tree on disk. *)
Definition served : os.FS :=
  files [loose (fmt.Sprintf_x id1) hello_blob; loose (fmt.Sprintf_x id2) tree_object].

(** A home directory with a repository in [src], and a file [.git] in
    its directory [pkg]. *)
Definition home : os_stat.FS := fun name =>
  if bytes_eqb name (lit "/home/u/src/.git") then inr (os_stat.mkFileInfo true)
  else if bytes_eqb name (lit "/home/u/src/pkg/.git") then inr (os_stat.mkFileInfo false)
  else if bytes_eqb name (lit "/home/u/.git") then inl EACCES
  else if bytes_eqb name (lit "/.git") then inr (os_stat.mkFileInfo true)
  else inl ENOENT.


(** * Properties *)

(** ** Bytes, indices and slices *)

Lemma byte_val_range : forall b, 0 <= byte_val b < 256.
Proof. destruct b; vm_compute; split; congruence. Qed.

Lemma byte_of_Z_val : forall b, byte_of_Z (byte_val b) = b.
Proof. destruct b; reflexivity. Qed.

Lemma bytes_eqb_eq : forall a b, bytes_eqb a b = true <-> a = b.
Proof.
  induction a as [|x a IH]; destruct b as [|y b]; simpl; split; intro H;
    try reflexivity; try discriminate.
  - apply andb_prop in H as [H1 H2]. apply Byte.byte_dec_bl in H1.
    apply IH in H2. congruence.
  - inversion H; subst. rewrite (Byte.byte_dec_lb eq_refl). simpl. now apply IH.
Qed.

Lemma len_nonneg : forall s, 0 <= len s.
Proof. intros; unfold len; lia. Qed.

Lemma len_cons : forall b s, len (b :: s) = len s + 1.
Proof. intros; unfold len; simpl length; lia. Qed.

Lemma len_app : forall a b, len (a ++ b) = len a + len b.
Proof. intros; unfold len; rewrite length_app; lia. Qed.

Lemma IndexByte_range : forall b c, -1 <= strings.IndexByte b c < len b.
Proof.
  induction b as [|x b IH]; intros c; simpl.
  - unfold len; simpl; lia.
  - rewrite len_cons. specialize (IH c). pose proof (len_nonneg b).
    destruct (Byte.eqb x c); [lia|].
    destruct (strings.IndexByte b c <? 0) eqn:E; [lia|].
    apply Z.ltb_ge in E. lia.
Qed.

Lemma IndexByte_absent : forall b c,
  strings.IndexByte b c = -1 <-> ~ In c b.
Proof.
  induction b as [|x b IH]; intros c; simpl.
  - tauto.
  - destruct (Byte.eqb x c) eqn:E.
    + apply Byte.byte_dec_bl in E. split; [discriminate|]. intros H; exfalso; auto.
    + apply Byte.eqb_false in E.
      pose proof (IndexByte_range b c).
      destruct (strings.IndexByte b c <? 0) eqn:L.
      * apply Z.ltb_lt in L. assert (strings.IndexByte b c = -1) by lia.
        apply IH in H0. split; [|reflexivity]. intros _ [?|?]; auto.
      * apply Z.ltb_ge in L. split; [lia|]. intros N. exfalso.
        assert (strings.IndexByte b c = -1) by (apply IH; intro; apply N; auto). lia.
Qed.

Lemma IndexByte_found : forall b c i,
  strings.IndexByte b c = i -> 0 <= i ->
  exists pre rest, b = pre ++ c :: rest /\ len pre = i /\ ~ In c pre.
Proof.
  induction b as [|x b IH]; intros c i; simpl.
  - intros; lia.
  - destruct (Byte.eqb x c) eqn:E.
    + apply Byte.byte_dec_bl in E. subst x. intros <- _.
      exists [], b. repeat split; auto.
    + apply Byte.eqb_false in E.
      destruct (strings.IndexByte b c <? 0) eqn:L; [intros; lia|].
      apply Z.ltb_ge in L. intros <- _.
      destruct (IH c _ eq_refl L) as (pre & rest & -> & Hl & Hn).
      exists (x :: pre), rest. repeat split.
      * rewrite len_cons. lia.
      * intros [?|?]; auto.
Qed.

Lemma IndexByte_app : forall pre c rest,
  ~ In c pre -> strings.IndexByte (pre ++ c :: rest) c = len pre.
Proof.
  induction pre as [|x pre IH]; intros c rest Hn; simpl.
  - rewrite (Byte.byte_dec_lb eq_refl). reflexivity.
  - destruct (Byte.eqb x c) eqn:E.
    + apply Byte.byte_dec_bl in E. exfalso. apply Hn. left; auto.
    + rewrite IH by (intro; apply Hn; right; auto).
      rewrite len_cons. pose proof (len_nonneg pre).
      destruct (len pre <? 0) eqn:L; [apply Z.ltb_lt in L; lia|reflexivity].
Qed.


Lemma scanTreeEntry_short_more : forall data,
  len data < strings.IndexByte data x00 + 21 ->
  scanTreeEntry data false = (0, None, None).
Proof.
  intros data Hl. unfold scanTreeEntry. simpl andb. cbv zeta.
  replace (strings.IndexByte data x00 + 21 <=? len data) with false
    by (symmetry; apply Z.leb_gt; lia).
  reflexivity.
Qed.


(** ** The scanner: invariant and progress *)

Lemma Read_spec : forall room rd data e rd',
  (0 < room)%nat ->
  io.Read room rd = (data, e, rd') ->
  io.contents rd = data ++ io.contents rd' /\ io.final rd' = io.final rd /\
  (length data <= room)%nat /\
  (length (io.chunks rd') <= length (io.chunks rd))%nat /\
  match e with
  | Some e => data = [] /\ e = io.final rd /\ io.chunks rd = []
  | None => (length (io.chunks rd') + length (io.contents rd')
             < length (io.chunks rd) + length (io.contents rd))%nat
  end.
Proof.
  intros room [cs fin] data e rd' Hroom. unfold io.Read, io.contents. simpl.
  destruct cs as [|c cs].
  - intros H; inversion H; subst; simpl. repeat split; auto; lia.
  - destruct (length c <=? room)%nat eqn:E.
    + intros H; inversion H; subst; simpl. apply Nat.leb_le in E.
      rewrite length_app. repeat split; auto; lia.
    + intros H; inversion H; subst; simpl. apply Nat.leb_gt in E.
      rewrite app_assoc, firstn_skipn.
      rewrite !length_app, length_firstn, length_skipn. repeat split; auto; lia.
Qed.

Lemma read_loop_spec : forall tries room rd data e rd',
  (0 < room)%nat ->
  bufio.read_loop tries room rd = (data, e, rd') ->
  io.contents rd = data ++ io.contents rd' /\ io.final rd' = io.final rd /\
  (length data <= room)%nat /\
  (length (io.chunks rd') <= length (io.chunks rd))%nat /\
  match e with
  | Some e => data = []
  | None => data <> []
  end.
Proof.
  induction tries as [|tries IH]; intros room rd data e rd' Hroom H;
    cbn [bufio.read_loop] in H;
    destruct (io.Read room rd) as [[d e0] rd0] eqn:R;
    destruct (Read_spec _ _ _ _ _ Hroom R) as (Hc & Hf & Hl & Hn & He);
    destruct e0 as [e0|].
  - inversion H; subst. destruct He as (-> & _). repeat split; auto.
  - destruct d as [|b d]; inversion H; subst; repeat split; auto. discriminate.
  - inversion H; subst. destruct He as (-> & _). repeat split; auto.
  - destruct d as [|b d].
    + apply IH in H; auto. destruct H as (Hc' & Hf' & Hl' & Hn' & He').
      simpl in Hc. rewrite Hc. repeat split; auto; try congruence; lia.
    + inversion H; subst. repeat split; auto. discriminate.
Qed.

Lemma read_more_cases : forall s,
  bufio.err s = None -> Inv s ->
  (exists s', bufio.read_more s = bufio.Yield false s' /\ Inv s' /\
     bufio.err s' = Some bufio_ErrTooLong /\ bufio.pending s' = bufio.pending s /\
     bufio.r s' = bufio.r s /\ bufio.split s' = bufio.split s /\
     bufio.done s' = bufio.done s /\ bufio.maxTokenSize s' = bufio.maxTokenSize s /\
     bufio.maxTokenSize s <= len (bufio.pending s))
  \/
  (exists s' data, bufio.read_more s = bufio.Again s' /\ Inv s' /\
     bufio.pending s' = bufio.pending s ++ data /\
     io.contents (bufio.r s) = data ++ io.contents (bufio.r s') /\
     io.final (bufio.r s') = io.final (bufio.r s) /\
     (length (io.chunks (bufio.r s')) <= length (io.chunks (bufio.r s)))%nat /\
     match bufio.err s' with Some _ => data = [] | None => data <> [] end /\
     bufio.split s' = bufio.split s /\ bufio.done s' = bufio.done s /\
     bufio.maxTokenSize s' = bufio.maxTokenSize s /\
     bufio.token s' = bufio.token s /\
     (exists tries room, (0 < room)%nat /\
        bufio.read_loop tries room (bufio.r s) = (data, bufio.err s', bufio.r s'))).
Proof.
  intros [rd sp mx tk bl st pd er em dn] He [H0 H1].
  unfold bufio.s_end in H1. simpl in *. subst er.
  unfold bufio.read_more. cbn [bufio.err bufio.isSome].
  set (s1 := if (0 <? _) && _ then _ else _).
  assert (Hs1 : exists st1, s1 = bufio.mkScanner rd sp mx tk bl st1 pd None em dn /\
            0 <= st1 /\ st1 + len pd <= bl /\ (st1 + len pd = bl -> st1 = 0)).
  { subst s1. unfold bufio.s_end, bufio.with_buf. simpl.
    destruct (0 <? st) eqn:E1; simpl.
    - apply Z.ltb_lt in E1.
      destruct ((st + len pd =? bl) || (bl / 2 <? st)) eqn:E2.
      + exists 0. repeat split; auto; try lia.
      + exists st. apply orb_false_elim in E2 as [E2 _]. apply Z.eqb_neq in E2.
        repeat split; auto; try lia.
    - apply Z.ltb_ge in E1. exists st. repeat split; auto; try lia. }
  destruct Hs1 as (st1 & -> & Hst1 & Hend1 & Hz).
  unfold bufio.s_end. cbn [bufio.start bufio.pending bufio.buf_len bufio.maxTokenSize].
  destruct (st1 + len pd =? bl) eqn:E3.
  - apply Z.eqb_eq in E3. specialize (Hz E3). subst st1.
    destruct (mx <=? bl) eqn:E4; cbn [andb].
    + left. eexists. split; [reflexivity|]. unfold bufio.setErr, bufio.with_err. simpl.
      apply Z.leb_le in E4. unfold Inv, bufio.s_end. simpl. repeat split; auto; lia.
    + right. apply Z.leb_gt in E4.
      unfold bufio.with_buf.
      cbn [bufio.start bufio.pending bufio.buf_len bufio.maxTokenSize bufio.r
           bufio.split bufio.token bufio.err bufio.empties bufio.done].
      set (nb := Z.min _ mx).
      assert (Hnb : bl < nb).
      { subst nb. pose proof (len_nonneg pd).
        destruct (bl * 2 =? 0) eqn:E5; [apply Z.eqb_eq in E5|apply Z.eqb_neq in E5];
          unfold bufio.startBufSize; lia. }
      destruct (bufio.read_loop bufio.maxConsecutiveEmptyReads (Z.to_nat (nb - (0 + len pd))) rd)
        as [[data e] rd'] eqn:R.
      assert (Hroom : (0 < Z.to_nat (nb - (0 + len pd)))%nat) by lia.
      destruct (read_loop_spec _ _ _ _ _ _ Hroom R) as (Hc & Hf & Hl & Hn & Hd).
      destruct e as [e|].
      * eexists _, data. split; [reflexivity|].
        unfold bufio.setErr, bufio.with_err, Inv, bufio.s_end. simpl.
        subst data. rewrite app_nil_r.
        repeat split; auto; try lia.
        eexists _, _. split; [exact Hroom|]. exact R.
      * eexists _, data. split; [reflexivity|].
        unfold Inv, bufio.s_end. simpl. rewrite len_app.
        repeat split; auto; try lia.
        -- unfold len in *. lia.
        -- eexists _, _. split; [exact Hroom|]. exact R.
  - right. apply Z.eqb_neq in E3. cbn [andb].
    cbn [bufio.start bufio.pending bufio.buf_len bufio.maxTokenSize bufio.r
         bufio.split bufio.token bufio.err bufio.empties bufio.done].
    destruct (bufio.read_loop bufio.maxConsecutiveEmptyReads (Z.to_nat (bl - (st1 + len pd))) rd)
      as [[data e] rd'] eqn:R.
    assert (Hroom : (0 < Z.to_nat (bl - (st1 + len pd)))%nat) by lia.
    destruct (read_loop_spec _ _ _ _ _ _ Hroom R) as (Hc & Hf & Hl & Hn & Hd).
    destruct e as [e|].
    + eexists _, data. split; [reflexivity|].
      unfold bufio.setErr, bufio.with_err, Inv, bufio.s_end. simpl.
      subst data. rewrite app_nil_r.
      repeat split; auto; try lia.
      eexists _, _. split; [exact Hroom|]. exact R.
    + eexists _, data. split; [reflexivity|].
      unfold Inv, bufio.s_end. simpl. rewrite len_app.
      repeat split; auto; try lia.
      * unfold len in *. lia.
      * eexists _, _. split; [exact Hroom|]. exact R.
Qed.

Lemma Inv_setErr : forall s e, Inv s -> Inv (bufio.setErr s e).
Proof.
  intros s e H. unfold bufio.setErr.
  destruct (bufio.err s) as [e0|]; [destruct (bufio.is_EOF e0)|]; auto.
Qed.

Lemma total_setErr : forall s e, total (bufio.setErr s e) = total s.
Proof.
  intros s e. unfold bufio.setErr.
  destruct (bufio.err s) as [e0|]; [destruct (bufio.is_EOF e0)|]; auto.
Qed.

Lemma fields_setErr : forall s e,
  bufio.r (bufio.setErr s e) = bufio.r s /\
  bufio.split (bufio.setErr s e) = bufio.split s /\
  bufio.done (bufio.setErr s e) = bufio.done s /\
  bufio.pending (bufio.setErr s e) = bufio.pending s /\
  bufio.maxTokenSize (bufio.setErr s e) = bufio.maxTokenSize s /\
  bufio.err (bufio.setErr s e) <> None.
Proof.
  intros s e. unfold bufio.setErr.
  destruct (bufio.err s) as [e0|] eqn:E; [destruct (bufio.is_EOF e0)|];
    simpl; repeat split; auto; try discriminate; congruence.
Qed.

Ltac splits := repeat match goal with |- _ /\ _ => split end.

Lemma read_more_progress : forall s,
  Inv s ->
  match bufio.read_more s with
  | bufio.Yield more s' =>
    more = false /\ Inv s' /\ bufio.split s' = bufio.split s /\
    bufio.done s' = bufio.done s /\ (total s' <= total s)%nat /\
    (Rbytes (bufio.r s') <= Rbytes (bufio.r s))%nat
  | bufio.Crash _ => False
  | bufio.Again s' =>
    bufio.err s = None /\ Inv s' /\ bufio.split s' = bufio.split s /\
    bufio.done s' = bufio.done s /\ (total s' <= total s)%nat /\
    (need s' < need s)%nat /\ (Rbytes (bufio.r s') <= Rbytes (bufio.r s))%nat
  end.
Proof.
  intros s HI. destruct (bufio.err s) as [e|] eqn:He.
  - unfold bufio.read_more. rewrite He. simpl bufio.isSome. cbv iota.
    destruct HI as [Ha Hb]. unfold bufio.s_end in Hb.
    pose proof (len_nonneg (bufio.pending s)).
    unfold Inv, bufio.s_end, total. simpl. unfold len. simpl. splits; auto; lia.
  - destruct (read_more_cases s He HI)
      as [(s' & -> & HI' & He' & Hp' & Hr' & Hs' & Hd' & Hm' & _)
         | (s' & data & -> & HI' & Hp' & Hc' & Hf' & Hn' & Hd & Hs' & Hdn' & _)].
    + unfold total. rewrite Hp', Hr'. splits; auto; lia.
    + unfold total, need, Rbytes. rewrite Hp', Hc', He, !length_app.
      splits; auto; try lia.
      destruct (bufio.err s'); [lia|].
      destruct data; [congruence|simpl; lia].
Qed.

Lemma Scan_pass_progress : forall s,
  Inv s -> well_behaved (bufio.split s) ->
  match bufio.Scan_pass s with
  | bufio.Yield more s' =>
    Inv s' /\ bufio.split s' = bufio.split s /\ bufio.done s' = bufio.done s /\
    (total s' + (if more then 1 else 0) <= total s)%nat /\
    (Rbytes (bufio.r s') <= Rbytes (bufio.r s))%nat
  | bufio.Crash _ => False
  | bufio.Again s' =>
    bufio.err s = None /\ Inv s' /\ bufio.split s' = bufio.split s /\
    bufio.done s' = bufio.done s /\ (total s' <= total s)%nat /\
    (need s' < need s)%nat /\ (Rbytes (bufio.r s') <= Rbytes (bufio.r s))%nat
  end.
Proof.
  intros s HI Hwb.
  assert (Hrm : forall s1, Inv s1 -> bufio.split s1 = bufio.split s ->
            bufio.done s1 = bufio.done s -> (total s1 <= total s)%nat ->
            bufio.r s1 = bufio.r s -> bufio.err s1 = bufio.err s ->
            match bufio.read_more s1 with
            | bufio.Yield more s' =>
              Inv s' /\ bufio.split s' = bufio.split s /\ bufio.done s' = bufio.done s /\
              (total s' + (if more then 1 else 0) <= total s)%nat /\
              (Rbytes (bufio.r s') <= Rbytes (bufio.r s))%nat
            | bufio.Crash _ => False
            | bufio.Again s' =>
              bufio.err s = None /\ Inv s' /\ bufio.split s' = bufio.split s /\
              bufio.done s' = bufio.done s /\ (total s' <= total s)%nat /\
              (need s' < need s)%nat /\ (Rbytes (bufio.r s') <= Rbytes (bufio.r s))%nat
            end).
  { intros s1 HI1 Hs1 Hd1 Ht1 Hr1 He1. pose proof (read_more_progress s1 HI1) as P.
    destruct (bufio.read_more s1) as [more s'| |s']; auto.
    - destruct P as (-> & ? & ? & ? & ? & ?). rewrite Hr1 in *.
      splits; auto; try congruence; lia.
    - destruct P as (? & ? & ? & ? & ? & ? & ?).
      assert (need s1 = need s) by (unfold need; rewrite He1, Hr1; auto).
      rewrite Hr1 in *.
      splits; auto; try congruence; lia. }
  unfold bufio.Scan_pass.
  destruct ((bufio.start s <? bufio.s_end s) || bufio.isSome (bufio.err s)) eqn:Hc.
  2:{ apply Hrm; auto. }
  destruct (bufio.split s (bufio.pending s) (bufio.isSome (bufio.err s)))
    as [[adv tok] e] eqn:Hsp.
  specialize (Hwb _ _ _ _ _ Hsp).
  destruct e as [e|].
  - rewrite Hwb.
    destruct (fields_setErr s e) as (F1 & F2 & F3 & F4 & F5 & F6).
    unfold total. rewrite F1, F4.
    splits; auto using Inv_setErr; try apply Inv_setErr; auto; lia.
  - unfold bufio.advance.
    destruct (adv <? 0) eqn:E1.
    { cbn [negb]. cbv iota.
      destruct (fields_setErr s bufio_ErrNegativeAdvance) as (F1 & F2 & F3 & F4 & F5 & F6).
      unfold total. rewrite F1, F4.
      splits; auto; try apply Inv_setErr; auto; lia. }
    destruct (bufio.s_end s - bufio.start s <? adv) eqn:E2.
    { cbn [negb]. cbv iota.
      destruct (fields_setErr s bufio_ErrAdvanceTooFar) as (F1 & F2 & F3 & F4 & F5 & F6).
      unfold total. rewrite F1, F4.
      splits; auto; try apply Inv_setErr; auto; lia. }
    cbn [negb]. cbv iota.
    apply Z.ltb_ge in E1, E2. unfold bufio.s_end in E2.
    assert (HI1 : Inv (bufio.with_buf s (bufio.buf_len s) (bufio.start s + adv)
                         (skipn (Z.to_nat adv) (bufio.pending s)))).
    { destruct HI as [Ha Hb]. unfold Inv, bufio.s_end in *. simpl.
      unfold len in *. rewrite length_skipn. split; lia. }
    assert (Hlen : (length (skipn (Z.to_nat adv) (bufio.pending s)) + Z.to_nat adv
                    = length (bufio.pending s))%nat).
    { rewrite length_skipn. unfold len in E2. lia. }
    destruct tok as [tok|].
    + assert (0 < adv) by (apply Hwb; discriminate).
      unfold bufio.with_token, bufio.with_empties, bufio.with_buf.
      cbn [bufio.r bufio.split bufio.maxTokenSize bufio.token bufio.buf_len bufio.start
           bufio.pending bufio.err bufio.empties bufio.done].
      replace (0 <? adv) with true by (symmetry; apply Z.ltb_lt; auto).
      rewrite orb_true_r.
      unfold total. simpl. splits; auto; try apply HI1; lia.
    + apply Hrm; auto.
      unfold total. simpl. lia.
Qed.

Lemma Scan_loop_progress : forall fuel s,
  Inv s -> well_behaved (bufio.split s) -> (need s <= fuel)%nat ->
  exists more s', bufio.Scan_loop fuel s = Returns (more, s') /\
    Inv s' /\ bufio.split s' = bufio.split s /\ bufio.done s' = bufio.done s /\
    (total s' + (if more then 1 else 0) <= total s)%nat /\
    (Rbytes (bufio.r s') <= Rbytes (bufio.r s))%nat.
Proof.
  induction fuel as [|k IH]; intros s HI Hwb Hn.
  - unfold need in Hn. destruct (bufio.err s); lia.
  - cbn [bufio.Scan_loop]. pose proof (Scan_pass_progress s HI Hwb) as P.
    destruct (bufio.Scan_pass s) as [more s'| |s'].
    + exists more, s'. split; auto.
    + contradiction.
    + destruct P as (He & HI' & Hs' & Hd' & Ht' & Hn' & Hr').
      destruct (IH s' HI') as (more & s2 & Heq & HI2 & Hs2 & Hd2 & Ht2 & Hr2).
      * rewrite Hs'. auto.
      * lia.
      * exists more, s2. split; auto. splits; auto; try congruence; try lia.
Qed.

Lemma well_behaved_ScanLines : well_behaved bufio.ScanLines.
Proof.
  intros data atEOF adv tok e. unfold bufio.ScanLines.
  pose proof (len_nonneg data).
  destruct (atEOF && (len data =? 0)) eqn:E0.
  - intros H'; inversion H'; subst. congruence.
  - destruct (0 <=? strings.IndexByte data x0a) eqn:E1.
    + apply Z.leb_le in E1. intros H'; inversion H'; subst. lia.
    + destruct atEOF; intros H'; inversion H'; subst; try congruence.
      simpl in E0. apply Z.eqb_neq in E0. lia.
Qed.

Lemma well_behaved_scanTreeEntry : well_behaved scanTreeEntry.
Proof.
  intros data atEOF adv tok e. unfold scanTreeEntry.
  pose proof (IndexByte_range data x00).
  destruct (atEOF && (len data =? 0)).
  - intros H'; inversion H'; subst. congruence.
  - destruct (strings.IndexByte data x00 + 21 <=? len data).
    + intros H'; inversion H'; subst. lia.
    + destruct atEOF; intros H'; inversion H'; subst; try congruence. reflexivity.
Qed.

Lemma slice_prefix : forall pre rest,
  slice (pre ++ rest) 0 (len pre) = Returns pre.
Proof.
  intros. unfold slice. rewrite len_app.
  pose proof (len_nonneg pre). pose proof (len_nonneg rest).
  replace ((0 <=? 0) && (0 <=? len pre) && (len pre <=? len pre + len rest)) with true.
  - simpl skipn. rewrite Z.sub_0_r. unfold len. rewrite Nat2Z.id.
    rewrite firstn_app, firstn_all, Nat.sub_diag. simpl. now rewrite app_nil_r.
  - symmetry. rewrite !andb_true_iff. repeat split; apply Z.leb_le; lia.
Qed.

Lemma slice_suffix : forall pre rest,
  slice (pre ++ rest) (len pre) (len (pre ++ rest)) = Returns rest.
Proof.
  intros. unfold slice. rewrite len_app.
  pose proof (len_nonneg pre). pose proof (len_nonneg rest).
  replace ((0 <=? len pre) && (len pre <=? len pre + len rest)
           && (len pre + len rest <=? len pre + len rest)) with true.
  - replace (len pre + len rest - len pre) with (len rest) by lia.
    unfold len. rewrite !Nat2Z.id.
    rewrite skipn_app, skipn_all, Nat.sub_diag. simpl. now rewrite firstn_all.
  - symmetry. rewrite !andb_true_iff. repeat split; apply Z.leb_le; lia.
Qed.

Lemma parseCommit_body_eq : forall c s,
  parseCommit_body c s = Returns (commit_line c s).
Proof.
  intros c s. unfold parseCommit_body.
  destruct (strings.IndexByte s " " <? 0) eqn:E.
  - apply Z.ltb_lt in E. pose proof (IndexByte_range s " "%byte).
    assert (A : ~ In " "%byte s) by (apply IndexByte_absent; lia).
    unfold commit_line.
    repeat (match goal with
            | |- Returns c = Returns (match ?l with _ => _ end) => destruct l; auto
            | |- Returns c = Returns (match ?b with _ => _ end) => destruct b; auto
            end).
    exfalso. apply A. simpl. auto 10.
  - apply Z.ltb_ge in E.
    destruct (IndexByte_found _ _ _ eq_refl E) as (pre & rest & Hs & Hl & Hn).
    rewrite <- Hl. rewrite Hs at 1. rewrite slice_prefix. cbn [bindO].
    destruct (bytes_eqb pre (lit "tree")) eqn:B.
    + apply bytes_eqb_eq in B. subst pre. rewrite Hs.
      change (lit "tree" ++ " "%byte :: rest) with (lit "tree " ++ rest).
      rewrite slice_suffix. reflexivity.
    + assert (pre <> lit "tree").
      { intro Heq. apply bytes_eqb_eq in Heq. congruence. }
      rewrite Hs. unfold commit_line.
      destruct pre as [|b0 pre]; [reflexivity|].
      destruct pre as [|b1 pre]; [simpl; destruct b0; auto|].
      destruct pre as [|b2 pre]; [simpl; destruct b0; auto; destruct b1; auto|].
      destruct pre as [|b3 pre];
        [simpl; destruct b0; auto; destruct b1; auto; destruct b2; auto|].
      destruct pre as [|b4 pre].
      * simpl. destruct b0; auto; destruct b1; auto; destruct b2; auto;
          destruct b3; auto. exfalso. apply H. reflexivity.
      * simpl. destruct b0; auto; destruct b1; auto; destruct b2; auto;
          destruct b3; auto; destruct b4; auto.
        exfalso. apply Hn. simpl. auto 10.
Qed.

Lemma commit_line_frame : forall c s,
  Commit_Repository (commit_line c s) = Commit_Repository c /\
  Commit_id (commit_line c s) = Commit_id c.
Proof.
  intros c s. unfold commit_line.
  repeat (match goal with
          | |- context [match ?l with _ => _ end] => destruct l; auto
          end).
Qed.

Lemma need_bound : forall s, (need s <= Rbytes (bufio.r s) + 2)%nat.
Proof. intros s. unfold need. destruct (bufio.err s); lia. Qed.

Lemma parseCommit_loop_total : forall fuel s c,
  Inv s -> bufio.split s = bufio.ScanLines -> bufio.done s = false ->
  (total s + Rbytes (bufio.r s) + 3 <= fuel)%nat ->
  exists c' e, parseCommit_loop fuel s c = Returns (Some c', e) /\
    Commit_Repository c' = Commit_Repository c /\ Commit_id c' = Commit_id c.
Proof.
  induction fuel as [|k IH]; intros s c HI Hsp Hdn Hf; [lia|].
  cbn [parseCommit_loop]. unfold bufio.Scan. rewrite Hdn.
  destruct (Scan_loop_progress (S k) s HI) as (more & s' & -> & HI' & Hs' & Hd' & Ht' & Hr').
  - rewrite Hsp. apply well_behaved_ScanLines.
  - pose proof (need_bound s). lia.
  - destruct more.
    + rewrite parseCommit_body_eq.
      destruct (IH s' (commit_line c (bufio.Bytes s'))) as (c' & e & -> & H1 & H2);
        try congruence; try lia.
      exists c', e. destruct (commit_line_frame c (bufio.Bytes s')). split; auto.
      split; congruence.
    + exists c, (bufio.Err s'). auto.
Qed.

Lemma NewScanner_Inv : forall rd, Inv (bufio.NewScanner rd).
Proof. intros. unfold Inv, bufio.s_end. simpl. unfold len; simpl. lia. Qed.

Lemma parseCommit_total : forall c r,
  exists c' e, parseCommit c r = Returns (Some c', e) /\
    Commit_Repository c' = Commit_Repository c /\ Commit_id c' = Commit_id c.
Proof.
  intros c r. unfold parseCommit. apply parseCommit_loop_total;
    auto using NewScanner_Inv.
  unfold total, bufio.budget, Rbytes. simpl. lia.
Qed.

(** [parseTree] always comes to an end: it returns or it panics. *)
Lemma parseTree_loop_total : forall fuel fs s t,
  Inv s -> bufio.split s = scanTreeEntry -> bufio.done s = false ->
  (total s + Rbytes (bufio.r s) + 3 <= fuel)%nat ->
  parseTree_loop fuel fs s t <> OutOfFuel.
Proof.
  induction fuel as [|k IH]; intros fs s t HI Hsp Hdn Hf; [lia|].
  cbn [parseTree_loop]. unfold bufio.Scan. rewrite Hdn.
  destruct (Scan_loop_progress (S k) s HI) as (more & s' & -> & HI' & Hs' & Hd' & Ht' & Hr').
  - rewrite Hsp. apply well_behaved_scanTreeEntry.
  - pose proof (need_bound s). lia.
  - destruct more; [|discriminate].
    destruct (parseTree_body fs t (bufio.Bytes s')) as [[t'|e]|p|] eqn:B;
      try discriminate.
    + apply IH; try congruence; lia.
    + exfalso. unfold parseTree_body in B.
      destruct (slice (bufio.Bytes s') 0 (len (bufio.Bytes s') - 21)) eqn:S1;
        try discriminate; [|unfold slice in S1; destruct (_ && _) in S1; discriminate].
      cbn [bindO] in B.
      destruct (slice (bufio.Bytes s') (len (bufio.Bytes s') - 20) (len (bufio.Bytes s'))) eqn:S2;
        try discriminate; [|unfold slice in S2; destruct (_ && _) in S2; discriminate].
      cbn [bindO] in B.
      destruct (fmt.Fscanf_d_s io_EOF a) as [e|[m n]]; try discriminate.
      destruct (slice a0 0 2) eqn:S3;
        try discriminate; [|unfold slice in S3; destruct (_ && _) in S3; discriminate].
      cbn [bindO] in B.
      destruct (slice a0 2 (len a0)) eqn:S4;
        try discriminate; [|unfold slice in S4; destruct (_ && _) in S4; discriminate].
      cbn [bindO] in B.
      destruct (os.IsNotExist _) in B; discriminate.
Qed.

(** ** The passes of [Scan], by what the split function answers *)

Lemma start_lt_end : forall s,
  (bufio.start s <? bufio.s_end s) = negb (len (bufio.pending s) =? 0).
Proof.
  intros s. unfold bufio.s_end. pose proof (len_nonneg (bufio.pending s)).
  destruct (len (bufio.pending s) =? 0) eqn:E.
  - apply Z.eqb_eq in E. simpl. apply Z.ltb_ge. lia.
  - apply Z.eqb_neq in E. simpl. apply Z.ltb_lt. lia.
Qed.

Lemma len_zero : forall s, len s = 0 <-> s = [].
Proof.
  intros s. unfold len. destruct s; simpl; split; intro; auto; try lia; discriminate.
Qed.

Lemma Scan_pass_empty : forall s,
  bufio.pending s = [] -> bufio.err s = None ->
  bufio.Scan_pass s = bufio.read_more s.
Proof.
  intros s Hp He. unfold bufio.Scan_pass.
  rewrite start_lt_end, Hp, He. reflexivity.
Qed.

Lemma Scan_pass_token : forall s adv tok,
  bufio.split s (bufio.pending s) (bufio.isSome (bufio.err s)) = (adv, Some tok, None) ->
  0 < adv <= len (bufio.pending s) ->
  bufio.Scan_pass s =
  bufio.Yield true
    (bufio.mkScanner (bufio.r s) (bufio.split s) (bufio.maxTokenSize s) (Some tok)
       (bufio.buf_len s) (bufio.start s + adv)
       (skipn (Z.to_nat adv) (bufio.pending s)) (bufio.err s) 0 (bufio.done s)).
Proof.
  intros s adv tok Hs Ha. unfold bufio.Scan_pass.
  rewrite start_lt_end.
  replace (len (bufio.pending s) =? 0) with false by (symmetry; apply Z.eqb_neq; lia).
  cbn [negb orb]. rewrite Hs. unfold bufio.advance.
  replace (adv <? 0) with false by (symmetry; apply Z.ltb_ge; lia).
  replace (bufio.s_end s - bufio.start s <? adv) with false
    by (symmetry; apply Z.ltb_ge; unfold bufio.s_end; lia).
  cbn [negb]. cbv iota.
  unfold bufio.with_token, bufio.with_buf, bufio.with_empties.
  cbn [bufio.r bufio.split bufio.maxTokenSize bufio.token bufio.buf_len bufio.start
       bufio.pending bufio.err bufio.empties bufio.done].
  replace (0 <? adv) with true by (symmetry; apply Z.ltb_lt; lia).
  rewrite orb_true_r. reflexivity.
Qed.

Lemma Scan_pass_none : forall s adv,
  bufio.split s (bufio.pending s) (bufio.isSome (bufio.err s)) = (adv, None, None) ->
  0 <= adv <= len (bufio.pending s) ->
  bufio.pending s <> [] \/ bufio.err s <> None ->
  bufio.Scan_pass s =
  bufio.read_more
    (bufio.mkScanner (bufio.r s) (bufio.split s) (bufio.maxTokenSize s) None
       (bufio.buf_len s) (bufio.start s + adv)
       (skipn (Z.to_nat adv) (bufio.pending s)) (bufio.err s) (bufio.empties s)
       (bufio.done s)).
Proof.
  intros s adv Hs Ha Hor. unfold bufio.Scan_pass.
  rewrite start_lt_end.
  replace (negb (len (bufio.pending s) =? 0) || bufio.isSome (bufio.err s)) with true.
  - rewrite Hs. unfold bufio.advance.
    replace (adv <? 0) with false by (symmetry; apply Z.ltb_ge; lia).
    replace (bufio.s_end s - bufio.start s <? adv) with false
      by (symmetry; apply Z.ltb_ge; unfold bufio.s_end; lia).
    reflexivity.
  - symmetry. apply orb_true_iff. destruct Hor as [Hp|He].
    + left. apply negb_true_iff, Z.eqb_neq. rewrite len_zero. auto.
    + right. destruct (bufio.err s); [reflexivity|congruence].
Qed.

(** ** Lines *)

Lemma split_lines_newline : forall pre cur rest,
  ~ In x0a pre ->
  split_lines cur (pre ++ x0a :: rest) = bufio.dropCR (cur ++ pre) :: split_lines [] rest.
Proof.
  induction pre as [|b pre IH]; intros cur rest Hn; simpl.
  - now rewrite app_nil_r.
  - destruct (Byte.eqb b x0a) eqn:E.
    + apply Byte.byte_dec_bl in E. exfalso. apply Hn. left; auto.
    + rewrite IH by (intro; apply Hn; right; auto).
      now rewrite <- app_assoc.
Qed.

Lemma split_lines_last : forall pre cur,
  ~ In x0a pre ->
  split_lines cur pre = match cur ++ pre with [] => [] | _ => [bufio.dropCR (cur ++ pre)] end.
Proof.
  induction pre as [|b pre IH]; intros cur Hn; simpl.
  - rewrite app_nil_r. destruct cur; reflexivity.
  - destruct (Byte.eqb b x0a) eqn:E.
    + apply Byte.byte_dec_bl in E. exfalso. apply Hn. left; auto.
    + rewrite IH by (intro; apply Hn; right; auto).
      rewrite <- app_assoc. reflexivity.
Qed.

Lemma short_lines_suffix : forall limit a b,
  short_lines limit (a ++ b) -> short_lines limit b.
Proof.
  intros limit a b H pre mid post Hb Hn.
  apply (H (a ++ pre) mid post); auto. rewrite Hb, <- app_assoc. reflexivity.
Qed.

Lemma firstn_len_app : forall (a b : bytes), firstn (Z.to_nat (len a)) (a ++ b) = a.
Proof.
  intros. unfold len. rewrite Nat2Z.id, firstn_app, firstn_all, Nat.sub_diag.
  simpl. apply app_nil_r.
Qed.

Lemma skipn_len_app : forall (a b : bytes) c,
  skipn (Z.to_nat (len a + 1)) (a ++ c :: b) = b.
Proof.
  intros. unfold len. replace (Z.to_nat (Z.of_nat (length a) + 1)) with (length a + 1)%nat by lia.
  rewrite skipn_app, skipn_all2 by lia.
  replace (length a + 1 - length a)%nat with 1%nat by lia. reflexivity.
Qed.

Lemma ScanLines_newline : forall pre rest atEOF,
  ~ In x0a pre ->
  bufio.ScanLines (pre ++ x0a :: rest) atEOF = (len pre + 1, Some (bufio.dropCR pre), None).
Proof.
  intros pre rest atEOF Hn. unfold bufio.ScanLines.
  pose proof (len_nonneg pre). pose proof (len_nonneg rest).
  replace (len (pre ++ x0a :: rest) =? 0) with false
    by (symmetry; apply Z.eqb_neq; rewrite len_app, len_cons; lia).
  rewrite andb_false_r. rewrite IndexByte_app by assumption.
  replace (0 <=? len pre) with true by (symmetry; apply Z.leb_le; lia).
  rewrite firstn_len_app. reflexivity.
Qed.

Lemma ScanLines_more : forall data,
  ~ In x0a data -> bufio.ScanLines data false = (0, None, None).
Proof.
  intros data Hn. unfold bufio.ScanLines. simpl andb. cbv iota.
  apply IndexByte_absent in Hn. rewrite Hn. reflexivity.
Qed.

Lemma ScanLines_last : forall data,
  ~ In x0a data -> data <> [] ->
  bufio.ScanLines data true = (len data, Some (bufio.dropCR data), None).
Proof.
  intros data Hn Hd. unfold bufio.ScanLines.
  replace (len data =? 0) with false
    by (symmetry; apply Z.eqb_neq; rewrite len_zero; auto).
  simpl andb. cbv iota. apply IndexByte_absent in Hn. rewrite Hn. reflexivity.
Qed.

Lemma in_dec_nl : forall data : bytes,
  (exists pre rest, data = pre ++ x0a :: rest /\ ~ In x0a pre) \/ ~ In x0a data.
Proof.
  intros data. pose proof (IndexByte_range data x0a).
  destruct (Z.eq_dec (strings.IndexByte data x0a) (-1)) as [E|E].
  - right. apply IndexByte_absent; auto.
  - left. destruct (IndexByte_found data x0a _ eq_refl) as (pre & rest & ? & ? & ?); [lia|].
    eauto.
Qed.

Lemma read_loop_sound : forall tries room rd data e rd',
  (0 < room)%nat -> nonempty_chunks rd ->
  bufio.read_loop tries room rd = (data, e, rd') ->
  nonempty_chunks rd' /\
  (forall e0, e = Some e0 -> e0 = io.final rd /\ io.chunks rd' = []).
Proof.
  intros tries room [cs fin] data e rd' Hroom Hne H.
  unfold nonempty_chunks in *. simpl in *.
  destruct tries; cbn [bufio.read_loop] in H; unfold io.Read in H; simpl in H.
  all: destruct cs as [|c cs];
    [ inversion H; subst; simpl; split; auto; intros e0 He0; inversion He0; auto | ].
  all: inversion Hne as [|? ? Hc Hcs]; subst.
  all: destruct (length c <=? room)%nat eqn:E.
  all: try (destruct c as [|b c]; [congruence|];
            inversion H; subst; simpl; split; auto; intros e0 He0; discriminate).
  all: apply Nat.leb_gt in E.
  all: destruct (firstn room c) as [|b f] eqn:F;
    [ destruct c; [congruence|]; destruct room; [lia|discriminate] | ].
  all: inversion H; subst; simpl; split; [|intros e0 He0; discriminate].
  all: constructor; auto.
  all: intro Hk; apply (f_equal (@length byte)) in Hk; rewrite length_skipn in Hk;
    simpl in Hk; lia.
Qed.

Lemma lines_last : forall data,
  data <> [] -> ~ In x0a data -> lines data = [bufio.dropCR data].
Proof.
  intros data Hd Hn. unfold lines. rewrite split_lines_last by assumption.
  simpl. destruct data; [congruence|reflexivity].
Qed.

Lemma Scan_loop_lines : forall fuel s,
  lines_state s -> short_lines bufio.MaxScanTokenSize (rem s) ->
  (need s <= fuel)%nat ->
  match lines (rem s) with
  | [] => exists s', bufio.Scan_loop fuel s = Returns (false, s') /\ bufio.Err s' = None
  | l :: ls =>
    exists s', bufio.Scan_loop fuel s = Returns (true, s') /\
      bufio.token s' = Some l /\ lines_state s' /\ lines (rem s') = ls /\
      short_lines bufio.MaxScanTokenSize (rem s') /\
      (total s' < total s)%nat /\ (Rbytes (bufio.r s') <= Rbytes (bufio.r s))%nat
  end.
Proof.
  induction fuel as [|k IH]; intros s HL Hshort Hn.
  { unfold need in Hn. destruct (bufio.err s); lia. }
  destruct HL as (HI & Hsp & Hdn & Hmx & Hfin & Hne & Herr).
  cbn [bufio.Scan_loop].
  (* the case where more input has to be read *)
  assert (Hread : forall s1,
    bufio.err s = None -> ~ In x0a (bufio.pending s) ->
    bufio.Scan_pass s = bufio.read_more s1 ->
    Inv s1 -> bufio.r s1 = bufio.r s -> bufio.err s1 = None ->
    bufio.pending s1 = bufio.pending s -> bufio.split s1 = bufio.split s ->
    bufio.done s1 = bufio.done s -> bufio.maxTokenSize s1 = bufio.maxTokenSize s ->
    match lines (rem s) with
    | [] => exists s', match bufio.Scan_pass s with
                       | bufio.Yield more s' => Returns (more, s')
                       | bufio.Crash p => Panics p
                       | bufio.Again s' => bufio.Scan_loop k s'
                       end = Returns (false, s') /\ bufio.Err s' = None
    | l :: ls =>
      exists s', match bufio.Scan_pass s with
                 | bufio.Yield more s' => Returns (more, s')
                 | bufio.Crash p => Panics p
                 | bufio.Again s' => bufio.Scan_loop k s'
                 end = Returns (true, s') /\
        bufio.token s' = Some l /\ lines_state s' /\ lines (rem s') = ls /\
        short_lines bufio.MaxScanTokenSize (rem s') /\
        (total s' < total s)%nat /\ (Rbytes (bufio.r s') <= Rbytes (bufio.r s))%nat
    end).
  { intros s1 He Hnl Hpass HI1 Hr1 He1 Hp1 Hs1 Hd1 Hm1.
    rewrite Hpass.
    destruct (read_more_cases s1 He1 HI1)
      as [(s' & _ & _ & _ & _ & _ & _ & _ & _ & Hlong)
         | (s' & data & -> & HI' & Hp' & Hc' & Hf' & Hch' & Hd' & Hs' & Hdn' & Hm' & _ & tries & room & Hroom & HR)].
    - exfalso. rewrite Hm1, Hmx, Hp1 in Hlong.
      specialize (Hshort [] (bufio.pending s) (io.contents (bufio.r s)) eq_refl Hnl). lia.
    - rewrite Hr1 in *. 
      destruct (read_loop_sound _ _ _ _ _ _ Hroom Hne HR) as (Hne' & Hsome).
      assert (Hrem : rem s' = rem s).
      { unfold rem. rewrite Hp', Hp1, Hc', app_assoc. reflexivity. }
      assert (HL' : lines_state s').
      { unfold lines_state. splits; auto; try congruence.
        destruct (bufio.err s') as [e'|] eqn:Ee'; [right|left; auto].
        destruct (Hsome e' eq_refl) as [-> Hch]. rewrite Hfin. auto. }
      assert (Hneed : (need s' <= k)%nat).
      { unfold need in *. rewrite He in Hn. destruct (bufio.err s') eqn:Ee'; [lia|].
        unfold Rbytes in *. rewrite Hc' in Hn. rewrite length_app in Hn.
        destruct data; [congruence|simpl in Hn; lia]. }
      assert (Htot : total s' = total s).
      { unfold total, Rbytes. rewrite Hp', Hp1, Hc', !length_app. lia. }
      assert (Hrb : (Rbytes (bufio.r s') <= Rbytes (bufio.r s))%nat).
      { unfold Rbytes. rewrite Hc', length_app. lia. }
      specialize (IH s' HL'). rewrite Hrem in IH. specialize (IH Hshort Hneed).
      destruct (lines (rem s)) as [|l ls].
      + exact IH.
      + destruct IH as (s2 & E2 & T2 & L2 & R2 & S2 & Tot2 & Rb2).
        exists s2. splits; auto; lia. }
  destruct Herr as [He | [He Hch]].
  - (* input not yet at its end *)
    destruct (in_dec_nl (bufio.pending s)) as [(pre & rest & Hp & Hnl) | Hnl].
    + (* a whole line is at hand *)
      assert (Hsplit : bufio.split s (bufio.pending s) (bufio.isSome (bufio.err s))
                       = (len pre + 1, Some (bufio.dropCR pre), None)).
      { rewrite Hsp, Hp. apply ScanLines_newline; auto. }
      pose proof (len_nonneg pre). pose proof (len_nonneg rest).
      assert (Hskip : skipn (Z.to_nat (len pre + 1)) (bufio.pending s) = rest)
        by (rewrite Hp; apply skipn_len_app).
      rewrite (Scan_pass_token s _ _ Hsplit)
        by (rewrite Hp, len_app, len_cons; lia).
      rewrite Hskip.
      unfold rem at 1. rewrite Hp, <- app_assoc. simpl app.
      unfold lines. rewrite split_lines_newline by assumption. simpl app.
      eexists. split; [reflexivity|].
      cbn [bufio.token]. unfold rem. cbn [bufio.pending bufio.r].
      splits; auto.
      * unfold lines_state.
        cbn [bufio.r bufio.split bufio.maxTokenSize bufio.err bufio.done].
        splits; auto.
        destruct HI as [Ha Hb]. unfold Inv, bufio.s_end in *.
        cbn [bufio.start bufio.pending bufio.buf_len].
        rewrite Hp, len_app, len_cons in Hb. split; lia.
      * apply (short_lines_suffix _ (pre ++ [x0a])). rewrite <- app_assoc. simpl app.
        unfold rem in Hshort. rewrite Hp, <- app_assoc in Hshort. exact Hshort.
      * unfold total. cbn [bufio.pending bufio.r]. rewrite Hp, length_app. simpl. lia.
    + (* no newline at hand: read on *)
      destruct (bufio.pending s) as [|b p] eqn:Hp.
      * apply (Hread s); auto. apply Scan_pass_empty; auto.
      * rewrite <- Hp in *.
        assert (Hsplit : bufio.split s (bufio.pending s) (bufio.isSome (bufio.err s))
                         = (0, None, None)).
        { rewrite Hsp, He. apply ScanLines_more; auto. }
        pose proof (len_nonneg (bufio.pending s)).
        apply (Hread (bufio.mkScanner (bufio.r s) (bufio.split s) (bufio.maxTokenSize s)
                        None (bufio.buf_len s) (bufio.start s + 0)
                        (skipn (Z.to_nat 0) (bufio.pending s)) (bufio.err s)
                        (bufio.empties s) (bufio.done s))); auto.
        -- apply (Scan_pass_none s 0 Hsplit); [lia|]. left. rewrite Hp. discriminate.
        -- destruct HI as [Ha Hb]. unfold Inv, bufio.s_end in *. cbn. split; lia.
  - (* the input has ended *)
    assert (Hc : io.contents (bufio.r s) = []) by (unfold io.contents; rewrite Hch; reflexivity).
    assert (Hrem : rem s = bufio.pending s) by (unfold rem; rewrite Hc; apply app_nil_r).
    rewrite Hrem.
    destruct (in_dec_nl (bufio.pending s)) as [(pre & rest & Hp & Hnl) | Hnl].
    + assert (Hsplit : bufio.split s (bufio.pending s) (bufio.isSome (bufio.err s))
                       = (len pre + 1, Some (bufio.dropCR pre), None)).
      { rewrite Hsp, Hp. apply ScanLines_newline; auto. }
      pose proof (len_nonneg pre). pose proof (len_nonneg rest).
      assert (Hskip : skipn (Z.to_nat (len pre + 1)) (bufio.pending s) = rest)
        by (rewrite Hp; apply skipn_len_app).
      rewrite (Scan_pass_token s _ _ Hsplit)
        by (rewrite Hp, len_app, len_cons; lia).
      rewrite Hskip. rewrite Hp.
      unfold lines. rewrite split_lines_newline by assumption. simpl app.
      eexists. split; [reflexivity|].
      cbn [bufio.token]. unfold rem. cbn [bufio.pending bufio.r].
      rewrite Hc, app_nil_r.
      splits; auto.
      * unfold lines_state.
        cbn [bufio.r bufio.split bufio.maxTokenSize bufio.err bufio.done].
        splits; auto.
        destruct HI as [Ha Hb]. unfold Inv, bufio.s_end in *.
        cbn [bufio.start bufio.pending bufio.buf_len].
        rewrite Hp, len_app, len_cons in Hb. split; lia.
      * apply (short_lines_suffix _ (pre ++ [x0a])). rewrite <- app_assoc. simpl app.
        rewrite Hrem, Hp in Hshort. exact Hshort.
      * unfold total. cbn [bufio.pending bufio.r]. rewrite Hp, length_app. simpl. lia.
    + destruct (bufio.pending s) as [|b p] eqn:Hp.
      * (* nothing is left *)
        assert (Hsplit : bufio.split s (bufio.pending s) (bufio.isSome (bufio.err s))
                         = (0, None, None)).
        { rewrite Hsp, He, Hp. reflexivity. }
        rewrite (Scan_pass_none s 0 Hsplit);
          [|rewrite Hp; unfold len; simpl; lia|right; congruence].
        unfold bufio.read_more. cbn [bufio.err]. rewrite He. cbn [bufio.isSome].
        cbv iota. eexists. split; [reflexivity|].
        reflexivity.
      * (* a last line without a newline *)
        rewrite <- Hp in *.
        assert (Hd : bufio.pending s <> []) by (rewrite Hp; discriminate).
        assert (Hsplit : bufio.split s (bufio.pending s) (bufio.isSome (bufio.err s))
                         = (len (bufio.pending s), Some (bufio.dropCR (bufio.pending s)), None)).
        { rewrite Hsp, He. apply ScanLines_last; auto. }
        pose proof (len_nonneg (bufio.pending s)).
        assert (len (bufio.pending s) <> 0) by (rewrite len_zero; auto).
        assert (Hskip : skipn (Z.to_nat (len (bufio.pending s))) (bufio.pending s) = []).
        { unfold len. rewrite Nat2Z.id. apply skipn_all. }
        rewrite (Scan_pass_token s _ _ Hsplit) by lia.
        rewrite Hskip, lines_last by assumption.
        eexists. split; [reflexivity|].
        cbn [bufio.token]. unfold rem. cbn [bufio.pending bufio.r].
        rewrite Hc. simpl app.
        splits; auto.
        -- unfold lines_state.
           cbn [bufio.r bufio.split bufio.maxTokenSize bufio.err bufio.done].
           splits; auto.
           destruct HI as [Ha Hb]. unfold Inv, bufio.s_end in *.
           cbn [bufio.start bufio.pending bufio.buf_len].
           change (len []) with 0. split; lia.
        -- intros pre mid post Heq _. destruct pre; [|discriminate].
           destruct mid; [|discriminate]. unfold len, bufio.MaxScanTokenSize; simpl; lia.
        -- unfold total. cbn [bufio.pending bufio.r]. simpl.
           assert (length (bufio.pending s) <> 0)%nat by (unfold len in *; lia). lia.
Qed.

Lemma parseCommit_loop_lines : forall fuel s c,
  lines_state s -> short_lines bufio.MaxScanTokenSize (rem s) ->
  (total s + Rbytes (bufio.r s) + 3 <= fuel)%nat ->
  parseCommit_loop fuel s c
  = Returns (Some (fold_left commit_line (lines (rem s)) c), None).
Proof.
  induction fuel as [|k IH]; intros s c HL Hshort Hf; [lia|].
  cbn [parseCommit_loop]. unfold bufio.Scan.
  assert (Hdn : bufio.done s = false) by apply HL. rewrite Hdn.
  pose proof (need_bound s) as Hb.
  assert (Hn : (need s <= S k)%nat) by lia.
  pose proof (Scan_loop_lines (S k) s HL Hshort Hn) as P.
  destruct (lines (rem s)) as [|l ls].
  - destruct P as (s' & -> & He). rewrite He. reflexivity.
  - destruct P as (s' & -> & Ht & HL' & Hl' & Hs' & Htot & Hrb).
    unfold bufio.Bytes. rewrite Ht, parseCommit_body_eq.
    rewrite IH; auto; [|lia]. rewrite Hl'. reflexivity.
Qed.

Lemma parseCommit_lines : forall c r,
  io.final r = io_EOF -> nonempty_chunks r ->
  short_lines bufio.MaxScanTokenSize (io.contents r) ->
  parseCommit c r = Returns (Some (fold_left commit_line (lines (io.contents r)) c), None).
Proof.
  intros c r Hf Hne Hs. unfold parseCommit.
  rewrite parseCommit_loop_lines.
  - reflexivity.
  - unfold lines_state. simpl. splits; auto using NewScanner_Inv.
  - exact Hs.
  - unfold total, bufio.budget, Rbytes. simpl. lia.
Qed.

Lemma commit_line_other : forall c l, ~ is_tree_line l -> commit_line c l = c.
Proof.
  intros c l H. unfold commit_line.
  repeat (match goal with
          | |- match ?x with _ => _ end = _ => destruct x; auto
          end).
  exfalso. apply H. eexists. reflexivity.
Qed.

Lemma fold_commit_line_other : forall ls c,
  (forall l, In l ls -> ~ is_tree_line l) -> fold_left commit_line ls c = c.
Proof.
  induction ls as [|l ls IH]; intros c H; simpl; auto.
  rewrite commit_line_other by (apply H; left; auto).
  apply IH. intros; apply H; right; auto.
Qed.

Lemma fold_commit_line_last : forall before v after c,
  (forall l, In l after -> ~ is_tree_line l) ->
  fold_left commit_line (before ++ (lit "tree " ++ v) :: after) c
  = mkCommit (Commit_Repository c) (strings.TrimSpace v) (Commit_id c).
Proof.
  intros before v after c H. rewrite fold_left_app. simpl fold_left.
  rewrite fold_commit_line_other by assumption.
  simpl. 
  assert (F : forall ls c, Commit_Repository (fold_left commit_line ls c) = Commit_Repository c
                        /\ Commit_id (fold_left commit_line ls c) = Commit_id c).
  { induction ls as [|l ls IH]; intros c0; simpl; auto.
    destruct (IH (commit_line c0 l)) as [A B].
    destruct (commit_line_frame c0 l) as [C D]. split; congruence. }
  destruct (F before c) as [A B]. f_equal; assumption.
Qed.

(** ** Searching a tree *)

Lemma Blob_range_none : forall inflate fs t name es,
  (forall e, In e es -> Name e <> name) ->
  Blob_range inflate fs t name es
  = ret (None, Some (os_PathError "open" [name] ErrNotExist)).
Proof.
  induction es as [|e es IH]; intros H; simpl; auto.
  destruct (bytes_eqb name (Name e)) eqn:E.
  - apply bytes_eqb_eq in E. exfalso. apply (H e); auto. left; auto.
  - apply IH. intros; apply H; right; auto.
Qed.

Lemma Blob_range_first : forall inflate fs t name before e after,
  (forall e', In e' before -> Name e' <> name) -> Name e = name ->
  Blob_range inflate fs t name (before ++ e :: after)
  = readBlob inflate fs t (Entry_id e).
Proof.
  induction before as [|e0 before IH]; intros e after H He; simpl.
  - replace (bytes_eqb name (Name e)) with true; auto.
    symmetry. apply bytes_eqb_eq. auto.
  - destruct (bytes_eqb name (Name e0)) eqn:E.
    + apply bytes_eqb_eq in E. exfalso. apply (H e0); auto. left; auto.
    + apply IH; auto. intros; apply H; right; auto.
Qed.

Lemma Tree_range_none : forall inflate fs t name es,
  (forall e, In e es -> Name e <> name) ->
  Tree_range inflate fs t name es
  = ret (None, Some (os_PathError "open" [name] ErrNotExist)).
Proof.
  induction es as [|e es IH]; intros H; simpl; auto.
  destruct (bytes_eqb name (Name e)) eqn:E.
  - apply bytes_eqb_eq in E. exfalso. apply (H e); auto. left; auto.
  - apply IH. intros; apply H; right; auto.
Qed.

Lemma Tree_range_first : forall inflate fs t name before e after,
  (forall e', In e' before -> Name e' <> name) -> Name e = name ->
  Tree_range inflate fs t name (before ++ e :: after)
  = readTree inflate fs (Tree_Commit t) (Entry_id e).
Proof.
  induction before as [|e0 before IH]; intros e after H He; simpl.
  - replace (bytes_eqb name (Name e)) with true; auto.
    symmetry. apply bytes_eqb_eq. auto.
  - destruct (bytes_eqb name (Name e0)) eqn:E.
    + apply bytes_eqb_eq in E. exfalso. apply (H e0); auto. left; auto.
    + apply IH; auto. intros; apply H; right; auto.
Qed.

Lemma bytes_eqb_neq : forall a b, a <> b -> bytes_eqb a b = false.
Proof.
  intros a b H. destruct (bytes_eqb a b) eqn:E; auto.
  apply bytes_eqb_eq in E. congruence.
Qed.

Lemma readBlob_wrong_kind : forall inflate fs t sha st h rc st',
  readObject inflate fs (Commit_Repository (Tree_Commit t)) sha st
    = (Returns (h, Some rc, None), st') ->
  kind h <> lit "blob" ->
  readBlob inflate fs t sha st
  = (Returns (None, Some (errors_Errorf "expected blob, got %q" (kind h))), st').
Proof.
  intros. unfold readBlob. rewrite H. rewrite bytes_eqb_neq by assumption. reflexivity.
Qed.

Lemma readTree_wrong_kind : forall inflate fs c sha st h rc st',
  readObject inflate fs (Commit_Repository c) sha st
    = (Returns (h, Some rc, None), st') ->
  kind h <> lit "tree" ->
  readTree inflate fs c sha st
  = (Returns (None, Some (errors_Errorf "expected tree, got %q" (kind h))),
     os.Close (Closer rc) st').
Proof.
  intros. unfold readTree. rewrite H. unfold defer_Close.
  rewrite bytes_eqb_neq by assumption. reflexivity.
Qed.


(** ** Scanning printable text *)

Lemma byte_val_of_Z : forall z, 0 <= z < 256 -> byte_val (byte_of_Z z) = z.
Proof.
  intros z Hz. unfold byte_of_Z, byte_val.
  rewrite Z.mod_small by lia.
  destruct (Byte.of_N (Z.to_N z)) as [b|] eqn:E.
  - apply Byte.to_of_N in E. rewrite E. lia.
  - exfalso. pose proof (Byte.to_of_N_option_map (Z.to_N z)) as H.
    rewrite E in H. simpl in H.
    destruct (Z.to_N z <=? 255)%N eqn:L; [discriminate|].
    apply N.leb_gt in L. lia.
Qed.


Lemma DecodeRune_ascii : forall b t,
  byte_val b < 128 -> utf8.DecodeRune (b :: t) = (byte_val b, 1%nat).
Proof.
  intros b t H. unfold utf8.DecodeRune, utf8.first.
  replace (byte_val b <? 128) with true by (symmetry; apply Z.ltb_lt; auto).
  reflexivity.
Qed.

Lemma getRune_ascii : forall fin b t,
  byte_val b < 128 -> fmt.getRune fin (b :: t) = Ok (byte_val b, t).
Proof.
  intros fin b t H. unfold fmt.getRune. rewrite DecodeRune_ascii by assumption.
  reflexivity.
Qed.

Lemma isSpace_graphic : forall b, graphic b -> fmt.isSpace (byte_val b) = false.
Proof.
  intros b [H1 H2]. unfold fmt.isSpace.
  replace (65536 <=? byte_val b) with false by (symmetry; apply Z.leb_gt; lia).
  rewrite Z.mod_small by lia.
  repeat (apply orb_false_intro);
    try (apply Z.eqb_neq; lia);
    try (apply andb_false_iff; [left; apply Z.leb_gt; lia | right; apply Z.leb_gt; lia]).
  all: apply andb_false_iff; first [left; apply Z.leb_gt; lia | right; apply Z.leb_gt; lia].
Qed.

Lemma AppendRune_ascii : forall buf b,
  byte_val b < 128 -> utf8.AppendRune buf (byte_val b) = buf ++ [b].
Proof.
  intros buf b H. unfold utf8.AppendRune. pose proof (byte_val_range b).
  replace ((0 <=? byte_val b) && (byte_val b <=? 127)) with true
    by (symmetry; apply andb_true_iff; split; apply Z.leb_le; lia).
  rewrite byte_of_Z_val. reflexivity.
Qed.

Lemma SkipSpace_graphic : forall fin b t,
  graphic b -> fmt.SkipSpace fin (b :: t) = Ok (b :: t).
Proof.
  intros fin b t H. unfold fmt.SkipSpace. cbn [fmt.SkipSpace_loop length].
  rewrite getRune_ascii by (destruct H; lia).
  unfold bindR, Ok. destruct H as [H1 H2].
  replace (byte_val b =? fmt.eof) with false
    by (symmetry; apply Z.eqb_neq; unfold fmt.eof; lia).
  replace (byte_val b =? 13) with false by (symmetry; apply Z.eqb_neq; lia).
  replace (byte_val b =? 10) with false by (symmetry; apply Z.eqb_neq; lia).
  rewrite isSpace_graphic by (split; auto). reflexivity.
Qed.

Lemma notEOF_cons : forall fin b t,
  byte_val b < 128 -> fmt.notEOF fin (b :: t) = Ok tt.
Proof.
  intros fin b t H. unfold fmt.notEOF. rewrite getRune_ascii by assumption.
  unfold bindR, Ok. pose proof (byte_val_range b).
  replace (byte_val b =? fmt.eof) with false
    by (symmetry; apply Z.eqb_neq; unfold fmt.eof; lia).
  reflexivity.
Qed.

(** The token loop takes a run of graphic bytes up to a space. *)
Lemma token_loop_graphic : forall fin k fuel buf rest,
  Forall graphic k -> (length k < fuel)%nat ->
  fmt.token_loop fin fmt.notSpace fuel buf (k ++ " "%byte :: rest)
  = Ok (buf ++ k, " "%byte :: rest).
Proof.
  induction k as [|b k IH]; intros fuel buf rest Hk Hf.
  - destruct fuel; [simpl in Hf; lia|]. cbn [fmt.token_loop app].
    rewrite getRune_ascii by (vm_compute; reflexivity).
    rewrite app_nil_r. reflexivity.
  - destruct fuel; [simpl in Hf; lia|]. inversion Hk as [|? ? Hb Hk']; subst.
    cbn [fmt.token_loop app].
    rewrite getRune_ascii by (destruct Hb; lia).
    unfold bindR at 1. cbv beta iota. unfold Ok at 1.
    destruct Hb as [H1 H2].
    replace (byte_val b =? fmt.eof) with false
      by (symmetry; apply Z.eqb_neq; unfold fmt.eof; lia).
    unfold fmt.notSpace. rewrite isSpace_graphic by (split; auto).
    cbn [negb]. rewrite AppendRune_ascii by lia.
    rewrite IH by (auto; simpl in Hf; lia).
    rewrite <- app_assoc. reflexivity.
Qed.

Lemma convertString_graphic : forall fin b k rest,
  Forall graphic (b :: k) ->
  fmt.convertString fin ((b :: k) ++ " "%byte :: rest)
  = Ok (b :: k, " "%byte :: rest).
Proof.
  intros fin b k rest Hk. inversion Hk as [|? ? Hb Hk']; subst.
  unfold fmt.convertString. cbn [app].
  rewrite SkipSpace_graphic by assumption. unfold bindR at 1. unfold Ok at 1.
  rewrite notEOF_cons by (destruct Hb; lia). unfold bindR at 1. unfold Ok at 1.
  unfold fmt.token. rewrite SkipSpace_graphic by assumption.
  unfold bindR at 1. unfold Ok at 1.
  change (b :: k ++ " "%byte :: rest) with ((b :: k) ++ " "%byte :: rest).
  rewrite token_loop_graphic; auto.
  rewrite length_app. simpl. lia.
Qed.

(** One space of the format against one space of the input followed by a
    graphic byte. *)
Lemma advance_space_one : forall fin b t,
  graphic b ->
  fmt.advance_space fin (" "%byte :: b :: t) = Ok (b :: t).
Proof.
  intros fin b t Hb. unfold fmt.advance_space.
  rewrite getRune_ascii by (vm_compute; reflexivity).
  unfold bindR at 1. unfold Ok at 1.
  change (byte_val " "%byte) with 32.
  change (negb (fmt.isSpace 32) && negb (32 =? fmt.eof)) with false. cbv iota.
  change (32 =? 10) with false. cbv iota.
  cbn [fmt.advance_space_loop length].
  change (fmt.isSpace 32 && negb (32 =? 10)) with true. cbv iota.
  rewrite getRune_ascii by (destruct Hb; lia).
  unfold bindR at 1. unfold Ok at 1. cbv beta iota.
  rewrite isSpace_graphic by assumption. cbn [andb].
  destruct Hb as [H1 H2].
  replace (byte_val b =? fmt.eof) with false
    by (symmetry; apply Z.eqb_neq; unfold fmt.eof; lia).
  reflexivity.
Qed.

Lemma decimalDigits_digit : forall b, is_digit b -> fmt.decimalDigits (byte_val b) = true.
Proof.
  intros b [H1 H2]. unfold fmt.decimalDigits.
  apply andb_true_iff; split; apply Z.leb_le; lia.
Qed.

Lemma accept_digit : forall fin buf b t,
  is_digit b ->
  fmt.accept fin fmt.decimalDigits buf (b :: t) = Ok (true, buf ++ [b], t).
Proof.
  intros fin buf b t Hb. unfold fmt.accept, fmt.consume.
  destruct Hb as [H1 H2].
  rewrite getRune_ascii by lia. unfold bindR, Ok.
  replace (byte_val b =? fmt.eof) with false
    by (symmetry; apply Z.eqb_neq; unfold fmt.eof; lia).
  rewrite decimalDigits_digit by (split; auto).
  rewrite AppendRune_ascii by lia. reflexivity.
Qed.

Lemma accept_loop_digits : forall fin ds fuel buf rest,
  Forall is_digit ds -> (length ds < fuel)%nat ->
  fmt.accept_loop fin fmt.decimalDigits fuel buf (ds ++ x00 :: rest)
  = Ok (buf ++ ds, x00 :: rest).
Proof.
  induction ds as [|b ds IH]; intros fuel buf rest Hd Hf.
  - destruct fuel; [simpl in Hf; lia|]. cbn [fmt.accept_loop app].
    rewrite app_nil_r. reflexivity.
  - destruct fuel; [simpl in Hf; lia|]. inversion Hd as [|? ? Hb Hd']; subst.
    cbn [fmt.accept_loop app]. rewrite accept_digit by assumption.
    unfold bindR at 1. unfold Ok at 1. cbv beta iota.
    rewrite IH by (auto; simpl in Hf; lia).
    rewrite <- app_assoc. reflexivity.
Qed.

Lemma graphic_digit : forall b, is_digit b -> graphic b.
Proof. intros b [H1 H2]. split; lia. Qed.

Lemma graphic_not_nul : forall l, Forall graphic l -> ~ In x00 l.
Proof.
  intros l H Hin. rewrite Forall_forall in H. apply H in Hin.
  destruct Hin as [H1 _]. vm_compute in H1. apply H1. reflexivity.
Qed.

Lemma digits_value_digits : forall ds acc,
  Forall is_digit ds -> exists v, strconv.digits_value acc ds = Some v.
Proof.
  induction ds as [|b ds IH]; intros acc Hd; simpl; eauto.
  inversion Hd as [|? ? [H1 H2] Hd']; subst. unfold strconv.digit_val.
  replace ((48 <=? byte_val b) && (byte_val b <=? 57)) with true
    by (symmetry; apply andb_true_iff; split; apply Z.leb_le; lia).
  apply IH; auto.
Qed.

Lemma bindR_Ok : forall A B (a : A) (k : A -> result B), bindR (Ok a) k = k a.
Proof. reflexivity. Qed.

Ltac ok_step := rewrite bindR_Ok; cbv beta iota.

Lemma accept_sign_digit : forall fin b t,
  is_digit b -> fmt.accept fin fmt.sign [] (b :: t) = Ok (false, [], b :: t).
Proof.
  intros fin b t [H1 H2]. unfold fmt.accept, fmt.consume.
  rewrite getRune_ascii by lia. ok_step.
  replace (byte_val b =? fmt.eof) with false
    by (symmetry; apply Z.eqb_neq; unfold fmt.eof; lia).
  replace (fmt.sign (byte_val b)) with false
    by (symmetry; unfold fmt.sign; apply orb_false_intro; apply Z.eqb_neq; lia).
  reflexivity.
Qed.

Lemma scanNumber_digits : forall fin b ds rest,
  Forall is_digit (b :: ds) ->
  fmt.scanNumber fin fmt.decimalDigits [] ((b :: ds) ++ x00 :: rest)
  = Ok (b :: ds, x00 :: rest).
Proof.
  intros fin b ds rest Hd. inversion Hd as [|? ? Hb Hd']; subst.
  unfold fmt.scanNumber. cbn [app].
  rewrite notEOF_cons by (destruct Hb; lia). ok_step.
  rewrite accept_digit by assumption. ok_step.
  rewrite accept_loop_digits by (auto; rewrite length_app; simpl; lia).
  reflexivity.
Qed.

Lemma digits_value_nonneg : forall ds acc v,
  0 <= acc -> strconv.digits_value acc ds = Some v -> 0 <= v.
Proof.
  induction ds as [|b ds IH]; intros acc v Ha; simpl.
  - intros H; inversion H; subst; auto.
  - unfold strconv.digit_val.
    destruct ((48 <=? byte_val b) && (byte_val b <=? 57)) eqn:E; [|discriminate].
    apply andb_true_iff in E as [E1 E2]. apply Z.leb_le in E1, E2.
    apply IH. lia.
Qed.

Lemma ParseInt_digits : forall b ds n,
  is_digit b -> strconv.digits_value 0 (b :: ds) = Some n -> n < 2 ^ 63 ->
  strconv.ParseInt (b :: ds) 64 = Ok n.
Proof.
  intros b ds n [H1 H2] Hv Hn. unfold strconv.ParseInt.
  replace (Byte.eqb b "-") with false
    by (symmetry; destruct (Byte.eqb b "-") eqn:E; auto;
        apply Byte.byte_dec_bl in E; subst b; vm_compute in H1; exfalso; apply H1; reflexivity).
  replace (Byte.eqb b "+") with false
    by (symmetry; destruct (Byte.eqb b "+") eqn:E; auto;
        apply Byte.byte_dec_bl in E; subst b; vm_compute in H1; exfalso; apply H1; reflexivity).
  cbn [orb negb andb]. rewrite Hv.
  change (2 ^ (64 - 1)) with (2 ^ 63).
  replace (2 ^ 63 <=? n) with false by (symmetry; apply Z.leb_gt; lia).
  reflexivity.
Qed.

(** The length field: decimal digits, ended by the null byte. *)
Lemma scanInt_digits : forall fin b ds rest n,
  Forall is_digit (b :: ds) ->
  strconv.digits_value 0 (b :: ds) = Some n -> n < 2 ^ 63 ->
  fmt.scanInt fin 64 ((b :: ds) ++ x00 :: rest) = Ok (n, x00 :: rest).
Proof.
  intros fin b ds rest n Hd Hv Hn. inversion Hd as [|? ? Hb Hd']; subst.
  assert (Hg : graphic b) by (apply graphic_digit; auto).
  assert (Ha : byte_val b < 128) by (destruct Hb; lia).
  pose proof (digits_value_nonneg _ _ _ (Z.le_refl 0) Hv) as Hn0.
  unfold fmt.scanInt.
  change ((b :: ds) ++ x00 :: rest) with (b :: (ds ++ x00 :: rest)) at 1.
  rewrite SkipSpace_graphic by assumption. ok_step.
  rewrite notEOF_cons by assumption. ok_step.
  rewrite accept_sign_digit by assumption. ok_step.
  change (b :: (ds ++ x00 :: rest)) with ((b :: ds) ++ x00 :: rest).
  rewrite scanNumber_digits by assumption. ok_step.
  rewrite (ParseInt_digits b ds n) by assumption. ok_step.
  change (2 ^ (64 - 1)) with (2 ^ 63).
  replace ((- 2 ^ 63 <=? n) && (n <? 2 ^ 63)) with true; [reflexivity|].
  symmetry. apply andb_true_iff. split; [apply Z.leb_le|apply Z.ltb_lt]; lia.
Qed.

Lemma advance_literal_nul : forall fin rest,
  fmt.advance_literal fin 0 (x00 :: rest) = Ok rest.
Proof.
  intros. unfold fmt.advance_literal, fmt.mustReadRune.
  rewrite getRune_ascii by (vm_compute; reflexivity). reflexivity.
Qed.

(** A header [<kind> <digits>\0]: the kind is any run of graphic bytes. *)
Lemma Fscanf_header_graphic : forall fin k0 k d0 ds n rest,
  Forall graphic (k0 :: k) -> Forall is_digit (d0 :: ds) ->
  strconv.digits_value 0 (d0 :: ds) = Some n -> n < 2 ^ 63 ->
  fmt.Fscanf_s_d_nul fin ((k0 :: k) ++ " "%byte :: (d0 :: ds) ++ x00 :: rest)
  = Ok (k0 :: k, n, rest).
Proof.
  intros fin k0 k d0 ds n rest Hk Hd Hv Hn.
  inversion Hk as [|? ? Hk0 Hk']; subst. inversion Hd as [|? ? Hd0 Hd']; subst.
  unfold fmt.Fscanf_s_d_nul.
  change ((k0 :: k) ++ " "%byte :: (d0 :: ds) ++ x00 :: rest)
    with (k0 :: (k ++ " "%byte :: (d0 :: ds) ++ x00 :: rest)) at 1.
  rewrite SkipSpace_graphic by assumption. ok_step.
  change (k0 :: (k ++ " "%byte :: (d0 :: ds) ++ x00 :: rest))
    with ((k0 :: k) ++ " "%byte :: (d0 :: ds) ++ x00 :: rest).
  rewrite convertString_graphic by assumption. ok_step.
  change ((d0 :: ds) ++ x00 :: rest) with (d0 :: (ds ++ x00 :: rest)).
  rewrite advance_space_one by (apply graphic_digit; auto). ok_step.
  rewrite SkipSpace_graphic by (apply graphic_digit; auto). ok_step.
  change (d0 :: (ds ++ x00 :: rest)) with ((d0 :: ds) ++ x00 :: rest).
  rewrite (scanInt_digits fin d0 ds rest n) by assumption. ok_step.
  rewrite advance_literal_nul. reflexivity.
Qed.

(** ** Decimal text *)

Lemma digits_value_snoc : forall ds acc d v,
  strconv.digits_value acc ds = Some v -> strconv.digit_val d = Some (byte_val d - 48) ->
  strconv.digits_value acc (ds ++ [d]) = Some (v * 10 + (byte_val d - 48)).
Proof.
  induction ds as [|b ds IH]; intros acc d v H Hd; simpl in *.
  - inversion H; subst. rewrite Hd. reflexivity.
  - destruct (strconv.digit_val b); [|discriminate]. apply IH; auto.
Qed.

Lemma digit_of_Z : forall m, 0 <= m < 10 ->
  is_digit (byte_of_Z (48 + m)) /\ byte_val (byte_of_Z (48 + m)) - 48 = m /\
  strconv.digit_val (byte_of_Z (48 + m)) = Some (byte_val (byte_of_Z (48 + m)) - 48).
Proof.
  intros m Hm. assert (E : byte_val (byte_of_Z (48 + m)) = 48 + m)
    by (apply byte_val_of_Z; lia).
  unfold is_digit, strconv.digit_val. rewrite E.
  replace ((48 <=? 48 + m) && (48 + m <=? 57)) with true
    by (symmetry; apply andb_true_iff; split; apply Z.leb_le; lia).
  repeat split; lia.
Qed.

Lemma Itoa_digits_spec : forall fuel n acc,
  0 <= n -> (Z.to_nat n < fuel)%nat ->
  exists ds, strconv.Itoa_digits fuel n acc = ds ++ acc /\ ds <> [] /\
    Forall is_digit ds /\ strconv.digits_value 0 ds = Some n.
Proof.
  induction fuel as [|k IH]; intros n acc Hn Hf; [lia|].
  cbn [strconv.Itoa_digits].
  assert (Hm : 0 <= n mod 10 < 10) by (apply Z.mod_pos_bound; lia).
  destruct (digit_of_Z _ Hm) as (D1 & D2 & D3).
  destruct (n <? 10) eqn:E.
  - apply Z.ltb_lt in E. exists [byte_of_Z (48 + n mod 10)].
    rewrite Z.mod_small in * by lia.
    splits; auto; try discriminate.
    cbn [strconv.digits_value]. rewrite D3, D2. reflexivity.
  - apply Z.ltb_ge in E.
    assert (Hq : 0 <= n / 10) by (apply Z.div_pos; lia).
    assert (Hq2 : n / 10 < n) by (apply Z.div_lt; lia).
    destruct (IH (n / 10) (byte_of_Z (48 + n mod 10) :: acc) Hq) as (ds & -> & Hne & Hd & Hv);
      [lia|].
    exists (ds ++ [byte_of_Z (48 + n mod 10)]). splits.
    + rewrite <- app_assoc. reflexivity.
    + destruct ds; discriminate.
    + apply Forall_app; split; auto.
    + rewrite (digits_value_snoc _ _ _ _ Hv D3), D2.
      f_equal. pose proof (Z.div_mod n 10). lia.
Qed.

Lemma Itoa_spec : forall n, 0 <= n ->
  exists d0 ds, strconv.Itoa n = d0 :: ds /\ Forall is_digit (d0 :: ds) /\
    strconv.digits_value 0 (d0 :: ds) = Some n.
Proof.
  intros n Hn. unfold strconv.Itoa.
  destruct (Itoa_digits_spec (S (Z.to_nat n)) n [] Hn) as (ds & -> & Hne & Hd & Hv); [lia|].
  rewrite app_nil_r. destruct ds as [|d0 ds]; [congruence|]. eauto.
Qed.

(** ** Reading a prefix of a stream byte by byte *)

Lemma contents_skip : forall n rd,
  io.contents (io.skip n rd) = skipn n (io.contents rd).
Proof.
  intros n [cs fin]. unfold io.skip, io.contents. simpl. revert n.
  induction cs as [|c cs IH]; intros n; simpl.
  - now rewrite skipn_nil.
  - destruct (n =? 0)%nat eqn:E0.
    + apply Nat.eqb_eq in E0. subst. reflexivity.
    + destruct (length c <=? n)%nat eqn:E1.
      * apply Nat.leb_le in E1. rewrite IH, skipn_app.
        rewrite (skipn_all2 (n:=n) c) by lia. reflexivity.
      * apply Nat.leb_gt in E1. simpl. rewrite skipn_app.
        replace (n - length c)%nat with 0%nat by lia. reflexivity.
Qed.

Lemma slice_general : forall s lo hi,
  0 <= lo <= hi -> hi <= len s ->
  slice s lo hi = Returns (firstn (Z.to_nat (hi - lo)) (skipn (Z.to_nat lo) s)).
Proof.
  intros s lo hi H1 H2. unfold slice.
  replace ((0 <=? lo) && (lo <=? hi) && (hi <=? len s)) with true; auto.
  symmetry. rewrite !andb_true_iff. repeat split; apply Z.leb_le; lia.
Qed.

Lemma sha_slices : forall sha, 2 <= len sha ->
  slice sha 0 2 = Returns (firstn 2 sha) /\ slice sha 2 (len sha) = Returns (skipn 2 sha).
Proof.
  intros sha H. rewrite !slice_general by lia. split.
  - reflexivity.
  - change (Z.to_nat 2) with 2%nat. f_equal. apply firstn_all2.
    rewrite length_skipn. unfold len. lia.
Qed.

(** [readObject] on an object whose file opens, whose zlib header is
    sound and whose plain text starts with a header that scans. *)
Lemma readObject_scanned : forall inflate fs r sha st raw fr k n rest,
  2 <= len sha ->
  fs (object_path (Root r) sha) = os.Regular raw ->
  zlib.NewReader inflate raw = Ok fr ->
  fmt.Fscanf_s_d_nul (io.final fr) (io.contents fr) = Ok (k, n, rest) ->
  readObject inflate fs r sha st
  = (Returns (mkHeader k n,
              Some (mkReadCloser
                      (io.skip (length (io.contents fr) - length rest) fr)
                      (os.mkFile (os.next_fd st) raw)),
              None),
     os.mkState (S (os.next_fd st)) (os.next_fd st :: os.open_fds st)).
Proof.
  intros inflate fs r sha st raw fr k n rest Hs Hfs Hz Hscan.
  unfold readObject. destruct (sha_slices sha Hs) as [-> ->].
  cbv beta iota. unfold os.Open.
  match goal with |- context [fs ?p] => change p with (object_path (Root r) sha) end.
  rewrite Hfs. unfold Ok in *. cbv beta iota.
  cbn [os.data]. rewrite Hz. unfold Ok in *. rewrite Hscan. reflexivity.
Qed.

(** ** What a successful header scan has read *)




Lemma bindR_inr : forall A B (m : result A) (k : A -> result B) b,
  bindR m k = inr b -> exists a, m = inr a /\ k a = inr b.
Proof. intros A B [e|a] k b H; simpl in H; [discriminate|eauto]. Qed.















(** ** Trees: the file system is not consulted for the entry list *)

Lemma parseTree_body_fs : forall fs fs' t buf,
  parseTree_body fs t buf = parseTree_body fs' t buf.
Proof.
  intros. unfold parseTree_body.
  destruct (slice buf 0 (len buf - 21)); simpl; auto.
  destruct (slice buf (len buf - 20) (len buf)); simpl; auto.
  destruct (fmt.Fscanf_d_s io_EOF a) as [e|[mode name]]; auto.
  destruct (slice a0 0 2); simpl; auto.
  destruct (slice a0 2 (len a0)); simpl; auto.
  destruct (os.IsNotExist (os.Stat fs _)), (os.IsNotExist (os.Stat fs' _)); reflexivity.
Qed.

Lemma parseTree_loop_fs : forall fuel fs fs' sc t,
  parseTree_loop fuel fs sc t = parseTree_loop fuel fs' sc t.
Proof.
  induction fuel; intros; simpl; auto.
  destruct (bufio.Scan (S fuel) sc) as [[[] sc']| |]; auto.
  rewrite (parseTree_body_fs fs fs').
  destruct (parseTree_body fs' t (bufio.Bytes sc')) as [[t'|e]| |]; auto.
Qed.

Lemma readObject_absent : forall inflate fs r sha st,
  2 <= len sha -> fs (object_path (Root r) sha) = os.NoEntry ->
  readObject inflate fs r sha st
  = (Returns (no_header, None,
              Some (errors_WithStack
                      (os_PathError "open" (object_path (Root r) sha) ENOENT))),
     st).
Proof.
  intros inflate fs r sha st Hs Hfs.
  unfold readObject. destruct (sha_slices sha Hs) as [-> ->].
  cbv beta iota. unfold os.Open.
  match goal with |- context [fs ?p] => change p with (object_path (Root r) sha) end.
  rewrite Hfs. reflexivity.
Qed.

Lemma readBlob_absent : forall inflate fs t sha st,
  2 <= len sha -> fs (object_path (Tree_Root t) sha) = os.NoEntry ->
  readBlob inflate fs t sha st
  = (Returns (None,
              Some (errors_WithStack
                      (os_PathError "open" (object_path (Tree_Root t) sha) ENOENT))),
     st).
Proof.
  intros. unfold readBlob. rewrite readObject_absent by assumption. reflexivity.
Qed.

Lemma readTree_absent : forall inflate fs c sha st,
  2 <= len sha -> fs (object_path (Root (Commit_Repository c)) sha) = os.NoEntry ->
  readTree inflate fs c sha st
  = (Returns (None,
              Some (errors_WithStack
                      (os_PathError "open"
                         (object_path (Root (Commit_Repository c)) sha) ENOENT))),
     st).
Proof.
  intros. unfold readTree. rewrite readObject_absent by assumption. reflexivity.
Qed.

(** ** Truncated records: the scanner reads on *)


(** ** The empty tree *)

Lemma concat_repeat_nil : forall n, concat (repeat (@nil byte) n) = [].
Proof. induction n; simpl; auto. Qed.

Lemma read_loop_empties : forall n tries room fin,
  (n <= tries)%nat -> (0 < room)%nat ->
  bufio.read_loop tries room (io.mkReader (repeat [] n) fin)
  = ([], Some fin, io.mkReader [] fin).
Proof.
  induction n as [|n IH]; intros tries room fin Hn Hr.
  - destruct tries; reflexivity.
  - destruct tries as [|tries]; [lia|].
    cbn [bufio.read_loop repeat]. unfold io.Read. cbn [io.chunks io.final length].
    replace (0 <=? room)%nat with true by (symmetry; apply Nat.leb_le; lia).
    cbv beta iota. apply IH; lia.
Qed.

(** The first pass of a fresh scanner allocates its buffer and reads. *)
Lemma Scan_pass_fresh : forall rd f,
  bufio.Scan_pass (bufio.Split (bufio.NewScanner rd) f) =
  let '(data, e, rd') :=
    bufio.read_loop bufio.maxConsecutiveEmptyReads (Z.to_nat 4096) rd in
  bufio.Again (bufio.mkScanner rd' f bufio.MaxScanTokenSize None 4096 0 data e 0 false).
Proof.
  intros rd f. rewrite Scan_pass_empty by reflexivity.
  cbv -[bufio.read_loop Z.to_nat].
  destruct (bufio.read_loop _ _ rd) as [[data e] rd'].
  destruct e, data; reflexivity.
Qed.

Lemma parseTree_empty : forall fs t n,
  (n <= 100)%nat ->
  parseTree fs t (io.mkReader (repeat [] n) io_EOF) = Returns (Some t, None).
Proof.
  intros fs t n Hn. unfold parseTree, bufio.budget, io.contents.
  cbn [io.chunks]. rewrite concat_repeat_nil, repeat_length.
  match goal with
  | |- parseTree_loop ?f _ _ _ = _ =>
    replace f with (S (S (n + 2)))%nat by (simpl; lia)
  end.
  cbn [parseTree_loop]. unfold bufio.Scan at 1.
  change (bufio.done (bufio.Split (bufio.NewScanner _) scanTreeEntry)) with false.
  cbv iota. cbn [bufio.Scan_loop]. rewrite Scan_pass_fresh.
  rewrite read_loop_empties by (unfold bufio.maxConsecutiveEmptyReads; lia).
  cbv beta iota.
  rewrite (Scan_pass_none _ 0); [| reflexivity | cbn; unfold len; simpl; lia
                                 | right; cbn; discriminate].
  reflexivity.
Qed.

Lemma parseTree_fs : forall fs fs' t r, parseTree fs t r = parseTree fs' t r.
Proof. intros. unfold parseTree. apply parseTree_loop_fs. Qed.

(** ** Tree records *)

Lemma accept_nondigit : forall fin buf x t,
  byte_val x < 128 -> fmt.decimalDigits (byte_val x) = false ->
  fmt.accept fin fmt.decimalDigits buf (x :: t) = Ok (false, buf, x :: t).
Proof.
  intros fin buf x t Hx Hd. unfold fmt.accept, fmt.consume.
  rewrite getRune_ascii by assumption. ok_step.
  pose proof (byte_val_range x).
  replace (byte_val x =? fmt.eof) with false
    by (symmetry; apply Z.eqb_neq; unfold fmt.eof; lia).
  rewrite Hd. reflexivity.
Qed.

Lemma accept_loop_digits_until : forall fin ds fuel buf x rest,
  Forall is_digit ds -> (length ds < fuel)%nat ->
  byte_val x < 128 -> fmt.decimalDigits (byte_val x) = false ->
  fmt.accept_loop fin fmt.decimalDigits fuel buf (ds ++ x :: rest)
  = Ok (buf ++ ds, x :: rest).
Proof.
  induction ds as [|b ds IH]; intros fuel buf x rest Hd Hf Hx Hn.
  - destruct fuel; [simpl in Hf; lia|]. cbn [fmt.accept_loop app].
    rewrite accept_nondigit by assumption. ok_step.
    rewrite app_nil_r. reflexivity.
  - destruct fuel; [simpl in Hf; lia|]. inversion Hd as [|? ? Hb Hd']; subst.
    cbn [fmt.accept_loop app]. rewrite accept_digit by assumption. ok_step.
    rewrite IH by (auto; simpl in Hf; lia).
    rewrite <- app_assoc. reflexivity.
Qed.

(** The mode field: decimal digits up to the space. *)
Lemma scanUint_digits : forall fin b ds rest v,
  Forall is_digit (b :: ds) ->
  strconv.digits_value 0 (b :: ds) = Some v -> v < 2 ^ 32 ->
  fmt.scanUint fin 32 ((b :: ds) ++ " "%byte :: rest) = Ok (v, " "%byte :: rest).
Proof.
  intros fin b ds rest v Hd Hv Hn. inversion Hd as [|? ? Hb Hd']; subst.
  assert (Hg : graphic b) by (apply graphic_digit; auto).
  assert (Ha : byte_val b < 128) by (destruct Hb; lia).
  unfold fmt.scanUint.
  change ((b :: ds) ++ " "%byte :: rest) with (b :: (ds ++ " "%byte :: rest)).
  rewrite SkipSpace_graphic by assumption. ok_step.
  rewrite notEOF_cons by assumption. ok_step.
  unfold fmt.scanNumber.
  rewrite notEOF_cons by assumption. ok_step.
  rewrite accept_digit by assumption. ok_step.
  rewrite accept_loop_digits_until;
    [| assumption | rewrite length_app; simpl; lia
     | vm_compute; reflexivity | vm_compute; reflexivity ].
  ok_step. cbn [app]. unfold strconv.ParseUint. rewrite Hv.
  replace (v <? 2 ^ 64) with true by (symmetry; apply Z.ltb_lt; lia).
  ok_step.
  replace (v <? 2 ^ 32) with true by (symmetry; apply Z.ltb_lt; lia).
  reflexivity.
Qed.

(** The token loop takes a run of graphic bytes up to the end. *)
Lemma token_loop_graphic_eof : forall k fuel buf,
  Forall graphic k -> (length k < fuel)%nat ->
  fmt.token_loop io_EOF fmt.notSpace fuel buf k = Ok (buf ++ k, []).
Proof.
  induction k as [|b k IH]; intros fuel buf Hk Hf.
  - destruct fuel; [simpl in Hf; lia|]. cbn [fmt.token_loop].
    rewrite app_nil_r. reflexivity.
  - destruct fuel; [simpl in Hf; lia|]. inversion Hk as [|? ? Hb Hk']; subst.
    cbn [fmt.token_loop].
    rewrite getRune_ascii by (destruct Hb; lia). ok_step.
    destruct Hb as [H1 H2].
    replace (byte_val b =? fmt.eof) with false
      by (symmetry; apply Z.eqb_neq; unfold fmt.eof; lia).
    unfold fmt.notSpace. rewrite isSpace_graphic by (split; auto).
    cbn [negb]. rewrite AppendRune_ascii by lia.
    rewrite IH by (auto; simpl in Hf; lia).
    rewrite <- app_assoc. reflexivity.
Qed.

Lemma convertString_graphic_eof : forall b k,
  Forall graphic (b :: k) -> fmt.convertString io_EOF (b :: k) = Ok (b :: k, []).
Proof.
  intros b k Hk. inversion Hk as [|? ? Hb Hk']; subst.
  unfold fmt.convertString.
  rewrite SkipSpace_graphic by assumption. ok_step.
  rewrite notEOF_cons by (destruct Hb; lia). ok_step.
  unfold fmt.token. rewrite SkipSpace_graphic by assumption. ok_step.
  rewrite token_loop_graphic_eof; auto.
Qed.

(** The text of a record before its null byte: [<mode> <name>]. *)
Lemma Fscanf_mode_name : forall m0 ms n0 name v,
  Forall is_digit (m0 :: ms) ->
  strconv.digits_value 0 (m0 :: ms) = Some v -> v < 2 ^ 32 ->
  Forall graphic (n0 :: name) ->
  fmt.Fscanf_d_s io_EOF ((m0 :: ms) ++ " "%byte :: n0 :: name) = Ok (v, n0 :: name).
Proof.
  intros m0 ms n0 name v Hd Hv Hn Hg.
  inversion Hd as [|? ? Hm0 Hd']; subst. inversion Hg as [|? ? Hn0 Hg']; subst.
  unfold fmt.Fscanf_d_s.
  change ((m0 :: ms) ++ " "%byte :: n0 :: name)
    with (m0 :: (ms ++ " "%byte :: n0 :: name)) at 1.
  rewrite SkipSpace_graphic by (apply graphic_digit; auto). ok_step.
  change (m0 :: (ms ++ " "%byte :: n0 :: name))
    with ((m0 :: ms) ++ " "%byte :: n0 :: name).
  rewrite (scanUint_digits io_EOF m0 ms (n0 :: name) v) by assumption. ok_step.
  rewrite advance_space_one by assumption. ok_step.
  rewrite SkipSpace_graphic by assumption. ok_step.
  rewrite convertString_graphic_eof by assumption. reflexivity.
Qed.

Lemma record_prefix_no_nul : forall mode name,
  Forall is_digit mode -> Forall graphic name ->
  ~ In x00 (mode ++ " "%byte :: name).
Proof.
  intros mode name Hm Hn Hin. apply in_app_or in Hin as [Hin|[Hin|Hin]].
  - revert Hin. apply graphic_not_nul.
    eapply Forall_impl; [|exact Hm]. apply graphic_digit.
  - discriminate.
  - revert Hin. apply graphic_not_nul; auto.
Qed.

(** The split function cuts a record off the front of the data. *)
Lemma scanTreeEntry_record : forall mode name id rest atEOF,
  plain_record mode name id ->
  scanTreeEntry (record mode name id ++ rest) atEOF
  = (len (record mode name id), Some (record mode name id), None).
Proof.
  intros mode name id rest atEOF (Hm0 & Hm & Hv32 & Hn0 & Hn & Hid).
  unfold scanTreeEntry, record.
  assert (Hl : len id = 20) by (unfold len; rewrite Hid; reflexivity).
  pose proof (len_nonneg (mode ++ " "%byte :: name)) as Hp.
  assert (E : (mode ++ " "%byte :: name ++ x00 :: id) ++ rest
              = (mode ++ " "%byte :: name) ++ x00 :: (id ++ rest)).
  { rewrite <- !app_assoc. cbn [app]. rewrite <- !app_assoc. reflexivity. }
  assert (El : len (mode ++ " "%byte :: name ++ x00 :: id)
               = len (mode ++ " "%byte :: name) + 21).
  { replace (mode ++ " "%byte :: name ++ x00 :: id)
      with ((mode ++ " "%byte :: name) ++ x00 :: id)
      by (rewrite <- !app_assoc; reflexivity).
    rewrite !len_app, !len_cons, Hl. lia. }
  rewrite E, IndexByte_app by (apply record_prefix_no_nul; auto).
  pose proof (len_nonneg (id ++ rest)). pose proof (len_nonneg rest).
  assert (Ht : len ((mode ++ " "%byte :: name) ++ x00 :: id ++ rest)
               = len (mode ++ " "%byte :: name) + 21 + len rest).
  { rewrite !len_app, !len_cons, !len_app, Hl. lia. }
  rewrite Ht.
  replace (len (mode ++ " "%byte :: name) + 21 + len rest =? 0) with false
    by (symmetry; apply Z.eqb_neq; lia).
  rewrite andb_false_r.
  replace (len (mode ++ " "%byte :: name) + 21
           <=? len (mode ++ " "%byte :: name) + 21 + len rest) with true
    by (symmetry; apply Z.leb_le; lia).
  rewrite El. f_equal. f_equal. f_equal.
  rewrite <- E, <- El. apply firstn_len_app.
Qed.

(** One turn of [parseTree]'s loop on a record appends its entry. *)
Lemma parseTree_body_record : forall fs t mode name id,
  plain_record mode name id ->
  parseTree_body fs t (record mode name id)
  = Returns (inl (mkTree (Tree_Commit t) (Tree_id t)
                    (Entries t ++ [mkEntry name (mode_value mode) (fmt.Sprintf_x id)]))).
Proof.
  intros fs t mode name id (Hm0 & Hm & Hv32 & Hn0 & Hn & Hid).
  destruct (digits_value_digits mode 0 Hm) as [v Hv].
  unfold mode_value in *. rewrite Hv in *.
  unfold parseTree_body, record.
  assert (Hl : len id = 20) by (unfold len; rewrite Hid; reflexivity).
  assert (E : mode ++ " "%byte :: name ++ x00 :: id
              = (mode ++ " "%byte :: name) ++ x00 :: id)
    by (rewrite <- !app_assoc; reflexivity).
  assert (El : len (mode ++ " "%byte :: name ++ x00 :: id)
               = len (mode ++ " "%byte :: name) + 21).
  { rewrite E, !len_app, !len_cons, Hl. lia. }
  rewrite El.
  replace (len (mode ++ " "%byte :: name) + 21 - 21)
    with (len (mode ++ " "%byte :: name)) by lia.
  rewrite E at 1. rewrite slice_prefix. cbn [bindO].
  replace (len (mode ++ " "%byte :: name) + 21 - 20)
    with (len ((mode ++ " "%byte :: name) ++ [x00]))
    by (rewrite len_app; change (len [x00]) with 1; lia).
  replace (len (mode ++ " "%byte :: name) + 21)
    with (len (((mode ++ " "%byte :: name) ++ [x00]) ++ id))
    by (rewrite !len_app, Hl; change (len [x00]) with 1; lia).
  replace (mode ++ " "%byte :: name ++ x00 :: id)
    with (((mode ++ " "%byte :: name) ++ [x00]) ++ id)
    by (rewrite <- !app_assoc; reflexivity).
  rewrite slice_suffix. cbn [bindO].
  destruct mode as [|m0 ms]; [congruence|]. destruct name as [|n0 name]; [congruence|].
  rewrite (Fscanf_mode_name m0 ms n0 name v) by assumption.
  unfold Ok.
  rewrite !slice_general by lia. cbn [bindO].
  destruct (os.IsNotExist _); reflexivity.
Qed.

(** ** Tree bodies *)

Lemma add_entries_nil : forall t, add_entries t [] = t.
Proof. intros [c i es]. unfold add_entries. simpl. rewrite app_nil_r. reflexivity. Qed.

Lemma add_entries_cons : forall t e es,
  add_entries (add_entries t [e]) es = add_entries t (e :: es).
Proof.
  intros t e es. unfold add_entries. simpl. rewrite <- app_assoc. reflexivity.
Qed.

Lemma len_record : forall mode name id,
  length id = 20%nat ->
  len (record mode name id) = len (mode ++ " "%byte :: name) + 21.
Proof.
  intros mode name id Hid. unfold record.
  assert (Hl : len id = 20) by (unfold len; rewrite Hid; reflexivity).
  rewrite !len_app, !len_cons, !len_app, !len_cons, Hl. lia.
Qed.

(** A part of a short record that stops before its end does not yet make
    a token: the split function asks for more. *)
Lemma record_part_short : forall mode name id p q rest,
  plain_record mode name id -> len (mode ++ " "%byte :: name) < 20 ->
  p ++ q = record mode name id ++ rest ->
  len p < len (record mode name id) ->
  len p < strings.IndexByte p x00 + 21.
Proof.
  intros mode name id p q rest (Hm0 & Hm & Hv32 & Hn0 & Hn & Hid) Hshort Hpq Hlt.
  rewrite len_record in Hlt by assumption.
  pose proof (record_prefix_no_nul mode name Hm Hn) as Hnul.
  assert (Hp : p = firstn (length p) ((mode ++ " "%byte :: name) ++ x00 :: id)).
  { assert (E : firstn (length p) (p ++ q) = p).
    { rewrite firstn_app, firstn_all, Nat.sub_diag. simpl. apply app_nil_r. }
    rewrite Hpq in E. rewrite firstn_app in E.
    replace (length p - length (record mode name id))%nat with 0%nat in E.
    - simpl in E. rewrite app_nil_r in E. unfold record in E.
      rewrite <- E at 1. f_equal. rewrite <- !app_assoc. reflexivity.
    - pose proof (len_record mode name id Hid) as L. unfold len in *. lia. }
  set (pre := mode ++ " "%byte :: name) in *.
  rewrite firstn_app in Hp.
  destruct (Nat.le_gt_cases (length p) (length pre)) as [Hle|Hgt].
  - replace (length p - length pre)%nat with 0%nat in Hp by lia.
    simpl in Hp. rewrite app_nil_r in Hp.
    assert (Hno : ~ In x00 p).
    { rewrite Hp. intro Hin. apply Hnul.
      rewrite <- (firstn_skipn (length p) pre). apply in_or_app. left. exact Hin. }
    apply IndexByte_absent in Hno. rewrite Hno. unfold len in *. lia.
  - destruct (length p - length pre)%nat as [|j] eqn:J; [lia|].
    rewrite firstn_all2 in Hp by lia. simpl in Hp.
    rewrite Hp at 2. rewrite IndexByte_app by assumption.
    rewrite Hp, len_app, len_cons.
    assert (len (firstn j id) <= Z.of_nat j).
    { unfold len. rewrite length_firstn. lia. }
    unfold len in *. lia.
Qed.

(** One call of [Scan] on a stream of short plain records yields the next
    record as its token, and [false] with no error after the last. *)
Lemma Scan_loop_records : forall fuel s es,
  tree_state s -> Forall short_plain es -> rem s = body es ->
  (need s <= fuel)%nat ->
  match es with
  | [] => exists s', bufio.Scan_loop fuel s = Returns (false, s') /\ bufio.Err s' = None
  | e :: es' =>
    exists s', bufio.Scan_loop fuel s = Returns (true, s') /\
      bufio.token s' = Some (encode e) /\ tree_state s' /\ rem s' = body es' /\
      (total s' < total s)%nat /\ (Rbytes (bufio.r s') <= Rbytes (bufio.r s))%nat
  end.
Proof.
  induction fuel as [|k IH]; intros s es HT Hes Hrem Hn.
  { unfold need in Hn. destruct (bufio.err s); lia. }
  destruct HT as (HI & Hsp & Hdn & Hmx & Hfin & Hne & Herr).
  cbn [bufio.Scan_loop].
  (* the case where more input has to be read *)
  assert (Hread : forall s1,
    bufio.err s = None -> len (bufio.pending s) < bufio.MaxScanTokenSize ->
    bufio.Scan_pass s = bufio.read_more s1 ->
    Inv s1 -> bufio.r s1 = bufio.r s -> bufio.err s1 = None ->
    bufio.pending s1 = bufio.pending s -> bufio.split s1 = bufio.split s ->
    bufio.done s1 = bufio.done s -> bufio.maxTokenSize s1 = bufio.maxTokenSize s ->
    match es with
    | [] => exists s', match bufio.Scan_pass s with
                       | bufio.Yield more s' => Returns (more, s')
                       | bufio.Crash p => Panics p
                       | bufio.Again s' => bufio.Scan_loop k s'
                       end = Returns (false, s') /\ bufio.Err s' = None
    | e :: es' =>
      exists s', match bufio.Scan_pass s with
                 | bufio.Yield more s' => Returns (more, s')
                 | bufio.Crash p => Panics p
                 | bufio.Again s' => bufio.Scan_loop k s'
                 end = Returns (true, s') /\
        bufio.token s' = Some (encode e) /\ tree_state s' /\ rem s' = body es' /\
        (total s' < total s)%nat /\ (Rbytes (bufio.r s') <= Rbytes (bufio.r s))%nat
    end).
  { intros s1 He Hlen Hpass HI1 Hr1 He1 Hp1 Hs1 Hd1 Hm1.
    rewrite Hpass.
    destruct (read_more_cases s1 He1 HI1)
      as [(s' & _ & _ & _ & _ & _ & _ & _ & _ & Hlong)
         | (s' & data & -> & HI' & Hp' & Hc' & Hf' & Hch' & Hd' & Hs' & Hdn' & Hm' & _ & tries & room & Hroom & HR)].
    - exfalso. rewrite Hm1, Hmx, Hp1 in Hlong. lia.
    - rewrite Hr1 in *.
      destruct (read_loop_sound _ _ _ _ _ _ Hroom Hne HR) as (Hne' & Hsome).
      assert (Hrem' : rem s' = rem s).
      { unfold rem. rewrite Hp', Hp1, Hc', app_assoc. reflexivity. }
      assert (HT' : tree_state s').
      { unfold tree_state. splits; auto; try congruence.
        destruct (bufio.err s') as [e'|] eqn:Ee'; [right|left; auto].
        destruct (Hsome e' eq_refl) as [-> Hch]. rewrite Hfin. auto. }
      assert (Hneed : (need s' <= k)%nat).
      { unfold need in *. rewrite He in Hn. destruct (bufio.err s') eqn:Ee'; [lia|].
        unfold Rbytes in *. rewrite Hc' in Hn. rewrite length_app in Hn.
        destruct data; [congruence|simpl in Hn; lia]. }
      assert (Htot : total s' = total s).
      { unfold total, Rbytes. rewrite Hp', Hp1, Hc', !length_app. lia. }
      assert (Hrb : (Rbytes (bufio.r s') <= Rbytes (bufio.r s))%nat).
      { unfold Rbytes. rewrite Hc', length_app. lia. }
      specialize (IH s' es HT' Hes). rewrite Hrem' in IH. specialize (IH Hrem Hneed).
      destruct es as [|e es'].
      + exact IH.
      + destruct IH as (s2 & E2 & T2 & L2 & R2 & Tot2 & Rb2).
        exists s2. splits; auto; lia. }
  (* the pass that reads on without a token *)
  assert (Hmore : bufio.err s = None ->
    len (bufio.pending s) < strings.IndexByte (bufio.pending s) x00 + 21 ->
    len (bufio.pending s) < bufio.MaxScanTokenSize ->
    match es with
    | [] => exists s', match bufio.Scan_pass s with
                       | bufio.Yield more s' => Returns (more, s')
                       | bufio.Crash p => Panics p
                       | bufio.Again s' => bufio.Scan_loop k s'
                       end = Returns (false, s') /\ bufio.Err s' = None
    | e :: es' =>
      exists s', match bufio.Scan_pass s with
                 | bufio.Yield more s' => Returns (more, s')
                 | bufio.Crash p => Panics p
                 | bufio.Again s' => bufio.Scan_loop k s'
                 end = Returns (true, s') /\
        bufio.token s' = Some (encode e) /\ tree_state s' /\ rem s' = body es' /\
        (total s' < total s)%nat /\ (Rbytes (bufio.r s') <= Rbytes (bufio.r s))%nat
    end).
  { intros He Hpart Hlen.
    destruct (bufio.pending s) as [|b p] eqn:Hp.
    - apply (Hread s); auto. apply Scan_pass_empty; auto.
    - rewrite <- Hp in *.
      assert (Hsplit : bufio.split s (bufio.pending s) (bufio.isSome (bufio.err s))
                       = (0, None, None)).
      { rewrite Hsp, He. apply scanTreeEntry_short_more; auto. }
      pose proof (len_nonneg (bufio.pending s)).
      apply (Hread (bufio.mkScanner (bufio.r s) (bufio.split s) (bufio.maxTokenSize s)
                      None (bufio.buf_len s) (bufio.start s + 0)
                      (skipn (Z.to_nat 0) (bufio.pending s)) (bufio.err s)
                      (bufio.empties s) (bufio.done s))); auto.
      + apply (Scan_pass_none s 0 Hsplit); [lia|]. left. rewrite Hp. discriminate.
      + destruct HI as [Ha Hb]. unfold Inv, bufio.s_end in *. cbn. split; lia. }
  destruct es as [|[[mode name] id] es'].
  - (* no record is left *)
    unfold body in Hrem. simpl in Hrem. unfold rem in Hrem.
    apply app_eq_nil in Hrem as [Hp Hc].
    destruct Herr as [He | [He Hch]].
    + apply Hmore; auto; rewrite Hp; [|vm_compute; reflexivity].
      vm_compute. reflexivity.
    + assert (Hsplit : bufio.split s (bufio.pending s) (bufio.isSome (bufio.err s))
                       = (0, None, None)).
      { rewrite Hsp, He, Hp. reflexivity. }
      rewrite (Scan_pass_none s 0 Hsplit);
        [|rewrite Hp; unfold len; simpl; lia|right; congruence].
      unfold bufio.read_more. cbn [bufio.err]. rewrite He. cbn [bufio.isSome].
      cbv iota. eexists. split; reflexivity.
  - (* the next record *)
    inversion Hes as [|? ? Hrec Hes']; subst.
    unfold short_plain in Hrec. destruct Hrec as [Hplain Hshort].
    pose proof Hplain as (Hm0 & Hm & Hv32 & Hn0 & Hn' & Hid).
    pose proof (len_record mode name id Hid) as Hlr.
    pose proof (len_nonneg (mode ++ " "%byte :: name)) as Hpre.
    unfold body in Hrem. cbn [map concat encode] in Hrem.
    fold (body es') in Hrem. unfold rem in Hrem.
    destruct (Z_lt_le_dec (len (bufio.pending s)) (len (record mode name id)))
      as [Hlt|Hge].
    + (* not yet whole *)
      assert (He : bufio.err s = None).
      { destruct Herr as [He | [He Hch]]; auto. exfalso.
        assert (Hc : io.contents (bufio.r s) = [])
          by (unfold io.contents; rewrite Hch; reflexivity).
        rewrite Hc, app_nil_r in Hrem. rewrite Hrem, len_app in Hlt.
        pose proof (len_nonneg (body es')). lia. }
      apply Hmore; auto.
      * eapply record_part_short; eauto.
      * unfold bufio.MaxScanTokenSize. lia.
    + (* the record is at hand *)
      assert (Hp : exists rest, bufio.pending s = record mode name id ++ rest /\
                     rest ++ io.contents (bufio.r s) = body es').
      { exists (skipn (length (record mode name id)) (bufio.pending s)).
        assert (E : firstn (length (record mode name id)) (bufio.pending s)
                    = record mode name id).
        { assert (E1 : firstn (length (record mode name id))
                         (bufio.pending s ++ io.contents (bufio.r s))
                       = record mode name id).
          { rewrite Hrem, firstn_app, firstn_all, Nat.sub_diag. simpl. apply app_nil_r. }
          rewrite firstn_app in E1.
          replace (length (record mode name id) - length (bufio.pending s))%nat
            with 0%nat in E1 by (unfold len in Hge; lia).
          simpl in E1. rewrite app_nil_r in E1. exact E1. }
        split.
        - rewrite <- E at 1. symmetry. apply firstn_skipn.
        - assert (E2 : skipn (length (record mode name id))
                         (bufio.pending s ++ io.contents (bufio.r s)) = body es').
          { rewrite Hrem, skipn_app, skipn_all, Nat.sub_diag. reflexivity. }
          rewrite skipn_app in E2.
          replace (length (record mode name id) - length (bufio.pending s))%nat
            with 0%nat in E2 by (unfold len in Hge; lia).
          exact E2. }
      destruct Hp as (rest & Hp & Hrest).
      assert (Hsplit : bufio.split s (bufio.pending s) (bufio.isSome (bufio.err s))
                       = (len (record mode name id), Some (record mode name id), None)).
      { rewrite Hsp, Hp. apply scanTreeEntry_record; auto. }
      assert (Hskip : skipn (Z.to_nat (len (record mode name id))) (bufio.pending s) = rest).
      { rewrite Hp. unfold len. rewrite Nat2Z.id, skipn_app, skipn_all, Nat.sub_diag.
        reflexivity. }
      rewrite (Scan_pass_token s _ _ Hsplit) by lia.
      rewrite Hskip.
      eexists. split; [reflexivity|].
      cbn [bufio.token encode]. unfold rem. cbn [bufio.pending bufio.r].
      splits; auto.
      * unfold tree_state.
        cbn [bufio.r bufio.split bufio.maxTokenSize bufio.err bufio.done].
        splits; auto.
        destruct HI as [Ha Hb]. unfold Inv, bufio.s_end in *.
        cbn [bufio.start bufio.pending bufio.buf_len].
        rewrite Hp, len_app in Hb. split; lia.
      * unfold total. cbn [bufio.pending bufio.r]. rewrite Hp, length_app.
        unfold len in *. lia.
Qed.

Lemma parseTree_loop_records : forall fuel fs s t es,
  tree_state s -> Forall short_plain es -> rem s = body es ->
  (total s + Rbytes (bufio.r s) + 3 <= fuel)%nat ->
  parseTree_loop fuel fs s t
  = Returns (Some (add_entries t (map entry_of es)), None).
Proof.
  induction fuel as [|k IH]; intros fs s t es HT Hes Hrem Hf; [lia|].
  cbn [parseTree_loop]. unfold bufio.Scan.
  assert (Hdn : bufio.done s = false) by apply HT. rewrite Hdn.
  pose proof (need_bound s) as Hb.
  assert (Hn : (need s <= S k)%nat) by lia.
  pose proof (Scan_loop_records (S k) s es HT Hes Hrem Hn) as P.
  destruct es as [|[[mode name] id] es'].
  - destruct P as (s' & -> & He). rewrite He. simpl map.
    rewrite add_entries_nil. reflexivity.
  - destruct P as (s' & -> & Ht & HT' & Hr' & Htot & Hrb).
    inversion Hes as [|? ? Hrec Hes']; subst.
    unfold short_plain in Hrec. destruct Hrec as [Hplain Hshort].
    unfold bufio.Bytes. rewrite Ht. cbn [encode].
    rewrite parseTree_body_record by assumption.
    fold (add_entries t [mkEntry name (mode_value mode) (fmt.Sprintf_x id)]).
    rewrite (IH fs s' _ es'); auto; [|lia].
    rewrite add_entries_cons. reflexivity.
Qed.

(** ** Tree parsing *)

Example parseTree_two_entries :
  parseTree no_files t0 (io.mkReader [two_entries] io_EOF)
  = Returns (Some (mkTree c0 (lit "aa01")
                     [mkEntry (lit "a.txt") 100644 (fmt.Sprintf_x id1);
                      mkEntry (lit "sub") 40000 (fmt.Sprintf_x id2)]), None).
Proof. vm_compute. reflexivity. Qed.

Example parseTree_two_entries_byte_by_byte :
  parseTree no_files t0 (io.mkReader (map (fun b => [b]) two_entries) io_EOF)
  = Returns (Some (mkTree c0 (lit "aa01")
                     [mkEntry (lit "a.txt") 100644 (fmt.Sprintf_x id1);
                      mkEntry (lit "sub") 40000 (fmt.Sprintf_x id2)]), None).
Proof. vm_compute. reflexivity. Qed.

(** C1 (the code departs from the claim): the name of an entry is not the
    whole text between the first space and the null byte.  [%s] reads one
    space-delimited word, so the record [100644 a b\0<id>] yields the name
    [a], and it decodes and re-encodes runes, so the byte [0xff] in a name
    comes out as the three bytes of U+FFFD. *)
Theorem parseTree_name_is_one_word : forall fs t,
  parseTree fs t (io.mkReader [lit "100644 a b" ++ [x00] ++ id1] io_EOF)
  = Returns (Some (mkTree (Tree_Commit t) (Tree_id t)
                     (Entries t ++ [mkEntry (lit "a") 100644 (fmt.Sprintf_x id1)])),
             None)
  /\
  parseTree fs t (io.mkReader [lit "100644 n" ++ [xff; x00] ++ id1] io_EOF)
  = Returns (Some (mkTree (Tree_Commit t) (Tree_id t)
                     (Entries t
                      ++ [mkEntry (lit "n" ++ [xef; xbf; xbd]) 100644 (fmt.Sprintf_x id1)])),
             None).
Proof.
  intros fs t. rewrite !(parseTree_fs fs no_files). split; vm_compute; reflexivity.
Qed.

(** A stretch of 20 or more bytes without a null byte is handed out as a
    token of 20 bytes, whether or not more input follows. *)
Lemma scanTreeEntry_without_nul : forall data atEOF,
  ~ In x00 data -> 20 <= len data ->
  scanTreeEntry data atEOF = (20, Some (firstn 20 data), None).
Proof.
  intros data atEOF Hn Hl. unfold scanTreeEntry.
  replace (len data =? 0) with false by (symmetry; apply Z.eqb_neq; lia).
  rewrite andb_false_r. apply IndexByte_absent in Hn. rewrite Hn.
  change (-1 + 21) with 20.
  replace (20 <=? len data) with true by (symmetry; apply Z.leb_le; lia).
  reflexivity.
Qed.

(** C10 (the code departs from the claim): a token can be 20 bytes long.
    On a body of 20 bytes without a null byte [scanTreeEntry] emits all 20
    as a token, and [buf[:len(buf)-21]] panics. *)
Theorem parseTree_panics_without_nul : forall fs t,
  scanTreeEntry (repeat x61 20) false = (20, Some (repeat x61 20), None)
  /\
  parseTree fs t (io.mkReader [repeat x61 20] io_EOF)
  = Panics (slice_bounds_out_of_range 0 (-1) 20).
Proof. intros fs t. split; vm_compute; reflexivity. Qed.

(** A well-formed record whose name is long enough panics the same way
    when the reader delivers its first 20 bytes before the rest. *)
Example parseTree_panics_on_split_record : forall fs t,
  parseTree fs t
    (io.mkReader [lit "100644 a-name-of-some-length"; [x00] ++ id1] io_EOF)
  = Panics (slice_bounds_out_of_range 0 (-1) 20).
Proof. intros fs t. vm_compute. reflexivity. Qed.

(** C9 (the code departs from the claim): [readObject] returns without
    closing the file when [zlib.NewReader] or the header scan fails.  The
    descriptor opened for an object file that is no zlib stream is still
    open after the call; so is the one of a stream whose plain text is no
    header. *)
Theorem readObject_leaves_file_open : forall inflate,
  readObject inflate (files [(object_path (Root repo) (lit "cc01"), lit "garbage")])
    repo (lit "cc01") os.initial
  = (Returns (no_header, None, Some (errors_WithStack zlib_ErrHeader)),
     os.mkState 4 [3%nat])
  /\
  readObject stored (files [loose (lit "cc01") (lit "blob")]) repo (lit "cc01") os.initial
  = (Returns (no_header, None, Some (errors_Wrap io_EOF "cannot parse header")),
     os.mkState 4 [3%nat]).
Proof. intros inflate. split; vm_compute; reflexivity. Qed.



(** C8: a tree body of zero bytes parses to a tree without entries and
    without an error: at the end of the input with nothing pending the
    split function reports no token and no error, and [parseTree] returns
    the tree as it was, whether the reader reports the end at once or after
    some empty reads. *)
Theorem parseTree_empty_body : forall fs t n,
  (n <= 100)%nat ->
  scanTreeEntry [] true = (0, None, None)
  /\ parseTree fs t (io.mkReader (repeat [] n) io_EOF) = Returns (Some t, None).
Proof.
  intros fs t n Hn. split; [reflexivity|]. apply parseTree_empty; auto.
Qed.

Lemma parseTree_empty_body_witness :
  (0 <= 100)%nat
  /\ parseTree no_files t0 (io.mkReader [] io_EOF) = Returns (Some t0, None)
  /\ Entries t0 = [].
Proof.
  split; [lia|]. split; [|reflexivity].
  apply (parseTree_empty_body no_files t0 0). lia.
Defined.

(** The object [tree 0\0] read through the whole pipeline. *)
Example readTree_empty_tree :
  readTree stored (files [loose (lit "aa01") (lit "tree 0" ++ [x00])]) c0 (lit "aa01")
    os.initial
  = (Returns (Some (mkTree c0 (lit "aa01") []), None), os.mkState 4 []).
Proof. vm_compute. reflexivity. Qed.

(** C7: the entries of a parsed tree do not depend on the file system:
    [parseTree] stats the object file of each child and drops the answer.
    An entry whose object file is absent is found by name all the same,
    and resolving it fails at the open with the not-exist error. *)
Theorem parseTree_ignores_file_system :
  (forall fs fs' t r, parseTree fs t r = parseTree fs' t r)
  /\
  (forall inflate fs t name before e after st,
     Entries t = before ++ e :: after ->
     (forall e', In e' before -> Name e' <> name) -> Name e = name ->
     2 <= len (Entry_id e) ->
     fs (object_path (Tree_Root t) (Entry_id e)) = os.NoEntry ->
     Tree_Blob inflate fs t name st
     = (Returns (None,
                 Some (errors_WithStack
                         (os_PathError "open" (object_path (Tree_Root t) (Entry_id e))
                                       ENOENT))), st)
     /\
     Tree_Tree inflate fs t name st
     = (Returns (None,
                 Some (errors_WithStack
                         (os_PathError "open" (object_path (Tree_Root t) (Entry_id e))
                                       ENOENT))), st)).
Proof.
  split.
  - apply parseTree_fs.
  - intros inflate fs t name before e after st Ht Hb He Hl Hfs.
    unfold Tree_Blob, Tree_Tree. rewrite Ht.
    rewrite Blob_range_first, Tree_range_first by assumption.
    rewrite readBlob_absent, readTree_absent by assumption.
    split; reflexivity.
Qed.

Lemma parseTree_ignores_file_system_witness :
  parseTree no_files t0 (io.mkReader [two_entries] io_EOF)
  = parseTree (files [loose (fmt.Sprintf_x id1) (lit "blob 0" ++ [x00])]) t0
      (io.mkReader [two_entries] io_EOF)
  /\ parseTree no_files t0 (io.mkReader [two_entries] io_EOF)
     = Returns (Some two_entry_tree, None)
  /\ Tree_Blob stored no_files two_entry_tree (lit "sub") os.initial
     = (Returns (None,
                 Some (errors_WithStack
                         (os_PathError "open"
                            (object_path (lit "/r") (fmt.Sprintf_x id2)) ENOENT))),
        os.initial).
Proof.
  split; [apply (proj1 parseTree_ignores_file_system)|].
  split; [vm_compute; reflexivity|].
  apply (proj2 parseTree_ignores_file_system stored no_files two_entry_tree (lit "sub")
           [mkEntry (lit "a.txt") 100644 (fmt.Sprintf_x id1)]
           (mkEntry (lit "sub") 40000 (fmt.Sprintf_x id2)) [] os.initial).
  - reflexivity.
  - intros e' [<-|[]]. vm_compute. discriminate.
  - reflexivity.
  - vm_compute. discriminate.
  - reflexivity.
Defined.

(** ** Headers *)

Lemma known_kind_graphic : forall k, known_kind k ->
  exists k0 k', k = k0 :: k' /\ Forall graphic (k0 :: k').
Proof.
  intros k [-> | [-> | ->]]; eexists _, _; (split; [reflexivity|]);
    repeat (apply Forall_cons; [vm_compute; split; discriminate|]); apply Forall_nil.
Qed.

(** C3: on a correctly formed loose object, that is, plain text
    [<kind> <len(body)>\0<body>] with one of the three kinds and the length
    in decimal, [readObject] returns the kind and the length declared in
    the header, and the reader it hands back holds the body and nothing
    else: the scan read the header up to its null byte, the only one in
    it, and no byte beyond; [length] further bytes end the stream. *)
Theorem readObject_reads_exactly_the_header :
  forall inflate fs r sha st raw fr k body,
  2 <= len sha ->
  fs (object_path (Root r) sha) = os.Regular raw ->
  zlib.NewReader inflate raw = Ok fr ->
  io.final fr = io_EOF ->
  known_kind k -> len body < 2 ^ 63 ->
  io.contents fr = k ++ " "%byte :: strconv.Itoa (len body) ++ x00 :: body ->
  exists rc st',
    readObject inflate fs r sha st
    = (Returns (mkHeader k (len body), Some rc, None), st')
    /\ Reader rc
       = io.skip (length (k ++ " "%byte :: strconv.Itoa (len body) ++ [x00])) fr
    /\ ~ In x00 (k ++ " "%byte :: strconv.Itoa (len body))
    /\ io.contents (Reader rc) = body
    /\ io.final (Reader rc) = io_EOF
    /\ len (io.contents (Reader rc)) = len body.
Proof.
  intros inflate fs r sha st raw fr k body Hs Hfs Hz Hfin Hk Hb Hc.
  destruct (known_kind_graphic k Hk) as (k0 & k' & -> & Hg).
  destruct (Itoa_spec (len body) (len_nonneg body)) as (d0 & ds & Hi & Hd & Hv).
  assert (Hscan : fmt.Fscanf_s_d_nul (io.final fr) (io.contents fr)
                  = Ok (k0 :: k', len body, body)).
  { rewrite Hc, Hi. apply Fscanf_header_graphic; auto. }
  assert (Hlen : (length (io.contents fr) - length body
                  = length ((k0 :: k') ++ " "%byte :: strconv.Itoa (len body) ++ [x00]))%nat).
  { rewrite Hc. rewrite !length_app. cbn [length]. rewrite !length_app. cbn [length]. lia. }
  eexists _, _. split.
  - apply (readObject_scanned inflate fs r sha st raw fr _ _ _ Hs Hfs Hz Hscan).
  - cbn [Reader]. rewrite Hlen. splits.
    + reflexivity.
    + rewrite Hi. intros Hin. apply in_app_or in Hin as [Hin|[Hin|Hin]].
      * revert Hin. apply graphic_not_nul; auto.
      * discriminate.
      * revert Hin. apply graphic_not_nul.
        eapply Forall_impl; [|exact Hd]. apply graphic_digit.
    + rewrite contents_skip, Hc.
      replace ((k0 :: k') ++ " "%byte :: strconv.Itoa (len body) ++ x00 :: body)
        with (((k0 :: k') ++ " "%byte :: strconv.Itoa (len body) ++ [x00]) ++ body).
      * rewrite skipn_app, skipn_all, Nat.sub_diag. reflexivity.
      * rewrite <- !app_assoc. cbn [app]. rewrite <- !app_assoc. reflexivity.
    + cbn [io.skip io.final]. assumption.
    + rewrite contents_skip, Hc.
      replace ((k0 :: k') ++ " "%byte :: strconv.Itoa (len body) ++ x00 :: body)
        with (((k0 :: k') ++ " "%byte :: strconv.Itoa (len body) ++ [x00]) ++ body).
      * rewrite skipn_app, skipn_all, Nat.sub_diag. reflexivity.
      * rewrite <- !app_assoc. cbn [app]. rewrite <- !app_assoc. reflexivity.
Qed.

Lemma readObject_reads_exactly_the_header_witness :
  2 <= len (lit "bb01")
  /\ known_kind (lit "blob")
  /\ len (lit "world") < 2 ^ 63
  /\ exists rc st',
       readObject stored (files [loose (lit "bb01") hello_blob]) repo (lit "bb01")
         os.initial
       = (Returns (mkHeader (lit "blob") 5, Some rc, None), st')
       /\ io.contents (Reader rc) = lit "world".
Proof.
  split; [vm_compute; discriminate|].
  split; [left; reflexivity|].
  split; [vm_compute; reflexivity|].
  destruct (readObject_reads_exactly_the_header stored
              (files [loose (lit "bb01") hello_blob]) repo (lit "bb01") os.initial
              (zlib_header ++ hello_blob) (stored hello_blob) (lit "blob") (lit "world"))
    as (rc & st' & H1 & _ & _ & H4 & _).
  - vm_compute. discriminate.
  - reflexivity.
  - reflexivity.
  - reflexivity.
  - left. reflexivity.
  - vm_compute. reflexivity.
  - reflexivity.
  - exists rc, st'. split; [exact H1|exact H4].
Defined.




(** The length may carry a sign: [blob -5\0] scans as a length of [-5]. *)
Example readObject_accepts_negative_length :
  exists rc st',
    readObject stored (files [loose (lit "dd02") (lit "blob -5" ++ [x00])]) repo
      (lit "dd02") os.initial
    = (Returns (mkHeader (lit "blob") (-5), Some rc, None), st').
Proof. eexists _, _. vm_compute. reflexivity. Qed.


(** C5: [Tree.Blob] and [Tree.Tree] walk the entries in order and compare
    names for equality.  Without an entry of that name they fail with the
    not-exist path error; otherwise the first entry of that name decides:
    its object is read, and a header of another kind is an expected-kind
    error. *)
Theorem Tree_lookup_takes_first_match : forall inflate fs t name,
  ((forall e, In e (Entries t) -> Name e <> name) ->
     Tree_Blob inflate fs t name
       = ret (None, Some (os_PathError "open" [name] ErrNotExist))
     /\ Tree_Tree inflate fs t name
       = ret (None, Some (os_PathError "open" [name] ErrNotExist)))
  /\
  (forall before e after,
     Entries t = before ++ e :: after ->
     (forall e', In e' before -> Name e' <> name) -> Name e = name ->
     Tree_Blob inflate fs t name = readBlob inflate fs t (Entry_id e)
     /\ Tree_Tree inflate fs t name = readTree inflate fs (Tree_Commit t) (Entry_id e))
  /\
  (forall sha st h rc st',
     readObject inflate fs (Commit_Repository (Tree_Commit t)) sha st
       = (Returns (h, Some rc, None), st') ->
     (kind h <> lit "blob" ->
      readBlob inflate fs t sha st
      = (Returns (None, Some (errors_Errorf "expected blob, got %q" (kind h))), st'))
     /\
     (kind h = lit "blob" ->
      readBlob inflate fs t sha st = (Returns (Some (mkBlob (length_ h) rc), None), st'))
     /\
     (kind h <> lit "tree" ->
      readTree inflate fs (Tree_Commit t) sha st
      = (Returns (None, Some (errors_Errorf "expected tree, got %q" (kind h))),
         os.Close (Closer rc) st'))).
Proof.
  intros inflate fs t name. splits.
  - intros Hn. unfold Tree_Blob, Tree_Tree.
    rewrite Blob_range_none, Tree_range_none by assumption. split; reflexivity.
  - intros before e after Ht Hb He. unfold Tree_Blob, Tree_Tree. rewrite Ht.
    rewrite Blob_range_first, Tree_range_first by assumption. split; reflexivity.
  - intros sha st h rc st' Hr. splits.
    + intros. eapply readBlob_wrong_kind; eauto.
    + intros Hk. unfold readBlob. rewrite Hr, Hk. reflexivity.
    + intros. eapply readTree_wrong_kind; eauto.
Qed.

Lemma Tree_lookup_takes_first_match_witness :
  Tree_Blob stored some_files twice_f (lit "f")
  = readBlob stored some_files twice_f (lit "bb01")
  /\ (exists b st',
        Tree_Blob stored some_files twice_f (lit "f") os.initial
        = (Returns (Some b, None), st') /\ Size b = 5)
  /\ Tree_Blob stored some_files twice_f (lit "g") os.initial
     = (Returns (None, Some (os_PathError "open" [lit "g"] ErrNotExist)), os.initial).
Proof.
  destruct (Tree_lookup_takes_first_match stored some_files twice_f (lit "f"))
    as (_ & H2 & _).
  destruct (Tree_lookup_takes_first_match stored some_files twice_f (lit "g"))
    as (H1 & _ & _).
  split.
  - apply (H2 [mkEntry (lit "e") 100644 (lit "ee01")]
              (mkEntry (lit "f") 100644 (lit "bb01"))
              [mkEntry (lit "f") 100644 (lit "dd01")]).
    + reflexivity.
    + intros e' [<-|[]]. vm_compute. discriminate.
    + reflexivity.
  - split.
    + eexists _, _. vm_compute. split; reflexivity.
    + destruct H1 as [H1 _].
      * intros e [<-|[<-|[<-|[]]]]; vm_compute; discriminate.
      * rewrite H1. reflexivity.
Defined.

Lemma short_lines_small : forall limit data, len data < limit -> short_lines limit data.
Proof.
  intros limit data H pre mid post -> _. rewrite !len_app in H.
  pose proof (len_nonneg pre). pose proof (len_nonneg post). lia.
Qed.



(** A message line that starts with [tree ] replaces the tree id of the
    header: the last such line wins. *)
Example parseCommit_last_tree_line :
  parseCommit (mkCommit repo [] (lit "cc01"))
    (io.mkReader [lit "tree aa01" ++ [x0a; x0a] ++ lit "tree shaking" ++ [x0a]] io_EOF)
  = Returns (Some (mkCommit repo (lit "shaking") (lit "cc01")), None).
Proof. vm_compute. reflexivity. Qed.

(** ** Tree bodies read back *)

(** X1: [parseTree] on a body made of records [<mode> <name>\0<id>] whose
    mode is a decimal number below 2^32, whose name is printable ASCII
    without a space, and whose text before the null byte is shorter than
    20 bytes: for every reader that delivers the body in non-empty reads
    and ends in [io_EOF], however it cuts the body, the result is the tree
    with one entry per record appended, in the order of the records, and
    no error. *)
Theorem parseTree_reads_plain_records : forall fs t r es,
  io.final r = io_EOF -> nonempty_chunks r ->
  Forall short_plain es -> io.contents r = body es ->
  parseTree fs t r = Returns (Some (add_entries t (map entry_of es)), None).
Proof.
  intros fs t r es Hf Hne Hes Hc. unfold parseTree.
  apply parseTree_loop_records; auto.
  - unfold tree_state. simpl. splits; auto.
    apply (NewScanner_Inv r).
  - unfold total, bufio.budget, Rbytes. simpl. lia.
Qed.

Lemma parseTree_reads_plain_records_witness :
  parseTree no_files t0 (io.mkReader (map (fun b => [b]) two_entries) io_EOF)
  = Returns (Some two_entry_tree, None).
Proof.
  apply (parseTree_reads_plain_records no_files t0
           (io.mkReader (map (fun b => [b]) two_entries) io_EOF)
           [(lit "100644", lit "a.txt", id1); (lit "40000", lit "sub", id2)]).
  - reflexivity.
  - unfold nonempty_chunks.
    repeat (apply Forall_cons; [discriminate|]). apply Forall_nil.
  - repeat (apply Forall_cons; [|]); [| |apply Forall_nil].
    all: split; [|vm_compute; reflexivity].
    all: unfold plain_record; splits;
      [ discriminate
      | repeat (apply Forall_cons; [vm_compute; split; discriminate|]); apply Forall_nil
      | vm_compute; reflexivity
      | discriminate
      | repeat (apply Forall_cons; [vm_compute; split; discriminate|]); apply Forall_nil
      | reflexivity ].
  - reflexivity.
Defined.

(** X2: [parseTree] comes to an end on every reader and every tree: with
    the step budget of its reader it returns or it panics, it never runs
    on. *)
Theorem parseTree_returns_or_panics : forall fs t r,
  (exists v, parseTree fs t r = Returns v) \/ (exists p, parseTree fs t r = Panics p).
Proof.
  intros fs t r.
  assert (H : parseTree fs t r <> OutOfFuel).
  { unfold parseTree. apply parseTree_loop_total.
    - apply NewScanner_Inv.
    - reflexivity.
    - reflexivity.
    - unfold total, bufio.budget, Rbytes. simpl. lia. }
  destruct (parseTree fs t r) as [v|p|]; [left; eauto|right; eauto|congruence].
Qed.

(** ** What [parseTree] makes of any input *)

Lemma slice_len : forall s lo hi x, slice s lo hi = Returns x -> len x = hi - lo.
Proof.
  intros s lo hi x H. unfold slice in H.
  destruct ((0 <=? lo) && (lo <=? hi) && (hi <=? len s)) eqn:E; [|discriminate].
  apply andb_true_iff in E as [E E3]. apply andb_true_iff in E as [E1 E2].
  apply Z.leb_le in E1, E2, E3. inversion H; subst.
  unfold len in *. rewrite length_firstn, length_skipn. lia.
Qed.

Lemma hex_digit_lower : forall v, 0 <= v < 16 -> lower_hex (fmt.hex_digit v).
Proof.
  intros v Hv. unfold lower_hex, fmt.hex_digit. apply nth_In.
  change (length fmt.ldigits) with 16%nat. lia.
Qed.

Lemma Sprintf_x_length : forall s, length (fmt.Sprintf_x s) = (2 * length s)%nat.
Proof. induction s as [|b s IH]; simpl; [reflexivity|]. rewrite IH. lia. Qed.

Lemma Sprintf_x_lower : forall s, Forall lower_hex (fmt.Sprintf_x s).
Proof.
  induction s as [|b s IH]; simpl; [constructor|].
  pose proof (byte_val_range b) as Hb.
  constructor; [|constructor; [|exact IH]]; apply hex_digit_lower.
  - rewrite Z.shiftr_div_pow2 by lia.
    pose proof (Z.div_mod (byte_val b) (2 ^ 4) ltac:(lia)).
    pose proof (Z.mod_pos_bound (byte_val b) (2 ^ 4) ltac:(lia)).
    change (2 ^ 4) with 16 in *. lia.
  - change 15 with (Z.ones 4). rewrite Z.land_ones by lia.
    apply Z.mod_pos_bound. lia.
Qed.

(** *** Runes and their encoding *)

Lemma DecodeRune_bounds : forall b t,
  0 <= fst (utf8.DecodeRune (b :: t))
  /\ (1 <= snd (utf8.DecodeRune (b :: t)))%nat.
Proof.
  intros b t. pose proof (byte_val_range b) as Hb.
  assert (Hc : forall x, 0 <= utf8.cont x).
  { intros x. unfold utf8.cont. apply Z.land_nonneg. right. lia. }
  assert (Hs : forall x k, 0 <= x -> 0 <= Z.shiftl x k).
  { intros x k Hx. apply Z.shiftl_nonneg. exact Hx. }
  assert (Hl : forall m, 0 <= m -> 0 <= Z.land (byte_val b) m).
  { intros m Hm. apply Z.land_nonneg. right. exact Hm. }
  unfold utf8.DecodeRune.
  destruct (utf8.first (byte_val b)) as [| |sz lo hi];
    [cbn; lia|cbn; unfold utf8.RuneError; lia|].
  repeat match goal with
  | |- context [if ?c then _ else _] => destruct c
  | |- context [match ?l with [] => _ | _ :: _ => _ end] => destruct l
  end; cbn [fst snd]; unfold utf8.RuneError; split; try lia.
  all: repeat (apply Z.lor_nonneg; split); auto; apply Hs; auto; apply Hl; lia.
Qed.

Lemma getRune_cons : forall fin b t,
  exists r rest, fmt.getRune fin (b :: t) = Ok (r, rest) /\ 0 <= r
    /\ (length rest < length (b :: t))%nat.
Proof.
  intros fin b t. unfold fmt.getRune.
  destruct (DecodeRune_bounds b t) as [H1 H2].
  destruct (utf8.DecodeRune (b :: t)) as [r n]. cbn [fst snd] in *.
  exists r, (skipn n (b :: t)). split; [reflexivity|]. split; [assumption|].
  rewrite length_skipn. cbn [length]. lia.
Qed.

Lemma byte_val_byte_of_Z : forall z, byte_val (byte_of_Z z) = z mod 256.
Proof.
  intros z. pose proof (Z.mod_pos_bound z 256 ltac:(lia)) as H.
  rewrite <- (byte_val_of_Z (z mod 256)) by lia.
  unfold byte_of_Z. rewrite Z.mod_mod by lia. reflexivity.
Qed.

(** A byte with its top bit set is no ASCII space. *)
Lemma asciiSpace_high : forall z,
  Z.testbit z 7 = true -> strings.asciiSpace (byte_of_Z z) = false.
Proof.
  intros z Hz. unfold strings.asciiSpace. rewrite byte_val_byte_of_Z.
  pose proof (Z.mod_pos_bound z 256 ltac:(lia)) as Hm.
  assert (H128 : 128 <= z mod 256).
  { destruct (Z_lt_le_dec (z mod 256) 128) as [L|L]; [|exact L]. exfalso.
    assert (T : Z.testbit (z mod 256) 7 = true).
    { change 256 with (2 ^ 8). rewrite Z.mod_pow2_bits_low by lia. exact Hz. }
    rewrite <- (Z.mod_small (z mod 256) (2 ^ 7)) in T by (change (2 ^ 7) with 128; lia).
    rewrite Z.mod_pow2_bits_high in T by lia. discriminate. }
  replace (z mod 256 <=? 13) with false by (symmetry; apply Z.leb_gt; lia).
  replace (z mod 256 =? 32) with false by (symmetry; apply Z.eqb_neq; lia).
  rewrite andb_false_r. reflexivity.
Qed.

Lemma lor_high : forall c x, Z.testbit c 7 = true -> Z.testbit (Z.lor c x) 7 = true.
Proof. intros c x H. rewrite Z.lor_spec, H. reflexivity. Qed.

Lemma AppendRune_app : forall buf r,
  utf8.AppendRune buf r = buf ++ utf8.AppendRune [] r.
Proof.
  intros buf r. unfold utf8.AppendRune.
  repeat match goal with |- context [if ?c then _ else _] => destruct c end;
    reflexivity.
Qed.

Lemma AppendRune_nonempty : forall r, utf8.AppendRune [] r <> [].
Proof.
  intros r. unfold utf8.AppendRune.
  repeat match goal with |- context [if ?c then _ else _] => destruct c end;
    discriminate.
Qed.

(** The encoding of a rune that is no space holds no ASCII space. *)
Lemma AppendRune_no_space : forall r,
  fmt.isSpace r = false ->
  Forall (fun b => strings.asciiSpace b = false) (utf8.AppendRune [] r).
Proof.
  intros r Hr. unfold utf8.AppendRune, utf8.tx.
  destruct ((0 <=? r) && (r <=? 127)) eqn:E1.
  - apply andb_true_iff in E1 as [A B]. apply Z.leb_le in A, B.
    constructor; [|constructor].
    unfold strings.asciiSpace. rewrite byte_val_of_Z by lia.
    unfold fmt.isSpace in Hr.
    replace (65536 <=? r) with false in Hr by (symmetry; apply Z.leb_gt; lia).
    rewrite Z.mod_small in Hr by lia.
    repeat (apply orb_false_elim in Hr as [Hr ?]).
    rewrite Hr. assumption.
  - repeat match goal with |- context [if ?c then _ else _] => destruct c end;
      cbn [app]; repeat (constructor; [apply asciiSpace_high, lor_high; reflexivity|]);
      constructor.
Qed.

(** *** What a scanned word and a scanned number look like *)

Lemma SkipSpace_loop_stops : forall fin fuel inp out,
  (length inp < fuel)%nat ->
  fmt.SkipSpace_loop fin fuel inp = inr out -> out = [] \/ at_word fin out.
Proof.
  induction fuel as [|k IH]; intros inp out Hf H; [lia|].
  cbn [fmt.SkipSpace_loop] in H.
  destruct inp as [|b t].
  - unfold fmt.getRune in H. destruct fin; try discriminate.
    cbn in H. inversion H. left; reflexivity.
  - destruct (getRune_cons fin b t) as (r & rest & Hg & Hr & Hl).
    rewrite Hg in H. unfold Ok in H. cbn [bindR] in H.
    replace (r =? fmt.eof) with false in H
      by (symmetry; apply Z.eqb_neq; unfold fmt.eof; lia).
    apply bindR_inr in H as (c & _ & H).
    assert (Hk : (length rest < k)%nat) by (simpl in Hf, Hl; simpl; lia).
    destruct c; [eapply IH; eauto|].
    destruct (r =? 10); [discriminate|].
    destruct (fmt.isSpace r) eqn:Es; cbn [negb] in H.
    + eapply IH; eauto.
    + inversion H; subst. right. exists r, rest. split; [exact Hg|].
      split; [unfold fmt.eof; lia|exact Es].
Qed.

Lemma SkipSpace_stops : forall fin inp out,
  fmt.SkipSpace fin inp = inr out -> out = [] \/ at_word fin out.
Proof. intros fin inp out H. eapply SkipSpace_loop_stops; [|exact H]. lia. Qed.

Lemma SkipSpace_at_word : forall fin inp,
  at_word fin inp -> fmt.SkipSpace fin inp = Ok inp.
Proof.
  intros fin inp (r & rest & Hg & He & Hs).
  unfold fmt.SkipSpace. cbn [fmt.SkipSpace_loop]. rewrite Hg.
  unfold Ok. cbn [bindR].
  replace (r =? fmt.eof) with false by (symmetry; apply Z.eqb_neq; exact He).
  assert (H13 : (r =? 13) = false).
  { destruct (r =? 13) eqn:E; [|reflexivity]. apply Z.eqb_eq in E. subst r.
    discriminate. }
  assert (H10 : (r =? 10) = false).
  { destruct (r =? 10) eqn:E; [|reflexivity]. apply Z.eqb_eq in E. subst r.
    discriminate. }
  rewrite H13. cbn [bindR]. rewrite H10, Hs. reflexivity.
Qed.

(** The loop of [token] for [%s] only adds encodings of runes that are
    no spaces. *)
Lemma token_loop_no_space : forall fin fuel buf inp b out,
  fmt.token_loop fin fmt.notSpace fuel buf inp = inr (b, out) ->
  exists ext, b = buf ++ ext /\ Forall (fun c => strings.asciiSpace c = false) ext.
Proof.
  induction fuel as [|k IH]; intros buf inp b out H; cbn [fmt.token_loop] in H.
  - inversion H; subst. exists []. rewrite app_nil_r. auto.
  - apply bindR_inr in H as ([r rest] & Hg & H).
    destruct (r =? fmt.eof).
    { inversion H; subst. exists []. rewrite app_nil_r. auto. }
    unfold fmt.notSpace in H at 1.
    destruct (fmt.isSpace r) eqn:Es; cbn [negb] in H.
    { inversion H; subst. exists []. rewrite app_nil_r. auto. }
    apply IH in H as (ext & -> & Hext).
    rewrite AppendRune_app, <- app_assoc.
    eexists. split; [reflexivity|].
    apply Forall_app. split; [apply AppendRune_no_space; exact Es|exact Hext].
Qed.

(** A word scanned by [%s] is not empty and holds no ASCII space. *)
Lemma convertString_word : forall fin inp s out,
  fmt.convertString fin inp = inr (s, out) ->
  s <> [] /\ Forall (fun c => strings.asciiSpace c = false) s.
Proof.
  intros fin inp s out H. unfold fmt.convertString in H.
  apply bindR_inr in H as (i1 & H1 & H).
  apply bindR_inr in H as (u & Hn & H).
  apply SkipSpace_stops in H1 as [-> | Hw].
  { exfalso. unfold fmt.notEOF, fmt.getRune in Hn.
    destruct fin; cbn in Hn; discriminate. }
  unfold fmt.token in H. rewrite (SkipSpace_at_word fin i1 Hw) in H.
  unfold Ok in H. cbn [bindR] in H.
  destruct Hw as (r & rest & Hg & He & Hs).
  cbn [fmt.token_loop] in H. rewrite Hg in H. unfold Ok in H. cbn [bindR] in H.
  replace (r =? fmt.eof) with false in H by (symmetry; apply Z.eqb_neq; exact He).
  unfold fmt.notSpace in H at 1. rewrite Hs in H. cbn [negb] in H.
  apply token_loop_no_space in H as (ext & -> & Hext).
  split.
  - intro E. apply app_eq_nil in E as [E _]. revert E. apply AppendRune_nonempty.
  - apply Forall_app. split; [apply AppendRune_no_space; exact Hs|exact Hext].
Qed.

Lemma ParseUint_nonneg : forall tok bits v,
  strconv.ParseUint tok bits = inr v -> 0 <= v.
Proof.
  intros tok bits v H. unfold strconv.ParseUint in H.
  destruct tok as [|b tok]; [discriminate|].
  destruct (strconv.digits_value 0 (b :: tok)) as [un|] eqn:E; [|discriminate].
  destruct (un <? 2 ^ bits); inversion H; subst.
  eapply digits_value_nonneg; [|exact E]. lia.
Qed.

(** A number scanned by [%d] into a [uint32] fits 32 bits. *)
Lemma scanUint_range : forall fin bits inp v out,
  fmt.scanUint fin bits inp = inr (v, out) -> 0 <= v < 2 ^ bits.
Proof.
  intros fin bits inp v out H. unfold fmt.scanUint in H.
  apply bindR_inr in H as (i1 & _ & H).
  apply bindR_inr in H as (u & _ & H).
  apply bindR_inr in H as ([tok i2] & _ & H).
  apply bindR_inr in H as (i & Hp & H).
  apply ParseUint_nonneg in Hp.
  destruct (i <? 2 ^ bits) eqn:E; inversion H; subst.
  apply Z.ltb_lt in E. lia.
Qed.

Lemma Fscanf_d_s_fields : forall fin inp mode name,
  fmt.Fscanf_d_s fin inp = inr (mode, name) ->
  0 <= mode < 2 ^ 32
  /\ name <> [] /\ Forall (fun c => strings.asciiSpace c = false) name.
Proof.
  intros fin inp mode name H. unfold fmt.Fscanf_d_s in H.
  apply bindR_inr in H as (i1 & _ & H).
  apply bindR_inr in H as ([m i2] & Hm & H).
  apply bindR_inr in H as (i3 & _ & H).
  apply bindR_inr in H as (i4 & _ & H).
  apply bindR_inr in H as ([n i5] & Hn & H).
  inversion H; subst.
  apply scanUint_range in Hm. apply convertString_word in Hn. tauto.
Qed.

(** One turn of the loop keeps the tree's commit and id and appends one
    entry of the expected shape. *)
Lemma parseTree_body_appends : forall fs t buf t',
  parseTree_body fs t buf = Returns (inl t') ->
  exists e, t' = add_entries t [e] /\ parsed_entry e.
Proof.
  intros fs t buf t' H. unfold parseTree_body in H.
  destruct (slice buf 0 (len buf - 21)) as [buf'| |] eqn:S1; try discriminate.
  cbn [bindO] in H.
  destruct (slice buf (len buf - 20) (len buf)) as [sha| |] eqn:S2; try discriminate.
  cbn [bindO] in H.
  destruct (fmt.Fscanf_d_s io_EOF buf') as [e|[mode name]] eqn:F; [discriminate|].
  destruct (slice sha 0 2) as [h| |]; try discriminate. cbn [bindO] in H.
  destruct (slice sha 2 (len sha)) as [tl| |]; try discriminate. cbn [bindO] in H.
  assert (T : t' = add_entries t [mkEntry name mode (fmt.Sprintf_x sha)]).
  { destruct (os.IsNotExist _) in H; inversion H; reflexivity. }
  eexists. split; [exact T|].
  apply Fscanf_d_s_fields in F as (Hm & Hn & Hs).
  apply slice_len in S2.
  unfold parsed_entry. cbn [Mode Entry_id Name].
  split; [exact Hm|]. split; [|split; [apply Sprintf_x_lower|split; assumption]].
  rewrite Sprintf_x_length. unfold len in S2. lia.
Qed.

Lemma parseTree_loop_appends : forall fuel fs sc t t' e,
  parseTree_loop fuel fs sc t = Returns (Some t', e) ->
  exists es, t' = add_entries t es /\ Forall parsed_entry es.
Proof.
  induction fuel as [|k IH]; intros fs sc t t' e H; [discriminate|].
  cbn [parseTree_loop] in H.
  destruct (bufio.Scan (S k) sc) as [[[|] sc']| |]; try discriminate.
  - destruct (parseTree_body fs t (bufio.Bytes sc')) as [[t1|e1]| |] eqn:B;
      try discriminate.
    apply parseTree_body_appends in B as (e1 & -> & He1).
    apply IH in H as (es & -> & Hes).
    exists (e1 :: es). rewrite add_entries_cons. split; [reflexivity|].
    constructor; assumption.
  - inversion H; subst. exists []. rewrite add_entries_nil. auto.
Qed.

(** ** Descriptors *)

Lemma readObject_opened : forall inflate fs r sha st h rc st1,
  readObject inflate fs r sha st = (Returns (h, Some rc, None), st1) ->
  2 <= len sha
  /\ exists raw,
       fs (object_path (Root r) sha) = os.Regular raw
       /\ Closer rc = os.mkFile (os.next_fd st) raw
       /\ st1 = os.mkState (S (os.next_fd st)) (os.next_fd st :: os.open_fds st).
Proof.
  intros inflate fs r sha st h rc st1 H.
  assert (Hs : 2 <= len sha).
  { destruct (Z_lt_le_dec (len sha) 2) as [L|L]; [|exact L]. exfalso.
    unfold readObject, slice in H.
    replace ((0 <=? 0) && (0 <=? 2) && (2 <=? len sha)) with false in H
      by (symmetry; rewrite andb_false_iff; right; apply Z.leb_gt; lia).
    discriminate. }
  split; [exact Hs|].
  unfold readObject in H. destruct (sha_slices sha Hs) as [E1 E2].
  rewrite E1, E2 in H. cbv beta iota in H. unfold os.Open in H.
  match type of H with context [fs ?p] =>
    change p with (object_path (Root r) sha) in H end.
  destruct (fs (object_path (Root r) sha)) as [| |raw] eqn:F; try discriminate.
  exists raw. split; [reflexivity|].
  unfold Ok in H. cbv beta iota in H. cbn [os.data] in H.
  destruct (zlib.NewReader inflate raw) as [e|fr]; [discriminate|].
  destruct (fmt.Fscanf_s_d_nul (io.final fr) (io.contents fr)) as [e|[[k n] rest]];
    [discriminate|].
  inversion H; subst. split; reflexivity.
Qed.

Lemma Close_opened : forall st raw n,
  fresh st ->
  os.Close (os.mkFile (os.next_fd st) raw)
           (os.mkState n (os.next_fd st :: os.open_fds st))
  = os.mkState n (os.open_fds st).
Proof.
  intros st raw n Hf. unfold os.Close. cbn [os.next_fd os.open_fds os.fd filter].
  rewrite Nat.eqb_refl. cbn [negb]. f_equal.
  unfold fresh in Hf. induction (os.open_fds st) as [|d ds IH]; [reflexivity|].
  inversion Hf as [|? ? Hd Hds]; subst. cbn [filter].
  replace (d =? os.next_fd st)%nat with false by (symmetry; apply Nat.eqb_neq; lia).
  cbn [negb]. f_equal. apply IH. exact Hds.
Qed.

(** ** Ids too short to name an object *)

Lemma readObject_short_id : forall inflate fs r sha st,
  len sha < 2 ->
  readObject inflate fs r sha st
  = (Panics (slice_bounds_out_of_range 0 2 (len sha)), st).
Proof.
  intros inflate fs r sha st H. unfold readObject, slice.
  replace ((0 <=? 0) && (0 <=? 2) && (2 <=? len sha)) with false
    by (symmetry; rewrite andb_false_iff; right; apply Z.leb_gt; lia).
  reflexivity.
Qed.

(** ** Objects that are as they should be *)

Lemma skip_chunks_nonempty : forall n cs,
  Forall (fun c : bytes => c <> []) cs ->
  Forall (fun c : bytes => c <> []) (io.skip_chunks n cs).
Proof.
  intros n cs H. revert n. induction H as [|c cs Hc Hcs IH]; intros n; simpl.
  - constructor.
  - destruct (n =? 0)%nat; [constructor; assumption|].
    destruct (length c <=? n)%nat eqn:E; [apply IH|].
    apply Nat.leb_gt in E. constructor; [|assumption].
    intro K. apply (f_equal (@length byte)) in K. rewrite length_skipn in K.
    simpl in K. lia.
Qed.

(** [readObject] on such an object: the header, and a reader of [text]. *)
Lemma readObject_loose : forall inflate fs r sha st k0 k n text,
  2 <= len sha -> Forall graphic (k0 :: k) -> 0 <= n < 2 ^ 63 ->
  loose_object inflate fs (Root r) sha (k0 :: k) n text ->
  exists rc,
    readObject inflate fs r sha st
    = (Returns (mkHeader (k0 :: k) n, Some rc, None),
       os.mkState (S (os.next_fd st)) (os.next_fd st :: os.open_fds st))
    /\ (exists raw, Closer rc = os.mkFile (os.next_fd st) raw)
    /\ io.contents (Reader rc) = text /\ io.final (Reader rc) = io_EOF
    /\ nonempty_chunks (Reader rc).
Proof.
  intros inflate fs r sha st k0 k n text Hs Hk Hn (raw & fr & Hfs & Hz & Hf & Hne & Hc).
  destruct (Itoa_spec n ltac:(lia)) as (d0 & ds & Hi & Hd & Hv).
  rewrite Hi in Hc.
  assert (Hscan : fmt.Fscanf_s_d_nul (io.final fr) (io.contents fr)
                  = Ok (k0 :: k, n, text)).
  { rewrite Hc. apply Fscanf_header_graphic; auto. lia. }
  rewrite (readObject_scanned inflate fs r sha st raw fr (k0 :: k) n text Hs Hfs Hz Hscan).
  eexists. split; [reflexivity|]. cbn [Closer Reader].
  split; [eexists; reflexivity|].
  split; [|split].
  - rewrite contents_skip, Hc.
    set (hd := (k0 :: k) ++ " "%byte :: (d0 :: ds) ++ [x00]).
    replace ((k0 :: k) ++ " "%byte :: (d0 :: ds) ++ x00 :: text) with (hd ++ text)
      by (unfold hd; rewrite <- !app_assoc; cbn [app]; rewrite <- !app_assoc;
          reflexivity).
    rewrite length_app.
    replace (length hd + length text - length text)%nat with (length hd) by lia.
    rewrite skipn_app, skipn_all, Nat.sub_diag. reflexivity.
  - exact Hf.
  - unfold nonempty_chunks, io.skip. cbn [io.chunks].
    apply skip_chunks_nonempty. exact Hne.
Qed.

Lemma parseTree_plain_body : forall fs t r es,
  io.final r = io_EOF -> nonempty_chunks r ->
  Forall short_plain es -> io.contents r = body es ->
  parseTree fs t r = Returns (Some (add_entries t (map entry_of es)), None).
Proof.
  intros fs t r es Hf Hne Hes Hc. unfold parseTree.
  apply parseTree_loop_records; auto.
  - unfold tree_state. simpl. splits; auto.
    apply (NewScanner_Inv r).
  - unfold total, bufio.budget, Rbytes. simpl. lia.
Qed.

Lemma graphic_commit : Forall graphic (lit "commit").
Proof. repeat (apply Forall_cons; [vm_compute; split; discriminate|]); apply Forall_nil. Qed.

Lemma graphic_tree : Forall graphic (lit "tree").
Proof. repeat (apply Forall_cons; [vm_compute; split; discriminate|]); apply Forall_nil. Qed.

(** [readCommit] on a sound commit object: the fold of the tree-line rule
    over the lines of its text, and the descriptor closed. *)
Lemma readCommit_loose : forall inflate fs r sha st n text,
  fresh st -> 2 <= len sha -> 0 <= n < 2 ^ 63 ->
  loose_object inflate fs (Root r) sha (lit "commit") n text ->
  short_lines bufio.MaxScanTokenSize text ->
  readCommit inflate fs r sha st
  = (Returns (Some (fold_left commit_line (lines text) (mkCommit r [] sha)), None),
     os.mkState (S (os.next_fd st)) (os.open_fds st)).
Proof.
  intros inflate fs r sha st n text Hfr Hs Hn Hobj Hshort.
  destruct (readObject_loose inflate fs r sha st _ _ n text Hs graphic_commit Hn Hobj)
    as (rc & Hro & (raw & Hcl) & Hc & Hf & Hne).
  unfold readCommit. rewrite Hro. unfold defer_Close. cbn [kind].
  match goal with |- context [bytes_eqb ?a ?b] =>
    replace (bytes_eqb a b) with true by (vm_compute; reflexivity) end.
  cbn [negb]. cbv beta iota. rewrite Hcl, Close_opened by assumption.
  rewrite parseCommit_lines; [|assumption|assumption|rewrite Hc; assumption].
  rewrite Hc. reflexivity.
Qed.

(** [readTree] on a sound tree object of short plain records. *)
Lemma readTree_loose : forall inflate fs c sha st n es,
  fresh st -> 2 <= len sha -> 0 <= n < 2 ^ 63 ->
  loose_object inflate fs (Root (Commit_Repository c)) sha (lit "tree") n (body es) ->
  Forall short_plain es ->
  readTree inflate fs c sha st
  = (Returns (Some (mkTree c sha (map entry_of es)), None),
     os.mkState (S (os.next_fd st)) (os.open_fds st)).
Proof.
  intros inflate fs c sha st n es Hfr Hs Hn Hobj Hes.
  destruct (readObject_loose inflate fs (Commit_Repository c) sha st _ _ n (body es)
              Hs graphic_tree Hn Hobj)
    as (rc & Hro & (raw & Hcl) & Hc & Hf & Hne).
  unfold readTree. rewrite Hro. unfold defer_Close. cbn [kind].
  match goal with |- context [bytes_eqb ?a ?b] =>
    replace (bytes_eqb a b) with true by (vm_compute; reflexivity) end.
  cbn [negb]. cbv beta iota. rewrite Hcl, Close_opened by assumption.
  rewrite (parseTree_plain_body fs _ (Reader rc) es) by assumption.
  reflexivity.
Qed.

(** ** The tree that [parseTree] returns *)

(** X3: whatever the reader delivers, a tree that [parseTree] returns has
    the commit and the id it was given, and its entries are the entries
    it was given followed by parsed ones: each has a mode below 2^32, an
    id of 40 lowercase hexadecimal digits, and a name that is not empty
    and holds no ASCII white space. *)
Theorem parseTree_appends_parsed_entries : forall fs t r t' e,
  parseTree fs t r = Returns (Some t', e) ->
  Tree_Commit t' = Tree_Commit t /\ Tree_id t' = Tree_id t
  /\ exists es, Entries t' = Entries t ++ es /\ Forall parsed_entry es.
Proof.
  intros fs t r t' e H. unfold parseTree in H.
  apply parseTree_loop_appends in H as (es & -> & Hes).
  split; [reflexivity|]. split; [reflexivity|].
  exists es. split; [reflexivity|exact Hes].
Qed.

Lemma parseTree_appends_parsed_entries_witness :
  exists es, Entries two_entry_tree = Entries t0 ++ es /\ Forall parsed_entry es.
Proof.
  destruct (parseTree_appends_parsed_entries no_files t0
              (io.mkReader [two_entries] io_EOF) two_entry_tree None)
    as (_ & _ & H).
  - vm_compute. reflexivity.
  - exact H.
Defined.

(** ** Descriptors that are given back *)

(** X4: once [readObject] has opened the object and read its header,
    [readTree] and [readCommit] close the file before they are left,
    however the parse ends (a result, an error, a panic): after the call
    the open descriptors are those of before. *)
Theorem readTree_readCommit_close_the_file : forall inflate fs st,
  fresh st ->
  (forall c sha h rc st1,
     readObject inflate fs (Commit_Repository c) sha st
       = (Returns (h, Some rc, None), st1) ->
     snd (readTree inflate fs c sha st)
     = os.mkState (S (os.next_fd st)) (os.open_fds st))
  /\
  (forall r sha h rc st1,
     readObject inflate fs r sha st = (Returns (h, Some rc, None), st1) ->
     snd (readCommit inflate fs r sha st)
     = os.mkState (S (os.next_fd st)) (os.open_fds st)).
Proof.
  intros inflate fs st Hf. split.
  - intros c sha h rc st1 H.
    destruct (readObject_opened _ _ _ _ _ _ _ _ H) as (_ & raw & _ & Hc & ->).
    unfold readTree. rewrite H. unfold defer_Close. rewrite Hc.
    destruct (negb (bytes_eqb (kind h) (lit "tree"))); cbv beta iota; cbn [snd];
      apply Close_opened; assumption.
  - intros r sha h rc st1 H.
    destruct (readObject_opened _ _ _ _ _ _ _ _ H) as (_ & raw & _ & Hc & ->).
    unfold readCommit. rewrite H. unfold defer_Close. rewrite Hc.
    destruct (negb (bytes_eqb (kind h) (lit "commit"))); cbv beta iota; cbn [snd];
      apply Close_opened; assumption.
Qed.

Lemma readTree_readCommit_close_the_file_witness :
  fresh os.initial
  /\ readTree stored (files [loose (lit "aa02") broken_tree_object]) c0 (lit "aa02")
       os.initial
     = (Panics (slice_bounds_out_of_range 0 (-1) 20), os.mkState 4 []).
Proof.
  split; [constructor|].
  destruct (readTree_readCommit_close_the_file stored
              (files [loose (lit "aa02") broken_tree_object]) os.initial)
    as [H _]; [constructor|].
  specialize (H c0 (lit "aa02") (mkHeader (lit "tree") 20)
                (mkReadCloser (io.skip 8 (stored broken_tree_object))
                              (os.mkFile 3 (zlib_header ++ broken_tree_object)))
                (os.mkState 4 [3%nat])).
  assert (E : fst (readTree stored (files [loose (lit "aa02") broken_tree_object]) c0
                     (lit "aa02") os.initial)
              = Panics (slice_bounds_out_of_range 0 (-1) 20))
    by (vm_compute; reflexivity).
  destruct (readTree stored (files [loose (lit "aa02") broken_tree_object]) c0
              (lit "aa02") os.initial) as [o s].
  cbn [fst snd] in *. rewrite E, H; [reflexivity|].
  vm_compute. reflexivity.
Defined.

(** ** Ids of fewer than two bytes *)

(** X5: an id of fewer than two bytes makes every reader of the package
    panic on the slice [sha[0:2]], before the file system is touched:
    [Repository.Commit], [readTree] (so [Commit.Tree] of a commit whose
    tree id is that short) and [readBlob]. *)
Theorem short_id_panics : forall inflate fs sha st,
  len sha < 2 ->
  (forall r, Repository_Commit inflate fs r sha st
             = (Panics (slice_bounds_out_of_range 0 2 (len sha)), st))
  /\ (forall c, tree c = sha ->
        Commit_Tree inflate fs c st
        = (Panics (slice_bounds_out_of_range 0 2 (len sha)), st))
  /\ (forall t, readBlob inflate fs t sha st
                = (Panics (slice_bounds_out_of_range 0 2 (len sha)), st)).
Proof.
  intros inflate fs sha st H. split; [|split].
  - intros r. unfold Repository_Commit, readCommit.
    rewrite readObject_short_id by assumption. reflexivity.
  - intros c Hc. unfold Commit_Tree, readTree. rewrite Hc.
    rewrite readObject_short_id by assumption. reflexivity.
  - intros t. unfold readBlob.
    rewrite readObject_short_id by assumption. reflexivity.
Qed.

Lemma short_id_panics_witness :
  Repository_Commit stored some_files repo (lit "b") os.initial
  = (Panics (slice_bounds_out_of_range 0 2 1), os.initial).
Proof.
  destruct (short_id_panics stored some_files (lit "b") os.initial) as [H _].
  - vm_compute. reflexivity.
  - apply H.
Defined.

(** ** From a commit id to the entries of its tree *)

(** X6: in a repository that holds a sound commit object [sha] whose last
    line starting with [tree ] names, once trimmed, a sound tree object
    of short plain records, [Repository.Commit] returns the commit with
    that tree id, [Commit.Tree] of it returns the tree with one entry per
    record in order, and both leave the open descriptors as they were.
    The lengths the two headers declare are not compared with the
    bodies. *)
Theorem Commit_then_Tree : forall inflate fs r sha st n text before v after m es,
  fresh st -> 2 <= len sha -> 0 <= n < 2 ^ 63 -> 0 <= m < 2 ^ 63 ->
  loose_object inflate fs (Root r) sha (lit "commit") n text ->
  short_lines bufio.MaxScanTokenSize text ->
  lines text = before ++ (lit "tree " ++ v) :: after ->
  (forall l, In l after -> ~ is_tree_line l) ->
  2 <= len (strings.TrimSpace v) ->
  loose_object inflate fs (Root r) (strings.TrimSpace v) (lit "tree") m (body es) ->
  Forall short_plain es ->
  exists st1 st2,
    Repository_Commit inflate fs r sha st
    = (Returns (Some (mkCommit r (strings.TrimSpace v) sha), None), st1)
    /\ Commit_Tree inflate fs (mkCommit r (strings.TrimSpace v) sha) st1
       = (Returns (Some (mkTree (mkCommit r (strings.TrimSpace v) sha)
                           (strings.TrimSpace v) (map entry_of es)), None), st2)
    /\ os.open_fds st1 = os.open_fds st /\ os.open_fds st2 = os.open_fds st.
Proof.
  intros inflate fs r sha st n text before v after m es
         Hfr Hs Hn Hm Hc Hshort Hl Hafter Hv Ht Hes.
  eexists _, _. split; [|split; [|split]].
  - unfold Repository_Commit.
    rewrite (readCommit_loose inflate fs r sha st n text) by assumption.
    rewrite Hl, fold_commit_line_last by assumption. reflexivity.
  - unfold Commit_Tree. cbn [tree].
    rewrite (readTree_loose inflate fs _ (strings.TrimSpace v) _ m es); auto.
    unfold fresh in *. cbn [os.next_fd os.open_fds].
    eapply Forall_impl; [|exact Hfr]. intros; cbv beta in *; lia.
  - reflexivity.
  - reflexivity.
Qed.

Lemma Commit_then_Tree_witness :
  exists st1 st2,
    Repository_Commit stored a_repository repo (lit "cc01") os.initial
    = (Returns (Some c0, None), st1)
    /\ Commit_Tree stored a_repository c0 st1
       = (Returns (Some two_entry_tree, None), st2)
    /\ os.open_fds st1 = [] /\ os.open_fds st2 = [].
Proof.
  apply (Commit_then_Tree stored a_repository repo (lit "cc01") os.initial
           96 commit_text [] (lit "aa01") (tl (lines commit_text)) 66
           [(lit "100644", lit "a.txt", id1); (lit "40000", lit "sub", id2)]).
  - constructor.
  - vm_compute. discriminate.
  - lia.
  - lia.
  - exists (zlib_header ++ commit_object), (stored commit_object).
    splits; try reflexivity.
    repeat (apply Forall_cons; [discriminate|]). apply Forall_nil.
  - apply short_lines_small. vm_compute. reflexivity.
  - vm_compute. reflexivity.
  - intros l Hin [v' Hv']. vm_compute in Hin.
    repeat (destruct Hin as [Hin|Hin]; [subst l; cbn in Hv'; discriminate|]).
    contradiction.
  - vm_compute. discriminate.
  - exists (zlib_header ++ tree_object), (stored tree_object).
    splits; try reflexivity.
    repeat (apply Forall_cons; [discriminate|]). apply Forall_nil.
  - repeat (apply Forall_cons; [|]); [| |apply Forall_nil].
    all: split; [|vm_compute; reflexivity].
    all: unfold plain_record; splits;
      [ discriminate
      | repeat (apply Forall_cons; [vm_compute; split; discriminate|]); apply Forall_nil
      | vm_compute; reflexivity
      | discriminate
      | repeat (apply Forall_cons; [vm_compute; split; discriminate|]); apply Forall_nil
      | reflexivity ].
Defined.

(** X7: a sound commit object without a line that starts with [tree ] is
    read without an error, and the commit keeps the empty tree id it was
    made with; [Commit.Tree] of that commit panics on the slice of the
    id. *)
Theorem commit_without_tree_line : forall inflate fs r sha st n text,
  fresh st -> 2 <= len sha -> 0 <= n < 2 ^ 63 ->
  loose_object inflate fs (Root r) sha (lit "commit") n text ->
  short_lines bufio.MaxScanTokenSize text ->
  (forall l, In l (lines text) -> ~ is_tree_line l) ->
  exists st1,
    Repository_Commit inflate fs r sha st
    = (Returns (Some (mkCommit r [] sha), None), st1)
    /\ Commit_Tree inflate fs (mkCommit r [] sha) st1
       = (Panics (slice_bounds_out_of_range 0 2 0), st1)
    /\ os.open_fds st1 = os.open_fds st.
Proof.
  intros inflate fs r sha st n text Hfr Hs Hn Hc Hshort Hl.
  eexists. split; [|split].
  - unfold Repository_Commit.
    rewrite (readCommit_loose inflate fs r sha st n text) by assumption.
    rewrite fold_commit_line_other by assumption. reflexivity.
  - unfold Commit_Tree, readTree. cbn [tree].
    rewrite readObject_short_id by (vm_compute; reflexivity). reflexivity.
  - reflexivity.
Qed.

Lemma commit_without_tree_line_witness :
  exists st1,
    Repository_Commit stored (files [loose (lit "cc02") treeless_commit]) repo
      (lit "cc02") os.initial
    = (Returns (Some (mkCommit repo [] (lit "cc02")), None), st1)
    /\ Commit_Tree stored (files [loose (lit "cc02") treeless_commit])
         (mkCommit repo [] (lit "cc02")) st1
       = (Panics (slice_bounds_out_of_range 0 2 0), st1)
    /\ os.open_fds st1 = [].
Proof.
  apply (commit_without_tree_line stored (files [loose (lit "cc02") treeless_commit])
           repo (lit "cc02") os.initial 20
           (lit "parent cc00" ++ [x0a; x0a] ++ lit "Subject" ++ [x0a])).
  - constructor.
  - vm_compute. discriminate.
  - lia.
  - exists (zlib_header ++ treeless_commit), (stored treeless_commit).
    splits; try reflexivity.
    repeat (apply Forall_cons; [discriminate|]). apply Forall_nil.
  - apply short_lines_small. vm_compute. reflexivity.
  - intros l Hin [v' Hv']. vm_compute in Hin.
    repeat (destruct Hin as [Hin|Hin]; [subst l; cbn in Hv'; discriminate|]).
    contradiction.
Defined.

(** ** Looking up a blob never panics on a tree that was read *)

Lemma readObject_returns : forall inflate fs r sha st,
  2 <= len sha ->
  exists v st', readObject inflate fs r sha st = (Returns v, st').
Proof.
  intros inflate fs r sha st Hs. unfold readObject.
  destruct (sha_slices sha Hs) as [-> ->]. cbv beta iota.
  destruct (os.Open fs _ st) as [[e|f] st1]; [eauto|].
  destruct (zlib.NewReader inflate (os.data f)) as [e|fr]; [eauto|].
  destruct (fmt.Fscanf_s_d_nul (io.final fr) (io.contents fr)) as [e|[[k n] rest]];
    eauto.
Qed.

Lemma readBlob_returns : forall inflate fs t sha st,
  2 <= len sha ->
  exists v st', readBlob inflate fs t sha st = (Returns v, st').
Proof.
  intros inflate fs t sha st Hs. unfold readBlob.
  destruct (readObject_returns inflate fs (Commit_Repository (Tree_Commit t)) sha st Hs)
    as ([[h orc] oe] & st' & ->).
  destruct orc as [rc|]; [|eauto]. destruct oe as [e|]; [eauto|].
  destruct (negb (bytes_eqb (kind h) (lit "blob"))); eauto.
Qed.

Lemma Blob_range_returns : forall inflate fs t name es st,
  Forall (fun e => 2 <= len (Entry_id e)) es ->
  exists v st', Blob_range inflate fs t name es st = (Returns v, st').
Proof.
  intros inflate fs t name es st H. induction H as [|e es He Hes IH]; simpl.
  - unfold ret. eauto.
  - destruct (bytes_eqb name (Name e)); [apply readBlob_returns; exact He|exact IH].
Qed.

Lemma parsed_entry_id : forall e, parsed_entry e -> 2 <= len (Entry_id e).
Proof. intros e (_ & H & _). unfold len. rewrite H. lia. Qed.

(** X8: [Tree.Blob] never panics on a tree that [readTree] returned: the
    ids of its entries are 40 characters long, so the slices that make
    the object's path are in range. *)
Theorem Tree_Blob_of_read_tree_returns :
  forall inflate fs c sha st t e st1,
  readTree inflate fs c sha st = (Returns (Some t, e), st1) ->
  forall name st2, exists v st3,
    Tree_Blob inflate fs t name st2 = (Returns v, st3).
Proof.
  intros inflate fs c sha st t e st1 H name st2.
  assert (Hes : Forall parsed_entry (Entries t)).
  { unfold readTree in H.
    destruct (readObject inflate fs (Commit_Repository c) sha st) as [[[[h orc] oe]| |] s0];
      try discriminate.
    destruct orc as [rc|]; [|discriminate]. destruct oe as [e0|]; [discriminate|].
    unfold defer_Close in H.
    destruct (negb (bytes_eqb (kind h) (lit "tree"))); [discriminate|].
    cbv beta iota in H.
    destruct (parseTree fs (mkTree c sha []) (Reader rc)) as [[ot oe]| |] eqn:P;
      try discriminate.
    assert (ot = Some t) by congruence. subst ot.
    apply parseTree_loop_appends in P as (es & -> & Hes). exact Hes. }
  unfold Tree_Blob. apply Blob_range_returns.
  eapply Forall_impl; [|exact Hes]. apply parsed_entry_id.
Qed.

Lemma Tree_Blob_of_read_tree_returns_witness :
  exists v st3,
    Tree_Blob stored a_repository two_entry_tree (lit "sub") os.initial
    = (Returns v, st3).
Proof.
  apply (Tree_Blob_of_read_tree_returns stored a_repository c0 (lit "aa01")
           os.initial two_entry_tree None (os.mkState 4 [])).
  vm_compute. reflexivity.
Defined.

(** ** Paths split at the last slash *)

Lemma LastIndexByte_absent : forall s c, ~ In c s -> path.LastIndexByte s c = -1.
Proof.
  induction s as [|x s IH]; intros c H; simpl; [reflexivity|].
  rewrite IH by (intro; apply H; right; assumption).
  replace (Byte.eqb x c) with false; [reflexivity|].
  symmetry. destruct (Byte.eqb x c) eqn:E; [|reflexivity].
  apply Byte.byte_dec_bl in E. exfalso. apply H. left. exact E.
Qed.

Lemma LastIndexByte_app : forall pre c s,
  ~ In c s -> path.LastIndexByte (pre ++ c :: s) c = len pre.
Proof.
  induction pre as [|x pre IH]; intros c s H.
  - cbn [app path.LastIndexByte]. rewrite LastIndexByte_absent by assumption.
    rewrite (Byte.byte_dec_lb eq_refl). reflexivity.
  - cbn [app path.LastIndexByte]. rewrite IH by assumption.
    pose proof (len_nonneg pre).
    replace (0 <=? len pre) with true by (symmetry; apply Z.leb_le; lia).
    rewrite len_cons. reflexivity.
Qed.

Lemma Split_last_slash : forall pre f,
  ~ In "/"%byte f -> path.Split (pre ++ "/"%byte :: f) = (pre ++ ["/"%byte], f).
Proof.
  intros pre f H. unfold path.Split. rewrite LastIndexByte_app by assumption.
  replace (Z.to_nat (len pre + 1)) with (length (pre ++ ["/"%byte]))
    by (rewrite length_app; unfold len; simpl; lia).
  replace (pre ++ "/"%byte :: f) with ((pre ++ ["/"%byte]) ++ f)
    by (rewrite <- app_assoc; reflexivity).
  rewrite firstn_app, firstn_all, Nat.sub_diag, skipn_app, skipn_all, Nat.sub_diag.
  cbn [firstn skipn app]. rewrite app_nil_r. reflexivity.
Qed.

Lemma Split_no_slash : forall f, ~ In "/"%byte f -> path.Split f = ([], f).
Proof.
  intros f H. unfold path.Split. rewrite LastIndexByte_absent by assumption.
  reflexivity.
Qed.

(** ** What [readObject] and [readBlob] return, and what they leave open *)

Lemma readObject_effect : forall inflate fs r sha st,
  2 <= len sha ->
  exists h orc oe,
    readObject inflate fs r sha st
    = (Returns (h, orc, oe), if opens fs (Root r) sha then opened st else st)
    /\ ((exists rc, orc = Some rc /\ oe = None) \/ (orc = None /\ exists e, oe = Some e)).
Proof.
  intros inflate fs r sha st Hs. unfold readObject, opens.
  destruct (sha_slices sha Hs) as [-> ->]. cbv beta iota. unfold os.Open.
  match goal with |- context [fs ?p] => change p with (object_path (Root r) sha) end.
  destruct (fs (object_path (Root r) sha)) as [| |raw].
  - eexists _, _, _. split; [reflexivity|]. right. eauto.
  - eexists _, _, _. split; [reflexivity|]. right. eauto.
  - unfold Ok. cbv beta iota. cbn [os.data].
    destruct (zlib.NewReader inflate raw) as [e|fr].
    { eexists _, _, _. split; [reflexivity|]. right. eauto. }
    destruct (fmt.Fscanf_s_d_nul (io.final fr) (io.contents fr)) as [e|[[k n] rest]].
    { eexists _, _, _. split; [reflexivity|]. right. eauto. }
    eexists _, _, _. split; [reflexivity|]. left. eauto.
Qed.

(** [readBlob] returns a blob or an error, and whenever the object file
    could be opened its descriptor is open afterwards. *)
Lemma readBlob_effect : forall inflate fs t sha st,
  2 <= len sha ->
  exists ob oe,
    readBlob inflate fs t sha st
    = (Returns (ob, oe), if opens fs (Tree_Root t) sha then opened st else st)
    /\ ((exists b, ob = Some b /\ oe = None) \/ (ob = None /\ exists e, oe = Some e)).
Proof.
  intros inflate fs t sha st Hs. unfold readBlob.
  destruct (readObject_effect inflate fs (Commit_Repository (Tree_Commit t)) sha st Hs)
    as (h & orc & oe & -> & [(rc & -> & ->) | (-> & e & ->)]).
  - destruct (negb (bytes_eqb (kind h) (lit "blob"))).
    + eexists _, _. split; [reflexivity|]. right. eauto.
    + eexists _, _. split; [reflexivity|]. left. eauto.
  - eexists _, _. split; [reflexivity|]. right. eauto.
Qed.

Lemma Blob_range_find : forall inflate fs t name es,
  Blob_range inflate fs t name es
  = match find (fun e => bytes_eqb name (Name e)) es with
    | Some e => readBlob inflate fs t (Entry_id e)
    | None => ret (None, Some (os_PathError "open" [name] ErrNotExist))
    end.
Proof.
  intros inflate fs t name es. induction es as [|e es IH]; simpl; [reflexivity|].
  destruct (bytes_eqb name (Name e)); [reflexivity|exact IH].
Qed.

Lemma Tree_Blob_effect : forall inflate fs t name st,
  Forall (fun e => 2 <= len (Entry_id e)) (Entries t) ->
  exists ob oe,
    Tree_Blob inflate fs t name st
    = (Returns (ob, oe), if held fs t name then opened st else st)
    /\ ((exists b, ob = Some b /\ oe = None) \/ (ob = None /\ exists e, oe = Some e)).
Proof.
  intros inflate fs t name st H. unfold Tree_Blob, held.
  rewrite Blob_range_find.
  destruct (find (fun e => bytes_eqb name (Name e)) (Entries t)) as [e|] eqn:F.
  - apply find_some in F as [Hin _]. rewrite Forall_forall in H.
    apply readBlob_effect. apply H. exact Hin.
  - unfold ret. eexists _, _. split; [reflexivity|]. right. eauto.
Qed.

(** ** [tree.Readdir] *)

Lemma Readdir_range_spec : forall inflate fs t es acc st,
  Forall (fun e => 2 <= len (Entry_id e)) (Entries t) ->
  exists fis st',
    main.Readdir_range inflate fs t es acc st = (Returns (acc ++ fis, None), st')
    /\ map main.name fis = map Name es /\ map main.mode fis = map Mode es
    /\ os.open_fds st'
       = rev (seq (os.next_fd st)
                  (length (filter (fun e => held fs t (Name e)) es)))
         ++ os.open_fds st
    /\ os.next_fd st'
       = (os.next_fd st + length (filter (fun e => held fs t (Name e)) es))%nat.
Proof.
  intros inflate fs t es acc st Hid. revert acc st.
  induction es as [|e es IH]; intros acc st.
  - exists [], st. cbn. rewrite app_nil_r. splits; auto.
  - cbn [main.Readdir_range].
    destruct (Tree_Blob_effect inflate fs t (Name e) st Hid) as (ob & oe & -> & Hshape).
    cbv beta iota zeta.
    match goal with |- context [main.Readdir_range _ _ _ _ (acc ++ [?fi]) ?s] =>
      destruct (IH (acc ++ [fi]) s) as (fis & st' & -> & Hn & Hm & Hfd & Hnx);
      exists (fi :: fis), st' end.
    split; [rewrite <- app_assoc; reflexivity|].
    split; [cbn [map]; rewrite Hn; destruct oe; reflexivity|].
    split; [cbn [map]; rewrite Hm; destruct oe; reflexivity|].
    cbn [filter]. destruct (held fs t (Name e)).
    + cbn [length]. unfold opened in *. cbn [os.next_fd os.open_fds] in *.
      split.
      * rewrite Hfd. cbn [seq rev]. rewrite <- app_assoc. reflexivity.
      * rewrite Hnx. lia.
    + split; assumption.
Qed.

Lemma IsDir_small_mode : forall n s m,
  0 <= m < 2 ^ 31 -> main.IsDir (main.mkFileinfo n s m) = false.
Proof.
  intros n s m Hm. unfold main.IsDir, main.ModeDir. cbn [main.mode].
  assert (E : Z.land m (2 ^ 31) = 0).
  { apply Z.bits_inj_iff. intros k. rewrite Z.land_spec, Z.bits_0.
    destruct (Z.eq_dec k 31) as [->|Hk].
    - rewrite (Z.bits_above_log2 m 31); [reflexivity|lia|].
      destruct (Z.eq_dec m 0) as [->|Hz]; [reflexivity|].
      apply Z.log2_lt_pow2; lia.
    - rewrite Z.pow2_bits_eqb by lia.
      replace (31 =? k) with false by (symmetry; apply Z.eqb_neq; lia).
      apply andb_false_r. }
  rewrite E. reflexivity.
Qed.

(** ** [tree.Readdir]: what is listed and what stays open *)

(** X9: on a tree whose entry ids are at least two bytes long (as those
    of every tree read from an object), [Readdir] returns, with a nil
    error, one [fileinfo] per entry, in order, with the entry's name and
    mode.  It looks every name up with [Tree.Blob] and closes nothing: for
    each entry whose name leads to an object file that can be opened, one
    more descriptor is open afterwards, beside those open before.  When
    the modes of all entries are below 2^31 (the modes of git, read as
    decimal numbers, are), no entry is reported as a directory. *)
Theorem Readdir_lists_entries_and_closes_nothing : forall inflate fs t n st,
  Forall (fun e => 2 <= len (Entry_id e)) (Entries t) ->
  exists fis st' fds,
    main.Readdir inflate fs t n st = (Returns (fis, None), st')
    /\ map main.name fis = map Name (Entries t)
    /\ map main.mode fis = map Mode (Entries t)
    /\ os.open_fds st' = fds ++ os.open_fds st
    /\ length fds = length (filter (fun e => held fs t (Name e)) (Entries t))
    /\ (Forall (fun e => 0 <= Mode e < 2 ^ 31) (Entries t) ->
        Forall (fun fi => main.IsDir fi = false) fis).
Proof.
  intros inflate fs t n st Hid. unfold main.Readdir.
  destruct (Readdir_range_spec inflate fs t (Entries t) [] st Hid)
    as (fis & st' & E & Hn & Hm & Hfd & _).
  exists fis, st', (rev (seq (os.next_fd st)
                       (length (filter (fun e => held fs t (Name e)) (Entries t))))).
  split; [exact E|]. split; [exact Hn|]. split; [exact Hm|]. split; [exact Hfd|].
  split; [rewrite length_rev, length_seq; reflexivity|].
  intros Hmode.
  assert (Hfm : Forall (fun m => 0 <= m < 2 ^ 31) (map main.mode fis)).
  { rewrite Hm. apply Forall_map. exact Hmode. }
  apply Forall_map in Hfm. eapply Forall_impl; [|exact Hfm].
  intros [nm sz md] H. apply IsDir_small_mode. exact H.
Qed.

Lemma Readdir_lists_entries_and_closes_nothing_witness :
  exists fis st' fds,
    main.Readdir stored sub_on_disk two_entry_tree 0 os.initial
    = (Returns (fis, None), st')
    /\ map main.name fis = [lit "a.txt"; lit "sub"]
    /\ map main.mode fis = [100644; 40000]
    /\ os.open_fds st' = fds ++ []
    /\ length fds = 1%nat
    /\ (Forall (fun e => 0 <= Mode e < 2 ^ 31) (Entries two_entry_tree) ->
        Forall (fun fi => main.IsDir fi = false) fis).
Proof.
  apply (Readdir_lists_entries_and_closes_nothing stored sub_on_disk two_entry_tree 0
           os.initial).
  repeat (apply Forall_cons; [vm_compute; discriminate|]). apply Forall_nil.
Defined.

(** ** [dir.OpenFile] *)

Lemma bytes_eqb_refl : forall a, bytes_eqb a a = true.
Proof. intros a. apply bytes_eqb_eq. reflexivity. Qed.

Lemma OpenFile_nested : forall inflate fs d pre f flag perm st,
  pre <> [] -> ~ In "/"%byte f ->
  main.OpenFile inflate fs d (pre ++ "/"%byte :: f) flag perm st
  = main.open_tree f (Tree_Tree inflate fs (main.root d) (pre ++ ["/"%byte]) st).
Proof.
  intros inflate fs d pre f flag perm st Hp Hf. unfold main.OpenFile.
  rewrite Split_last_slash by assumption.
  assert (E : bytes_eqb (pre ++ ["/"%byte]) (lit "/") = false).
  { apply bytes_eqb_neq. intro K. destruct pre as [|x pre]; [congruence|].
    destruct pre; discriminate. }
  rewrite E. reflexivity.
Qed.

Lemma OpenFile_local : forall inflate fs d f flag perm st,
  f <> [] -> ~ In "/"%byte f ->
  main.OpenFile inflate fs d ("/"%byte :: f) flag perm st
  = match Tree_Blob inflate fs (main.root d) f st with
    | (Returns (b, None), st) =>
      (Returns (Some (main.File_blob (main.mk_blob f b)), None), st)
    | (Returns (_, Some _), st) =>
      main.open_tree f (Tree_Tree inflate fs (main.root d) f st)
    | (Panics p, st) => (Panics p, st)
    | (OutOfFuel, st) => (OutOfFuel, st)
    end.
Proof.
  intros inflate fs d f flag perm st Hf Hs. unfold main.OpenFile.
  pose proof (Split_last_slash [] f Hs) as E. cbn [app] in E. rewrite E.
  change (bytes_eqb ["/"%byte] (lit "/")) with true. rewrite (bytes_eqb_neq f []) by assumption.
  reflexivity.
Qed.

(** X10: [OpenFile] reaches the top level only.  The name [/] is the root
    tree, and nothing is read for it.  For a name with something before
    its last slash, the part up to and including that slash is looked up
    as the name of an entry of the root, and the part after it is not
    looked up at all; when no entry of the root has that name, the result
    is the not-exist error for it.  A name without a slash is looked up
    as the empty name: when no entry of the root has the empty name, the
    result is the not-exist error for the empty name. *)
Theorem OpenFile_reaches_the_top_level_only : forall inflate fs d flag perm st,
  main.OpenFile inflate fs d (lit "/") flag perm st
  = (Returns (Some (main.File_tree (main.mk_tree (lit "/") (Some (main.root d)))),
              None), st)
  /\
  (forall pre f, pre <> [] -> ~ In "/"%byte f ->
     main.OpenFile inflate fs d (pre ++ "/"%byte :: f) flag perm st
     = main.open_tree f (Tree_Tree inflate fs (main.root d) (pre ++ ["/"%byte]) st))
  /\
  (forall pre f, pre <> [] -> ~ In "/"%byte f ->
     (forall e, In e (Entries (main.root d)) -> Name e <> pre ++ ["/"%byte]) ->
     main.OpenFile inflate fs d (pre ++ "/"%byte :: f) flag perm st
     = (Returns (None, Some (os_PathError "open" [pre ++ ["/"%byte]] ErrNotExist)), st))
  /\
  (forall f, ~ In "/"%byte f ->
     (forall e, In e (Entries (main.root d)) -> Name e <> []) ->
     main.OpenFile inflate fs d f flag perm st
     = (Returns (None, Some (os_PathError "open" [[]] ErrNotExist)), st)).
Proof.
  intros inflate fs d flag perm st. splits.
  - reflexivity.
  - intros pre f Hp Hf. apply OpenFile_nested; [exact Hp|exact Hf].
  - intros pre f Hp Hf Hno. rewrite OpenFile_nested; [|exact Hp|exact Hf].
    unfold Tree_Tree. rewrite Tree_range_none by exact Hno. reflexivity.
  - intros f Hf Hno. unfold main.OpenFile. rewrite Split_no_slash by assumption.
    change (bytes_eqb [] (lit "/")) with false. cbn [andb]. cbv iota.
    unfold Tree_Tree. rewrite Tree_range_none by exact Hno. reflexivity.
Qed.

Lemma OpenFile_reaches_the_top_level_only_witness :
  main.OpenFile stored a_repository (main.mkDir two_entry_tree) (lit "/sub/x") 0 0
    os.initial
  = (Returns (None, Some (os_PathError "open" [lit "/sub/"] ErrNotExist)), os.initial).
Proof.
  destruct (OpenFile_reaches_the_top_level_only stored a_repository
              (main.mkDir two_entry_tree) 0 0 os.initial) as (_ & _ & H & _).
  apply (H (lit "/sub") (lit "x")).
  - discriminate.
  - vm_compute. intros [H1|[]]. discriminate.
  - intros e He K. vm_compute in He, K.
    destruct He as [<-|[<-|[]]]; discriminate.
Defined.

Lemma graphic_blob : Forall graphic (lit "blob").
Proof. repeat (apply Forall_cons; [vm_compute; split; discriminate|]); apply Forall_nil. Qed.

Lemma fresh_opened : forall st, fresh st -> fresh (opened st).
Proof.
  intros st H. unfold fresh, opened in *. cbn [os.next_fd os.open_fds].
  constructor; [lia|]. eapply Forall_impl; [|exact H]. intros; cbv beta in *; lia.
Qed.

(** [readBlob] on a sound blob object: the size the header declares and
    a reader of the text; the descriptor is the caller's to close. *)
Lemma readBlob_loose_blob : forall inflate fs t sha st n text,
  2 <= len sha -> 0 <= n < 2 ^ 63 ->
  loose_object inflate fs (Tree_Root t) sha (lit "blob") n text ->
  exists rc,
    readBlob inflate fs t sha st = (Returns (Some (mkBlob n rc), None), opened st)
    /\ io.contents (Reader rc) = text /\ os.fd (Closer rc) = os.next_fd st.
Proof.
  intros inflate fs t sha st n text Hs Hn Hobj.
  destruct (readObject_loose inflate fs (Commit_Repository (Tree_Commit t)) sha st
              _ _ n text Hs graphic_blob Hn Hobj)
    as (rc & Hro & (raw & Hcl) & Hc & Hf & Hne).
  exists rc. unfold readBlob. rewrite Hro. cbn [kind length_].
  match goal with |- context [bytes_eqb ?a ?b] =>
    replace (bytes_eqb a b) with true by (vm_compute; reflexivity) end.
  cbn [negb]. split; [reflexivity|]. split; [exact Hc|]. rewrite Hcl. reflexivity.
Qed.

(** [readBlob] on a sound tree object: its error, and the descriptor left
    open. *)
Lemma readBlob_loose_tree : forall inflate fs t sha st n text,
  2 <= len sha -> 0 <= n < 2 ^ 63 ->
  loose_object inflate fs (Tree_Root t) sha (lit "tree") n text ->
  readBlob inflate fs t sha st
  = (Returns (None, Some (errors_Errorf "expected blob, got %q" (lit "tree"))),
     opened st).
Proof.
  intros inflate fs t sha st n text Hs Hn Hobj.
  destruct (readObject_loose inflate fs (Commit_Repository (Tree_Commit t)) sha st
              _ _ n text Hs graphic_tree Hn Hobj)
    as (rc & Hro & _).
  unfold readBlob. rewrite Hro. cbn [kind length_].
  match goal with |- context [bytes_eqb ?a ?b] =>
    replace (bytes_eqb a b) with false by (vm_compute; reflexivity) end.
  reflexivity.
Qed.

(** X11: a name [/f] that no entry of the root bears fails with the
    not-exist error of [Tree.Tree], which [os.IsNotExist] recognises; a
    name whose entry is there but whose object file is not fails with the
    wrapped error of [os.Open], which [os.IsNotExist] does not
    recognise.  Neither leaves a descriptor open. *)
Theorem OpenFile_of_a_missing_name_or_object :
  forall inflate fs d f flag perm st,
  f <> [] -> ~ In "/"%byte f ->
  ((forall e, In e (Entries (main.root d)) -> Name e <> f) ->
   main.OpenFile inflate fs d ("/"%byte :: f) flag perm st
   = (Returns (None, Some (os_PathError "open" [f] ErrNotExist)), st)
   /\ os.IsNotExist (Some (os_PathError "open" [f] ErrNotExist)) = true)
  /\
  (forall before e after,
     Entries (main.root d) = before ++ e :: after ->
     (forall e', In e' before -> Name e' <> f) -> Name e = f ->
     2 <= len (Entry_id e) ->
     fs (object_path (Tree_Root (main.root d)) (Entry_id e)) = os.NoEntry ->
     main.OpenFile inflate fs d ("/"%byte :: f) flag perm st
     = (Returns (None,
                 Some (errors_WithStack
                         (os_PathError "open"
                            (object_path (Tree_Root (main.root d)) (Entry_id e))
                            ENOENT))), st)
     /\ os.IsNotExist
          (Some (errors_WithStack
                   (os_PathError "open"
                      (object_path (Tree_Root (main.root d)) (Entry_id e)) ENOENT)))
        = false).
Proof.
  intros inflate fs d f flag perm st Hf Hs. split.
  - intros Hno. split; [|reflexivity].
    rewrite OpenFile_local by assumption.
    unfold Tree_Blob, Tree_Tree.
    rewrite Blob_range_none, Tree_range_none by exact Hno. reflexivity.
  - intros before e after He Hb Hn Hid Habs. split; [|reflexivity].
    rewrite OpenFile_local by assumption.
    unfold Tree_Blob, Tree_Tree. rewrite He.
    rewrite Blob_range_first, Tree_range_first by assumption.
    rewrite readBlob_absent by assumption.
    rewrite readTree_absent by assumption. reflexivity.
Qed.

Lemma OpenFile_of_a_missing_name_or_object_witness :
  main.OpenFile stored sub_on_disk (main.mkDir two_entry_tree) (lit "/b.txt") 0 0
    os.initial
  = (Returns (None, Some (os_PathError "open" [lit "b.txt"] ErrNotExist)), os.initial)
  /\
  main.OpenFile stored sub_on_disk (main.mkDir two_entry_tree) (lit "/a.txt") 0 0
    os.initial
  = (Returns (None,
              Some (errors_WithStack
                      (os_PathError "open"
                         (object_path (lit "/r") (fmt.Sprintf_x id1)) ENOENT))),
     os.initial).
Proof.
  split.
  - destruct (OpenFile_of_a_missing_name_or_object stored sub_on_disk
                (main.mkDir two_entry_tree) (lit "b.txt") 0 0 os.initial) as [H _].
    + discriminate.
    + vm_compute. intros K. repeat (destruct K as [K|K]; [discriminate|]). exact K.
    + apply H. intros e He K. vm_compute in He, K.
      destruct He as [<-|[<-|[]]]; discriminate.
  - destruct (OpenFile_of_a_missing_name_or_object stored sub_on_disk
                (main.mkDir two_entry_tree) (lit "a.txt") 0 0 os.initial) as [_ H].
    + discriminate.
    + vm_compute. intros K. repeat (destruct K as [K|K]; [discriminate|]). exact K.
    + apply (H [] (mkEntry (lit "a.txt") 100644 (fmt.Sprintf_x id1))
               [mkEntry (lit "sub") 40000 (fmt.Sprintf_x id2)]).
      * reflexivity.
      * intros e' [].
      * reflexivity.
      * vm_compute. discriminate.
      * vm_compute. reflexivity.
Defined.

(** X12: [OpenFile] of a top-level name tries the blob first.  When the
    first entry of that name holds a sound blob object, the result is
    the blob with the size its header declares and a reader of its text,
    and the object's descriptor is open, for the file to read from.  When
    it holds a sound tree object of short plain records, the attempt to
    read it as a blob fails without closing the file, the tree is read
    and its own descriptor closed: the result is the tree, and one
    descriptor stays open that nothing refers to. *)
Theorem OpenFile_tries_the_blob_first :
  forall inflate fs d f flag perm st before e after n,
  fresh st -> f <> [] -> ~ In "/"%byte f ->
  Entries (main.root d) = before ++ e :: after ->
  (forall e', In e' before -> Name e' <> f) -> Name e = f ->
  2 <= len (Entry_id e) -> 0 <= n < 2 ^ 63 ->
  (forall text,
     loose_object inflate fs (Tree_Root (main.root d)) (Entry_id e) (lit "blob") n text ->
     exists rc,
       main.OpenFile inflate fs d ("/"%byte :: f) flag perm st
       = (Returns (Some (main.File_blob (main.mk_blob f (Some (mkBlob n rc)))), None),
          opened st)
       /\ io.contents (Reader rc) = text /\ os.fd (Closer rc) = os.next_fd st)
  /\
  (forall es,
     loose_object inflate fs (Tree_Root (main.root d)) (Entry_id e) (lit "tree") n
       (body es) ->
     Forall short_plain es ->
     main.OpenFile inflate fs d ("/"%byte :: f) flag perm st
     = (Returns (Some (main.File_tree
                         (main.mk_tree f
                            (Some (mkTree (Tree_Commit (main.root d)) (Entry_id e)
                                          (map entry_of es))))), None),
        os.mkState (S (S (os.next_fd st))) (os.next_fd st :: os.open_fds st))).
Proof.
  intros inflate fs d f flag perm st before e after n
         Hfr Hf Hs He Hb Hn Hid Hrange.
  split.
  - intros text Hobj.
    destruct (readBlob_loose_blob inflate fs (main.root d) (Entry_id e) st n text
                Hid Hrange Hobj) as (rc & Hrb & Hc & Hfd).
    exists rc. split; [|split; assumption].
    rewrite OpenFile_local by assumption.
    unfold Tree_Blob. rewrite He, Blob_range_first by assumption.
    rewrite Hrb. reflexivity.
  - intros es Hobj Hes.
    rewrite OpenFile_local by assumption.
    unfold Tree_Blob, Tree_Tree. rewrite He.
    rewrite Blob_range_first, Tree_range_first by assumption.
    rewrite (readBlob_loose_tree inflate fs (main.root d) (Entry_id e) st n (body es))
      by assumption.
    rewrite (readTree_loose inflate fs (Tree_Commit (main.root d)) (Entry_id e)
               (opened st) n es); auto using fresh_opened.
Qed.

Lemma OpenFile_tries_the_blob_first_witness :
  (exists rc,
     main.OpenFile stored served (main.mkDir two_entry_tree) (lit "/a.txt") 0 0
       os.initial
     = (Returns (Some (main.File_blob (main.mk_blob (lit "a.txt") (Some (mkBlob 5 rc)))),
                 None), os.mkState 4 [3%nat])
     /\ io.contents (Reader rc) = lit "world" /\ os.fd (Closer rc) = 3%nat)
  /\
  main.OpenFile stored served (main.mkDir two_entry_tree) (lit "/sub") 0 0 os.initial
  = (Returns (Some (main.File_tree
                      (main.mk_tree (lit "sub")
                         (Some (mkTree c0 (fmt.Sprintf_x id2)
                                  (Entries two_entry_tree))))), None),
     os.mkState 5 [3%nat]).
Proof.
  split.
  - destruct (OpenFile_tries_the_blob_first stored served (main.mkDir two_entry_tree)
                (lit "a.txt") 0 0 os.initial []
                (mkEntry (lit "a.txt") 100644 (fmt.Sprintf_x id1))
                [mkEntry (lit "sub") 40000 (fmt.Sprintf_x id2)] 5) as [H _].
    + constructor.
    + discriminate.
    + vm_compute. intros K. repeat (destruct K as [K|K]; [discriminate|]). exact K.
    + reflexivity.
    + intros e' [].
    + reflexivity.
    + vm_compute. discriminate.
    + lia.
    + apply (H (lit "world")).
      exists (zlib_header ++ hello_blob), (stored hello_blob).
      splits; try reflexivity.
      repeat (apply Forall_cons; [discriminate|]). apply Forall_nil.
  - destruct (OpenFile_tries_the_blob_first stored served (main.mkDir two_entry_tree)
                (lit "sub") 0 0 os.initial
                [mkEntry (lit "a.txt") 100644 (fmt.Sprintf_x id1)]
                (mkEntry (lit "sub") 40000 (fmt.Sprintf_x id2)) [] 66) as [_ H].
    + constructor.
    + discriminate.
    + vm_compute. intros K. repeat (destruct K as [K|K]; [discriminate|]). exact K.
    + reflexivity.
    + intros e' [<-|[]]. discriminate.
    + reflexivity.
    + vm_compute. discriminate.
    + lia.
    + apply (H [(lit "100644", lit "a.txt", id1); (lit "40000", lit "sub", id2)]).
      * exists (zlib_header ++ tree_object), (stored tree_object).
        splits; try reflexivity.
        repeat (apply Forall_cons; [discriminate|]). apply Forall_nil.
      * repeat (apply Forall_cons; [|]); [| |apply Forall_nil].
        all: split; [|vm_compute; reflexivity].
        all: unfold plain_record; splits;
          [ discriminate
          | repeat (apply Forall_cons; [vm_compute; split; discriminate|]);
            apply Forall_nil
          | vm_compute; reflexivity
          | discriminate
          | repeat (apply Forall_cons; [vm_compute; split; discriminate|]);
            apply Forall_nil
          | reflexivity ].
Defined.

(** ** Where a result comes from *)

Lemma Tree_range_find : forall inflate fs t name es,
  Tree_range inflate fs t name es
  = match find (fun e => bytes_eqb name (Name e)) es with
    | Some e => readTree inflate fs (Tree_Commit t) (Entry_id e)
    | None => ret (None, Some (os_PathError "open" [name] ErrNotExist))
    end.
Proof.
  intros inflate fs t name es. induction es as [|e es IH]; simpl; [reflexivity|].
  destruct (bytes_eqb name (Name e)); [reflexivity|exact IH].
Qed.

(** A tree that [readTree] returns: made for the commit and the id that
    were asked for, of parsed entries, and read from a file that is
    closed again. *)
Lemma readTree_result : forall inflate fs c sha st t e st',
  readTree inflate fs c sha st = (Returns (Some t, e), st') ->
  Tree_Commit t = c /\ Tree_id t = sha /\ Forall parsed_entry (Entries t)
  /\ (fresh st -> os.open_fds st' = os.open_fds st).
Proof.
  intros inflate fs c sha st t e st' H. unfold readTree in H.
  destruct (readObject inflate fs (Commit_Repository c) sha st)
    as [[[[h orc] oe]| |] s0] eqn:R; try discriminate.
  destruct orc as [rc|]; [|discriminate]. destruct oe as [e0|]; [discriminate|].
  destruct (readObject_opened _ _ _ _ _ _ _ _ R) as (_ & raw & _ & Hc & ->).
  unfold defer_Close in H.
  destruct (negb (bytes_eqb (kind h) (lit "tree"))); [discriminate|].
  cbv beta iota in H.
  destruct (parseTree fs (mkTree c sha []) (Reader rc)) as [[ot oe]| |] eqn:P;
    try discriminate.
  inversion H; subst ot oe st'. clear H.
  apply parseTree_loop_appends in P as (es & -> & Hes).
  split; [reflexivity|]. split; [reflexivity|]. split; [exact Hes|].
  intros Hf. rewrite Hc, Close_opened by assumption. reflexivity.
Qed.

Lemma readCommit_result : forall inflate fs r sha st c e st',
  readCommit inflate fs r sha st = (Returns (Some c, e), st') ->
  Commit_Repository c = r /\ Commit_id c = sha
  /\ (fresh st -> os.open_fds st' = os.open_fds st).
Proof.
  intros inflate fs r sha st c e st' H. unfold readCommit in H.
  destruct (readObject inflate fs r sha st) as [[[[h orc] oe]| |] s0] eqn:R;
    try discriminate.
  destruct orc as [rc|]; [|discriminate]. destruct oe as [e0|]; [discriminate|].
  destruct (readObject_opened _ _ _ _ _ _ _ _ R) as (_ & raw & _ & Hc & ->).
  unfold defer_Close in H.
  destruct (negb (bytes_eqb (kind h) (lit "commit"))); [discriminate|].
  cbv beta iota in H.
  destruct (parseCommit_total (mkCommit r [] sha) (Reader rc)) as (c' & e' & P & F1 & F2).
  rewrite P in H. inversion H; subst c' e' st'. clear H.
  split; [exact F1|]. split; [exact F2|].
  intros Hf. rewrite Hc, Close_opened by assumption. reflexivity.
Qed.

(** X16: what the package returns belongs where it was looked up.  A
    commit that [Repository.Commit] returns is of that repository and
    has the id that was asked for.  A tree that [Tree.Tree] returns is
    of the same commit (so of the same repository) as its parent, has
    the id of the first entry of the parent with that name, and holds
    parsed entries only.  Either was read from a file that is closed
    again. *)
Theorem results_belong_where_they_were_looked_up : forall inflate fs st,
  (forall r sha c e st',
     Repository_Commit inflate fs r sha st = (Returns (Some c, e), st') ->
     Commit_Repository c = r /\ Commit_id c = sha
     /\ (fresh st -> os.open_fds st' = os.open_fds st))
  /\
  (forall t name t' e st',
     Tree_Tree inflate fs t name st = (Returns (Some t', e), st') ->
     Tree_Commit t' = Tree_Commit t
     /\ (exists before en after,
           Entries t = before ++ en :: after
           /\ (forall e', In e' before -> Name e' <> name)
           /\ Name en = name /\ Tree_id t' = Entry_id en)
     /\ Forall parsed_entry (Entries t')
     /\ (fresh st -> os.open_fds st' = os.open_fds st)).
Proof.
  intros inflate fs st. split.
  - intros r sha c e st' H. unfold Repository_Commit in H.
    eapply readCommit_result; eauto.
  - intros t name t' e st' H. unfold Tree_Tree in H. rewrite Tree_range_find in H.
    destruct (find (fun e0 => bytes_eqb name (Name e0)) (Entries t)) as [en|] eqn:F;
      [|discriminate].
    apply readTree_result in H as (H1 & H2 & H3 & H4).
    split; [exact H1|]. split; [|split; assumption].
    clear - F H2. revert F. generalize (Entries t) as es.
    induction es as [|x es IH]; [discriminate|]. cbn [find].
    destruct (bytes_eqb name (Name x)) eqn:E.
    + intros K. inversion K; subst x. apply bytes_eqb_eq in E.
      exists [], en, es. splits; auto; intros e' [].
    + intros K. destruct (IH K) as (before & en' & after & -> & Hb & Hn & Hid).
      exists (x :: before), en', after. splits; auto.
      intros e' [<-|Hin]; [|apply Hb; exact Hin].
      intro Q. rewrite Q, bytes_eqb_refl in E. discriminate.
Qed.

Lemma results_belong_where_they_were_looked_up_witness :
  Tree_Commit (mkTree c0 (fmt.Sprintf_x id2) (Entries two_entry_tree))
  = Tree_Commit two_entry_tree
  /\ Forall parsed_entry (Entries two_entry_tree).
Proof.
  destruct (results_belong_where_they_were_looked_up stored served os.initial)
    as [_ H].
  destruct (H two_entry_tree (lit "sub")
              (mkTree c0 (fmt.Sprintf_x id2) (Entries two_entry_tree)) None
              (os.mkState 4 [])) as (H1 & _ & H3 & _).
  - vm_compute. reflexivity.
  - split; [exact H1|exact H3].
Defined.

(** ** Clean path names *)

Lemma segs_app : forall a b, segs (a ++ b) = segs a ++ segs b.
Proof. intros a b. unfold segs. rewrite map_app, concat_app. reflexivity. Qed.

Lemma render_snoc : forall cs d,
  render (cs ++ [d])
  = match cs with [] => "/"%byte :: d | _ => render cs ++ "/"%byte :: d end.
Proof.
  intros cs d. destruct cs as [|c cs]; [cbn; rewrite app_nil_r; reflexivity|].
  unfold render. cbn [app]. change (c :: cs ++ [d]) with ((c :: cs) ++ [d]).
  rewrite segs_app. cbn. rewrite app_nil_r. reflexivity.
Qed.

Lemma render_length : forall cs, Forall plain cs ->
  (length (render cs) =? 1)%nat = match cs with [] => true | _ => false end.
Proof.
  intros cs H. destruct cs as [|c cs]; [reflexivity|].
  inversion H as [|? ? (Hc & _) _]; subst.
  apply Nat.eqb_neq. unfold render, segs. cbn [map concat].
  destruct c as [|x c]; [congruence|]. cbn. lia.
Qed.

Lemma sep_true : forall c, filepath_unix.IsPathSeparator c = true -> c = "/"%byte.
Proof. intros c H. apply Byte.byte_dec_bl in H. exact H. Qed.

Lemma sep_false : forall c (d : bytes),
  ~ In "/"%byte d -> In c d -> filepath_unix.IsPathSeparator c = false.
Proof.
  intros c d Hd Hc. destruct (filepath_unix.IsPathSeparator c) eqn:E; [|reflexivity].
  apply sep_true in E. subst. contradiction.
Qed.

Lemma element_spec : forall d more,
  ~ In "/"%byte d -> filepath_unix.at_end_or_separator more = true ->
  filepath_unix.element (d ++ more) = (d, more).
Proof.
  induction d as [|c d IH]; intros more Hd Hm.
  - cbn [app]. destruct more as [|m more]; [reflexivity|].
    cbn in Hm. cbn [filepath_unix.element]. rewrite Hm. reflexivity.
  - cbn [app filepath_unix.element].
    rewrite (sep_false c (c :: d)) by (auto; left; reflexivity).
    rewrite IH; auto. intro K. apply Hd. right. exact K.
Qed.

(** What [element] cuts off is free of slashes, and what it leaves starts
    with one or is empty. *)
Lemma element_split : forall rest,
  rest = fst (filepath_unix.element rest) ++ snd (filepath_unix.element rest)
  /\ ~ In "/"%byte (fst (filepath_unix.element rest))
  /\ filepath_unix.at_end_or_separator (snd (filepath_unix.element rest)) = true.
Proof.
  induction rest as [|c rest IH]; [cbn; auto|].
  cbn [filepath_unix.element].
  destruct (filepath_unix.IsPathSeparator c) eqn:E.
  - cbn. rewrite E. auto.
  - destruct (filepath_unix.element rest) as [el more]. cbn [fst snd] in *.
    destruct IH as (E1 & E2 & E3). split; [cbn; congruence|]. split; [|exact E3].
    intros [K|K]; [|contradiction]. subst c. discriminate.
Qed.

(** *** One turn of the loop of [Clean] on a rooted path *)

Lemma Clean_loop_separator : forall k rooted out dd rest,
  filepath_unix.Clean_loop (S k) rooted out dd ("/"%byte :: rest)
  = filepath_unix.Clean_loop k rooted out dd rest.
Proof. reflexivity. Qed.

Lemma Clean_loop_dot : forall k rooted out dd more,
  filepath_unix.at_end_or_separator more = true ->
  filepath_unix.Clean_loop (S k) rooted out dd ("."%byte :: more)
  = filepath_unix.Clean_loop k rooted out dd more.
Proof.
  intros k rooted out dd more H. cbn [filepath_unix.Clean_loop].
  change (filepath_unix.IsPathSeparator ".") with false.
  change (filepath_unix.is_dot ".") with true. rewrite H. reflexivity.
Qed.

Lemma back_loop_element : forall pre d k fuel,
  ~ In "/"%byte d -> (k <= length d)%nat -> (k < fuel)%nat ->
  (1 <= length pre + k)%nat ->
  filepath_unix.back_loop fuel (pre ++ "/"%byte :: d) 1 (length pre + k)
  = Nat.max 1 (length pre).
Proof.
  intros pre d k. induction k as [|k IH]; intros fuel Hd Hk Hf H1.
  - destruct fuel as [|fuel]; [lia|]. cbn [filepath_unix.back_loop].
    rewrite Nat.add_0_r, nth_middle.
    change (filepath_unix.IsPathSeparator "/") with true.
    rewrite andb_false_r. lia.
  - destruct fuel as [|fuel]; [lia|]. cbn [filepath_unix.back_loop].
    assert (Hn : nth (length pre + S k) (pre ++ "/"%byte :: d) x00 = nth k d x00).
    { rewrite app_nth2 by lia.
      replace (length pre + S k - length pre)%nat with (S k) by lia. reflexivity. }
    rewrite Hn.
    rewrite (sep_false (nth k d x00) d Hd) by (apply nth_In; lia).
    cbn [negb]. rewrite andb_true_r.
    destruct (1 <? length pre + S k)%nat eqn:E.
    + apply Nat.ltb_lt in E.
      replace (length pre + S k - 1)%nat with (length pre + k)%nat by lia.
      apply IH; auto; lia.
    + apply Nat.ltb_ge in E. lia.
Qed.

Lemma backtrack_render : forall cs d,
  Forall plain cs -> plain d ->
  filepath_unix.backtrack (render (cs ++ [d])) 1 = render cs.
Proof.
  intros cs d Hcs (Hd0 & Hd & _). unfold filepath_unix.backtrack.
  rewrite render_snoc.
  assert (Hl : (1 <= length d)%nat) by (destruct d; [congruence|simpl; lia]).
  destruct cs as [|c cs].
  - change ("/"%byte :: d) with ([] ++ "/"%byte :: d).
    replace (length ([] ++ "/"%byte :: d) - 1)%nat with (length (@nil byte) + length d)%nat
      by (cbn; lia).
    rewrite back_loop_element by (auto; cbn; lia). reflexivity.
  - set (pre := render (c :: cs)).
    assert (Hp : (2 <= length pre)%nat).
    { pose proof (render_length (c :: cs) Hcs) as R. apply Nat.eqb_neq in R.
      assert (length pre <> 0)%nat; [|fold pre in R; lia].
      unfold pre, render, segs. cbn. lia. }
    replace (length (pre ++ "/"%byte :: d) - 1)%nat with (length pre + length d)%nat
      by (rewrite length_app; cbn; lia).
    rewrite back_loop_element by (auto; try rewrite length_app; cbn [length]; lia).
    replace (Nat.max 1 (length pre)) with (length pre) by lia.
    rewrite firstn_app, firstn_all, Nat.sub_diag. cbn [firstn]. apply app_nil_r.
Qed.

Lemma Clean_loop_dotdot : forall k cs more,
  Forall plain cs -> filepath_unix.at_end_or_separator more = true ->
  filepath_unix.Clean_loop (S k) true (render cs) 1 ("."%byte :: "."%byte :: more)
  = filepath_unix.Clean_loop k true (render (removelast cs)) 1 more.
Proof.
  intros k cs more Hcs Hm. cbn [filepath_unix.Clean_loop].
  change (filepath_unix.IsPathSeparator ".") with false.
  change (filepath_unix.is_dot ".") with true.
  cbn [filepath_unix.at_end_or_separator andb tl].
  change (filepath_unix.IsPathSeparator ".") with false. cbv iota.
  rewrite Hm. cbv iota.
  destruct cs as [|c cs] using rev_ind.
  - reflexivity.
  - clear IHcs. apply Forall_app in Hcs as [Hcs Hc]. inversion Hc; subst.
    rewrite removelast_last.
    replace (1 <? length (render (cs ++ [c])))%nat with true.
    + rewrite backtrack_render by assumption. reflexivity.
    + symmetry. apply Nat.ltb_lt. rewrite render_snoc.
      match goal with H : plain c |- _ => destruct H as (Hc0 & _) end.
      destruct c as [|x c]; [congruence|].
      destruct cs; [cbn; lia|rewrite length_app; cbn; lia].
Qed.

Lemma Clean_loop_element : forall k cs d more,
  Forall plain cs -> plain d -> filepath_unix.at_end_or_separator more = true ->
  filepath_unix.Clean_loop (S k) true (render cs) 1 (d ++ more)
  = filepath_unix.Clean_loop k true (render (cs ++ [d])) 1 more.
Proof.
  intros k cs d more Hcs (Hd0 & Hd & Hd1 & Hd2) Hm.
  assert (Hel := element_spec d more Hd Hm).
  destruct d as [|c d]; [congruence|].
  cbn [app filepath_unix.Clean_loop].
  change (c :: d ++ more) with ((c :: d) ++ more). rewrite Hel.
  rewrite (sep_false c (c :: d)) by (auto; left; reflexivity).
  assert (T2 : filepath_unix.is_dot c && filepath_unix.at_end_or_separator (d ++ more)
               = false).
  { destruct (filepath_unix.is_dot c) eqn:Ec; [|reflexivity]. cbn [andb].
    apply Byte.byte_dec_bl in Ec. subst c.
    destruct d as [|x d]; [exfalso; apply Hd1; reflexivity|].
    cbn. apply (sep_false x ("."%byte :: x :: d)); auto. right; left; reflexivity. }
  assert (T3 : filepath_unix.is_dot c
               && match d ++ more with
                  | d0 :: rest2 =>
                    filepath_unix.is_dot d0 && filepath_unix.at_end_or_separator rest2
                  | [] => false
                  end = false).
  { destruct (filepath_unix.is_dot c) eqn:Ec; [|reflexivity]. cbn [andb].
    apply Byte.byte_dec_bl in Ec. subst c.
    destruct d as [|x d].
    - cbn [app]. destruct more as [|m more]; [reflexivity|].
      cbn in Hm. apply sep_true in Hm. subst m. reflexivity.
    - cbn [app]. destruct (filepath_unix.is_dot x) eqn:Ex; [|reflexivity].
      cbn [andb]. apply Byte.byte_dec_bl in Ex. subst x.
      destruct d as [|y d]; [exfalso; apply Hd2; reflexivity|].
      cbn. apply (sep_false y ("."%byte :: "."%byte :: y :: d)); auto.
      right; right; left; reflexivity. }
  rewrite T2, T3. cbn [andb negb orb]. rewrite orb_false_r.
  rewrite render_length by assumption. rewrite render_snoc.
  destruct cs as [|c0 cs]; cbn [negb]; [reflexivity|].
  rewrite <- app_assoc. reflexivity.
Qed.

(** The loop of [Clean], from a clean rooted buffer, ends with one. *)
Lemma Clean_loop_rooted : forall fuel rest cs,
  (length rest < fuel)%nat -> Forall plain cs ->
  exists cs', Forall plain cs'
    /\ filepath_unix.Clean_loop fuel true (render cs) 1 rest = render cs'.
Proof.
  induction fuel as [|k IH]; intros rest cs Hf Hcs; [lia|].
  destruct rest as [|c rest1]; [exists cs; auto|].
  destruct (element_split (c :: rest1)) as (Er & Hno & Hmore).
  destruct (filepath_unix.element (c :: rest1)) as [el more]. cbn [fst snd] in *.
  assert (Hlen : length (c :: rest1) = (length el + length more)%nat)
    by (rewrite Er at 1; apply length_app).
  destruct el as [|e0 el].
  - (* an empty element *)
    cbn [app] in Er. subst more.
    cbn in Hmore. apply sep_true in Hmore. subst c.
    rewrite Clean_loop_separator. apply IH; auto. simpl in Hf. lia.
  - destruct (list_eq_dec Byte.byte_eq_dec (e0 :: el) (lit ".")) as [Ed|Ed].
    { inversion Ed; subst. rewrite Er. cbn [app].
      rewrite Clean_loop_dot by assumption. apply IH; auto.
      simpl in Hf, Hlen. lia. }
    destruct (list_eq_dec Byte.byte_eq_dec (e0 :: el) (lit "..")) as [Edd|Edd].
    { inversion Edd; subst. rewrite Er. cbn [app].
      rewrite Clean_loop_dotdot by assumption. apply IH.
      - simpl in Hf, Hlen. lia.
      - destruct cs as [|x cs] using rev_ind; [constructor|].
        rewrite removelast_last. apply Forall_app in Hcs. tauto. }
    rewrite Er.
    rewrite Clean_loop_element; auto; [|repeat split; auto; discriminate].
    apply IH.
    + simpl in Hf, Hlen. simpl. lia.
    + apply Forall_app. split; auto. constructor; [|constructor].
      repeat split; auto. discriminate.
Qed.

(** The loop of [Clean] on elements that are clean already. *)
Lemma Clean_loop_segs : forall ds fuel cs trail,
  Forall plain cs -> Forall plain ds -> trail = [] \/ trail = ["/"%byte] ->
  (length (segs ds ++ trail) < fuel)%nat ->
  filepath_unix.Clean_loop fuel true (render cs) 1 (segs ds ++ trail)
  = render (cs ++ ds).
Proof.
  induction ds as [|d ds IH]; intros fuel cs trail Hcs Hds Ht Hf.
  - rewrite app_nil_r. cbn [segs map concat app] in *.
    destruct Ht as [-> | ->].
    + destruct fuel; reflexivity.
    + destruct fuel as [|[|fuel]]; try (simpl in Hf; lia). reflexivity.
  - inversion Hds as [|? ? Hd Hds']; subst.
    destruct fuel as [|fuel]; [lia|].
    change (segs (d :: ds)) with (("/"%byte :: d) ++ segs ds) in *.
    rewrite <- app_assoc in *. cbn [app] in *.
    rewrite Clean_loop_separator.
    assert (Hm : filepath_unix.at_end_or_separator (segs ds ++ trail) = true).
    { destruct ds as [|d' ds]; [destruct Ht as [-> | ->]; reflexivity|reflexivity]. }
    assert (Hdl : (1 <= length d)%nat).
    { destruct Hd as (Hd0 & _). destruct d; [congruence|cbn [length]; lia]. }
    cbn [length] in Hf. rewrite !length_app in Hf.
    destruct fuel as [|fuel]; [lia|].
    rewrite Clean_loop_element by assumption.
    rewrite IH; auto.
    + rewrite <- app_assoc. reflexivity.
    + apply Forall_app. split; auto.
    + rewrite length_app. lia.
Qed.

(** *** [Clean], [Dir], [Join] and [Abs] on rooted paths *)

Lemma render_nonempty : forall cs, render cs <> [].
Proof. intros [|c cs]; discriminate. Qed.

(** [Clean] of a rooted path is a clean rooted path. *)
Lemma Clean_rooted : forall p,
  exists cs, Forall plain cs /\ filepath_unix.Clean ("/"%byte :: p) = render cs.
Proof.
  intros p. unfold filepath_unix.Clean.
  change (filepath_unix.IsPathSeparator "/") with true. cbv iota.
  destruct (Clean_loop_rooted (S (length ("/"%byte :: p))) p [])
    as (cs & Hcs & E); [simpl; lia|constructor|].
  change [filepath_unix.Separator] with (render []). rewrite E.
  exists cs. split; [exact Hcs|].
  destruct (render cs) eqn:R; [exfalso; revert R; apply render_nonempty|reflexivity].
Qed.

(** A clean rooted path, with or without a slash at its end, cleans to
    itself. *)
Lemma Clean_render : forall cs trail,
  Forall plain cs -> trail = [] \/ trail = ["/"%byte] ->
  filepath_unix.Clean (render cs ++ trail) = render cs.
Proof.
  intros cs trail Hcs Ht.
  destruct cs as [|c cs].
  - destruct Ht as [-> | ->]; reflexivity.
  - unfold render.
    assert (E : segs (c :: cs) ++ trail = "/"%byte :: (c ++ segs cs ++ trail)).
    { unfold segs. cbn [map concat app]. rewrite <- app_assoc. reflexivity. }
    rewrite E. unfold filepath_unix.Clean.
    change (filepath_unix.IsPathSeparator "/") with true. cbv iota.
    rewrite <- Clean_loop_separator, <- E.
    change [filepath_unix.Separator] with (render []).
    rewrite (Clean_loop_segs (c :: cs) _ [] trail);
      [ | constructor | assumption | assumption | rewrite E; cbn [length]; lia ].
    cbn [app]. destruct (render (c :: cs)) eqn:R; [|rewrite <- R; reflexivity].
    exfalso. revert R. apply render_nonempty.
Qed.

Lemma plain_git : plain (lit ".git").
Proof.
  repeat split; try discriminate.
  vm_compute. intros K. repeat (destruct K as [K|K]; [discriminate|]). exact K.
Qed.

Lemma render_snoc_split : forall cs d,
  exists X, render (cs ++ [d]) = X ++ "/"%byte :: d
    /\ X ++ ["/"%byte] = render cs ++ match cs with [] => [] | _ => ["/"%byte] end.
Proof.
  intros cs d. rewrite render_snoc. destruct cs as [|c cs].
  - exists []. split; reflexivity.
  - exists (render (c :: cs)). split; reflexivity.
Qed.

(** [Dir] of a clean rooted path drops its last element. *)
Lemma Dir_render : forall cs d,
  Forall plain (cs ++ [d]) -> filepath_unix.Dir (render (cs ++ [d])) = render cs.
Proof.
  intros cs d H. apply Forall_app in H as [Hcs Hd]. inversion Hd as [|? ? Hp _]; subst.
  destruct Hp as (_ & Hno & _).
  destruct (render_snoc_split cs d) as (X & E & EX).
  unfold filepath_unix.Dir. rewrite E.
  change filepath_unix.Separator with "/"%byte.
  rewrite LastIndexByte_app by assumption.
  replace (Z.to_nat (len X + 1)) with (length (X ++ ["/"%byte]))
    by (rewrite length_app; unfold len; cbn [length]; lia).
  replace (X ++ "/"%byte :: d) with ((X ++ ["/"%byte]) ++ d)
    by (rewrite <- app_assoc; reflexivity).
  rewrite firstn_app, firstn_all, Nat.sub_diag. cbn [firstn]. rewrite app_nil_r.
  rewrite EX. apply Clean_render; [assumption|].
  destruct cs; auto.
Qed.

(** [Join] of a clean rooted path other than [/] and [.git]. *)
Lemma Join_git : forall cs,
  Forall plain cs -> cs <> [] ->
  filepath_unix.Join [render cs; lit ".git"] = render (cs ++ [lit ".git"]).
Proof.
  intros cs Hcs Hne. unfold filepath_unix.Join.
  destruct (render cs) as [|b r] eqn:R; [exfalso; revert R; apply render_nonempty|].
  rewrite <- R. cbn [filepath_unix.strings_Join].
  change filepath_unix.Separator with "/"%byte.
  replace (render cs ++ "/"%byte :: lit ".git") with (render (cs ++ [lit ".git"]) ++ []).
  - apply Clean_render; auto. apply Forall_app. split; auto.
    constructor; [apply plain_git|constructor].
  - rewrite app_nil_r, render_snoc. destruct cs; [congruence|reflexivity].
Qed.

(** [Abs] gives a clean rooted path when the working directory is
    rooted. *)
Lemma Abs_rooted : forall Getwd p,
  (forall wd, Getwd = Ok wd -> filepath_unix.IsAbs wd = true) ->
  (exists cs, Forall plain cs /\ filepath_unix.Abs Getwd p = Ok (render cs))
  \/ (filepath_unix.IsAbs p = false
      /\ exists e, Getwd = Err e /\ filepath_unix.Abs Getwd p = Err e).
Proof.
  intros Getwd p Hwd. unfold filepath_unix.Abs.
  destruct (filepath_unix.IsAbs p) eqn:Ea.
  - left. destruct p as [|c p]; [discriminate|]. cbn in Ea.
    apply Byte.byte_dec_bl in Ea. subst c.
    destruct (Clean_rooted p) as (cs & Hcs & E). exists cs. rewrite E. auto.
  - destruct Getwd as [e|wd] eqn:G.
    + right. split; [reflexivity|]. exists e. auto.
    + left. specialize (Hwd wd eq_refl).
      destruct wd as [|c wd]; [discriminate|]. cbn in Hwd.
      apply Byte.byte_dec_bl in Hwd. subst c.
      cbn [bindR filepath_unix.Join filepath_unix.strings_Join app].
      destruct (Clean_rooted (wd ++ filepath_unix.Separator :: p)) as (cs & Hcs & E).
      exists cs. rewrite E. auto.
Qed.

(** ** [Open]: the walk up the directories *)

Lemma render_not_root : forall cs d,
  Forall plain (cs ++ [d]) -> bytes_eqb (render (cs ++ [d])) [filepath_unix.Separator] = false.
Proof.
  intros cs d H. apply bytes_eqb_neq. intro K.
  apply (f_equal (@length byte)) in K.
  pose proof (render_length (cs ++ [d]) H) as R.
  rewrite K in R. destruct (cs ++ [d]) eqn:E; [destruct cs; discriminate|].
  cbn in R. discriminate.
Qed.

(** One turn of the loop that goes on to the parent. *)
Lemma Open_loop_passes : forall fs k cs d,
  Forall plain (cs ++ [d]) -> passed_by fs (render (cs ++ [d])) ->
  git_Open.Open_loop fs (S k) (render (cs ++ [d]))
  = git_Open.Open_loop fs k (render cs).
Proof.
  intros fs k cs d H Hp. cbn [git_Open.Open_loop].
  rewrite render_not_root by assumption. unfold passed_by in Hp.
  destruct (os_stat.Stat fs (filepath_unix.Join [render (cs ++ [d]); lit ".git"]))
    as [err|fi].
  - rewrite Hp. cbn [negb]. rewrite Dir_render by assumption. reflexivity.
  - rewrite Hp. rewrite Dir_render by assumption. reflexivity.
Qed.

(** The walk from [/up/down] up to [/up], past directories without a
    repository. *)
Lemma Open_loop_climbs : forall fs up down fuel,
  Forall plain (up ++ down) ->
  (forall k, (0 < k <= length down)%nat -> passed_by fs (render (up ++ firstn k down))) ->
  git_Open.Open_loop fs (length down + fuel) (render (up ++ down))
  = git_Open.Open_loop fs fuel (render up).
Proof.
  intros fs up down. induction down as [|d down IH] using rev_ind; intros fuel Hpl Hpass.
  - rewrite app_nil_r. reflexivity.
  - rewrite length_app, app_assoc in *. cbn [length] in *.
    replace (length down + 1 + fuel)%nat with (S (length down + fuel)) by lia.
    rewrite Open_loop_passes.
    + apply IH.
      * apply Forall_app in Hpl. tauto.
      * intros k Hk. specialize (Hpass k ltac:(lia)).
        rewrite firstn_app in Hpass.
        replace (k - length down)%nat with 0%nat in Hpass by lia.
        cbn [firstn] in Hpass. rewrite app_nil_r in Hpass. exact Hpass.
    + exact Hpl.
    + specialize (Hpass (length down + 1)%nat ltac:(lia)).
      rewrite firstn_app in Hpass.
      rewrite firstn_all2 in Hpass by lia.
      replace (length down + 1 - length down)%nat with 1%nat in Hpass by lia.
      cbn [firstn] in Hpass. rewrite <- app_assoc. exact Hpass.
Qed.

Lemma render_longer : forall cs, Forall plain cs -> (length cs < length (render cs) + 1)%nat.
Proof.
  intros cs H. destruct cs as [|c cs]; [cbn; lia|].
  unfold render. induction H as [|x l (Hx & _) _ IH]; [cbn; lia|].
  change (segs (x :: l)) with (("/"%byte :: x) ++ segs l).
  rewrite length_app. cbn [length]. destruct x; [congruence|]. cbn [length]. lia.
Qed.

Lemma Open_loop_more_fuel : forall fs fuel path v extra,
  git_Open.Open_loop fs fuel path = Returns v ->
  git_Open.Open_loop fs (fuel + extra) path = Returns v.
Proof.
  intros fs. induction fuel as [|k IH]; intros path v extra H; [discriminate|].
  cbn [git_Open.Open_loop Nat.add] in *.
  destruct (bytes_eqb path [filepath_unix.Separator]); [exact H|].
  destruct (os_stat.Stat fs _) as [err|fi].
  - destruct (negb (os.IsNotExist (Some err))); [exact H|apply IH; exact H].
  - destruct (os_stat.IsDir fi); [exact H|apply IH; exact H].
Qed.

(** What the loop returns, when it returns a repository: an ancestor of
    the path, other than [/], with a directory [.git]. *)
Lemma Open_loop_total : forall fs cs,
  Forall plain cs ->
  exists res,
    git_Open.Open_loop fs (S (length cs)) (render cs) = Returns res
    /\ forall r, res = Some (inl r) ->
         exists k, (0 < k <= length cs)%nat /\ Root r = render (firstn k cs)
           /\ os_stat.Stat fs (filepath_unix.Join [Root r; lit ".git"])
              = Ok (os_stat.mkFileInfo true).
Proof.
  intros fs cs. induction cs as [|d cs IH] using rev_ind; intros H.
  - exists None. split; [reflexivity|discriminate].
  - cbn [git_Open.Open_loop]. rewrite render_not_root by assumption.
    destruct (os_stat.Stat fs (filepath_unix.Join [render (cs ++ [d]); lit ".git"]))
      as [err|[isdir]] eqn:St.
    + destruct (negb (os.IsNotExist (Some err))).
      * eexists. split; [reflexivity|discriminate].
      * rewrite Dir_render by assumption. rewrite length_app. cbn [length].
        replace (length cs + 1)%nat with (S (length cs)) by lia.
        destruct IH as (res & E & Hres); [apply Forall_app in H; tauto|].
        exists res. split; [exact E|].
        intros r Hr. destruct (Hres r Hr) as (k & Hk & Hroot & Hst).
        exists k. split; [lia|]. split; [|exact Hst].
        rewrite firstn_app. replace (k - length cs)%nat with 0%nat by lia.
        cbn [firstn]. rewrite app_nil_r. exact Hroot.
    + cbn [os_stat.IsDir]. destruct isdir.
      * eexists. split; [reflexivity|]. intros r Hr. inversion Hr; subst.
        exists (length (cs ++ [d])). cbn [Root].
        split; [rewrite length_app; cbn [length]; lia|].
        split; [rewrite firstn_all; reflexivity|exact St].
      * rewrite Dir_render by assumption. rewrite length_app. cbn [length].
        replace (length cs + 1)%nat with (S (length cs)) by lia.
        destruct IH as (res & E & Hres); [apply Forall_app in H; tauto|].
        exists res. split; [exact E|].
        intros r Hr. destruct (Hres r Hr) as (k & Hk & Hroot & Hst).
        exists k. split; [lia|]. split; [|exact Hst].
        rewrite firstn_app. replace (k - length cs)%nat with 0%nat by lia.
        cbn [firstn]. rewrite app_nil_r. exact Hroot.
Qed.

Lemma Open_loop_at : forall fs fuel up down,
  Forall plain (up ++ down) ->
  (forall k, (0 < k <= length down)%nat -> passed_by fs (render (up ++ firstn k down))) ->
  git_Open.Open_loop fs (S (length (render (up ++ down)) + fuel)) (render (up ++ down))
  = git_Open.Open_loop fs
      (S (length (render (up ++ down)) + fuel) - length down) (render up).
Proof.
  intros fs fuel up down Hpl Hpass.
  pose proof (render_longer (up ++ down) Hpl) as L. rewrite length_app in L.
  replace (S (length (render (up ++ down)) + fuel))
    with (length down + (S (length (render (up ++ down)) + fuel) - length down))%nat
    at 1 by lia.
  apply Open_loop_climbs; assumption.
Qed.

(** ** [Open] *)

(** X13: [Open] returns the nearest enclosing repository.  When the
    absolute path of [p] is [/up/down], [.git] under [/up] is a directory,
    and under every directory from [/up/down] up to, but not including,
    [/up] the stat of [.git] fails with a not-exist error or finds
    something that is no directory (a file [.git] is passed by), the
    result is the repository rooted at [/up]. *)
Theorem Open_finds_the_nearest_repository : forall Getwd fs p up down,
  filepath_unix.Abs Getwd p = Ok (render (up ++ down)) ->
  Forall plain (up ++ down) -> up <> [] ->
  (forall k, (0 < k <= length down)%nat -> passed_by fs (render (up ++ firstn k down))) ->
  fs (render (up ++ [lit ".git"])) = inr (os_stat.mkFileInfo true) ->
  git_Open.Open Getwd fs p = Returns (Some (mkRepository (render up)), None).
Proof.
  intros Getwd fs p up down Habs Hpl Hup Hpass Hgit.
  unfold git_Open.Open. rewrite Habs. unfold Ok. cbv iota.
  pose proof (Open_loop_at fs 0 up down Hpl Hpass) as E.
  rewrite Nat.add_0_r in E. rewrite E. clear E.
  pose proof (render_longer (up ++ down) Hpl) as L. rewrite length_app in L.
  destruct (S (length (render (up ++ down))) - length down)%nat as [|k] eqn:F; [lia|].
  destruct up as [|u up] using rev_ind; [congruence|]. clear IHup.
  assert (Hu : Forall plain (up ++ [u])) by (apply Forall_app in Hpl; tauto).
  cbn [git_Open.Open_loop]. rewrite render_not_root by assumption.
  rewrite Join_git by (auto; destruct up; discriminate).
  unfold os_stat.Stat. rewrite Hgit. reflexivity.
Qed.

Lemma plain_names : forall cs,
  forallb (fun c => negb (bytes_eqb c []) && negb (bytes_eqb c (lit "."))
                    && negb (bytes_eqb c (lit ".."))
                    && forallb (fun b => negb (Byte.eqb b "/"%byte)) c) cs = true ->
  Forall plain cs.
Proof.
  intros cs H. rewrite forallb_forall in H. apply Forall_forall. intros c Hc.
  specialize (H c Hc). rewrite !andb_true_iff, !negb_true_iff in H.
  destruct H as [[[H1 H2] H3] H4].
  repeat split.
  - intro K. subst. discriminate.
  - intro K. rewrite forallb_forall in H4. specialize (H4 _ K). discriminate.
  - intro K. subst. discriminate.
  - intro K. subst. discriminate.
Qed.

Lemma Open_finds_the_nearest_repository_witness :
  git_Open.Open (Ok (lit "/home/u/src")) home (lit "pkg/sub/../deep")
  = Returns (Some (mkRepository (lit "/home/u/src")), None).
Proof.
  apply (Open_finds_the_nearest_repository (Ok (lit "/home/u/src")) home
           (lit "pkg/sub/../deep") [lit "home"; lit "u"; lit "src"]
           [lit "pkg"; lit "deep"]).
  - vm_compute. reflexivity.
  - apply plain_names. vm_compute. reflexivity.
  - discriminate.
  - intros k Hk. cbn [length] in Hk.
    destruct k as [|[|[|k]]]; try lia; vm_compute; reflexivity.
  - vm_compute. reflexivity.
Defined.

(** X14: how [Open] fails.  When [p] is relative and the working
    directory cannot be had, the error of [Getwd] is wrapped with the
    path as given.  When the stat of [.git] under a directory on the
    way up fails with an error that is no not-exist error, the walk
    ends there with that error.  When every directory from the path up
    to the one below [/] is passed by, the error is that no repository
    could be located for the absolute path: [.git] under [/] itself is
    not examined. *)
Theorem Open_fails : forall Getwd fs p,
  (forall e, filepath_unix.IsAbs p = false -> Getwd = Err e ->
     git_Open.Open Getwd fs p
     = Returns (None,
                Some (git_Open.errors_Wrapf e
                        "could not convert path %q to an absolute path" p)))
  /\
  (forall up down err,
     filepath_unix.Abs Getwd p = Ok (render (up ++ down)) ->
     Forall plain (up ++ down) -> up <> [] ->
     (forall k, (0 < k <= length down)%nat ->
        passed_by fs (render (up ++ firstn k down))) ->
     os_stat.Stat fs (render (up ++ [lit ".git"])) = Err err ->
     os.IsNotExist (Some err) = false ->
     git_Open.Open Getwd fs p
     = Returns (None, Some (git_Open.failed (errors_WithStack err))))
  /\
  (forall cs,
     filepath_unix.Abs Getwd p = Ok (render cs) -> Forall plain cs ->
     (forall k, (0 < k <= length cs)%nat -> passed_by fs (render (firstn k cs))) ->
     git_Open.Open Getwd fs p
     = Returns (None,
                Some (git_Open.failed
                        (errors_Errorf "could not locate git repository for path %q"
                                       (render cs))))).
Proof.
  intros Getwd fs p. split; [|split].
  - intros e Ha Hg. unfold git_Open.Open, filepath_unix.Abs.
    rewrite Ha, Hg. reflexivity.
  - intros up down err Habs Hpl Hup Hpass Hst Hne.
    unfold git_Open.Open. rewrite Habs. unfold Ok. cbv iota.
    pose proof (Open_loop_at fs 0 up down Hpl Hpass) as E.
    rewrite Nat.add_0_r in E. rewrite E. clear E.
    pose proof (render_longer (up ++ down) Hpl) as L. rewrite length_app in L.
    destruct (S (length (render (up ++ down))) - length down)%nat as [|k] eqn:F; [lia|].
    destruct up as [|u up] using rev_ind; [congruence|]. clear IHup.
    assert (Hu : Forall plain (up ++ [u])) by (apply Forall_app in Hpl; tauto).
    cbn [git_Open.Open_loop]. rewrite render_not_root by assumption.
    rewrite Join_git by (auto; destruct up; discriminate).
    rewrite Hst. unfold Err. cbv iota. rewrite Hne. reflexivity.
  - intros cs Habs Hpl Hpass.
    unfold git_Open.Open. rewrite Habs. unfold Ok. cbv iota.
    pose proof (Open_loop_at fs 0 [] cs Hpl Hpass) as E.
    rewrite Nat.add_0_r in E. cbn [app] in E. rewrite E. clear E.
    pose proof (render_longer cs Hpl) as L.
    destruct (S (length (render cs)) - length cs)%nat as [|k] eqn:F; [lia|].
    reflexivity.
Qed.

Lemma Open_fails_witness :
  git_Open.Open (Err (os_PathError "getwd" [] ENOENT)) home (lit "pkg")
  = Returns (None,
             Some (git_Open.errors_Wrapf (os_PathError "getwd" [] ENOENT)
                     "could not convert path %q to an absolute path" (lit "pkg")))
  /\
  git_Open.Open (Ok (lit "/")) home (lit "/home/u/doc")
  = Returns (None,
             Some (git_Open.failed
                     (errors_WithStack
                        (os_PathError "stat" [lit "/home/u/.git"] EACCES))))
  /\
  git_Open.Open (Ok (lit "/")) home (lit "/tmp/x")
  = Returns (None,
             Some (git_Open.failed
                     (errors_Errorf "could not locate git repository for path %q"
                                    (lit "/tmp/x")))).
Proof.
  split; [|split].
  - destruct (Open_fails (Err (os_PathError "getwd" [] ENOENT)) home (lit "pkg"))
      as (H & _ & _).
    apply H; reflexivity.
  - destruct (Open_fails (Ok (lit "/")) home (lit "/home/u/doc")) as (_ & H & _).
    apply (H [lit "home"; lit "u"] [lit "doc"]).
    + vm_compute. reflexivity.
    + apply plain_names. vm_compute. reflexivity.
    + discriminate.
    + intros k Hk. cbn [length] in Hk.
      destruct k as [|[|k]]; try lia; vm_compute; reflexivity.
    + vm_compute. reflexivity.
    + reflexivity.
  - destruct (Open_fails (Ok (lit "/")) home (lit "/tmp/x")) as (_ & _ & H).
    apply (H [lit "tmp"; lit "x"]).
    + vm_compute. reflexivity.
    + apply plain_names. vm_compute. reflexivity.
    + intros k Hk. cbn [length] in Hk.
      destruct k as [|[|[|k]]]; try lia; vm_compute; reflexivity.
Defined.

(** X15: with a rooted working directory, [Open] comes to an end for
    every path and every file system, with a repository or with an
    error, not with both.  A repository it returns is rooted at the
    absolute path of [p] or at a directory above it, never at [/], and
    [.git] under its root is a directory. *)
Theorem Open_returns_an_enclosing_repository : forall Getwd fs p,
  (forall wd, Getwd = Ok wd -> filepath_unix.IsAbs wd = true) ->
  exists r e,
    git_Open.Open Getwd fs p = Returns (r, e)
    /\ match r with
       | Some repo =>
         e = None
         /\ exists cs k,
              filepath_unix.Abs Getwd p = Ok (render cs) /\ Forall plain cs
              /\ (0 < k <= length cs)%nat /\ Root repo = render (firstn k cs)
              /\ os_stat.Stat fs (filepath_unix.Join [Root repo; lit ".git"])
                 = Ok (os_stat.mkFileInfo true)
       | None => exists err, e = Some err
       end.
Proof.
  intros Getwd fs p Hwd. unfold git_Open.Open.
  destruct (Abs_rooted Getwd p Hwd) as [(cs & Hcs & Ea) | (_ & e & _ & Ea)].
  - rewrite Ea. unfold Ok. cbv iota.
    destruct (Open_loop_total fs cs Hcs) as (res & E & Hres).
    pose proof (render_longer cs Hcs) as L.
    replace (S (length (render cs)))
      with (S (length cs) + (length (render cs) - length cs))%nat by lia.
    rewrite (Open_loop_more_fuel _ _ _ _ _ E).
    destruct res as [[repo|err]|].
    + exists (Some repo), None. split; [reflexivity|]. split; [reflexivity|].
      destruct (Hres repo eq_refl) as (k & Hk & Hroot & Hst).
      exists cs, k. auto.
    + eexists None, _. split; [reflexivity|]. eauto.
    + eexists None, _. split; [reflexivity|]. eauto.
  - rewrite Ea. unfold Err. eexists None, _. split; [reflexivity|]. eauto.
Qed.

Lemma Open_returns_an_enclosing_repository_witness :
  exists r e,
    git_Open.Open (Ok (lit "/home/u/src")) home (lit "pkg") = Returns (r, e)
    /\ match r with
       | Some repo =>
         e = None
         /\ exists cs k,
              filepath_unix.Abs (Ok (lit "/home/u/src")) (lit "pkg") = Ok (render cs)
              /\ Forall plain cs
              /\ (0 < k <= length cs)%nat /\ Root repo = render (firstn k cs)
              /\ os_stat.Stat home (filepath_unix.Join [Root repo; lit ".git"])
                 = Ok (os_stat.mkFileInfo true)
       | None => exists err, e = Some err
       end.
Proof.
  apply (Open_returns_an_enclosing_repository (Ok (lit "/home/u/src")) home (lit "pkg")).
  intros wd H. inversion H. reflexivity.
Defined.

(** ** A tree body that arrives in one read *)







